(** * Miyabi parallel executor and review agent: model and properties

    Shallow embedding of [scripts/agents-parallel-executor.ts]
    (parseDependencies, buildDAG, executeIssue, executeDAG) and of
    [agents/review-agent.ts] (ReviewAgent), followed by the properties the
    design document states about them.  Parts III to XII add the agents
    that the executor calls ([agents/issue-agent.ts], CodeGenAgent,
    PRAgent) and the knowledge loader, with further properties read off
    the code. *)

From stdpp Require Import gmap strings list pretty relations sorting.
From Stdlib Require Import ZArith QArith Qround Qminmax Lqa.
From Stdlib Require Import Floats.PrimFloat Floats.FloatOps Floats.SpecFloat.
From Stdlib Require Import Floats.FloatAxioms.
From Stdlib Require Import Numbers.Cyclic.Int63.Uint63.
Local Close Scope Q_scope.
Local Open Scope nat_scope.
#[local] Set Warnings "-inexact-float,-clear-no-such-hyp".

(* ===================================================================== *)
(** * Part I: definitions *)
(* ===================================================================== *)

(** ** JavaScript strings, the two regular expressions, Set *)

Module Js.

(** A JavaScript string is a sequence of UTF-16 code units. *)
Definition jsstring : Type := list N.

(** An ASCII literal of the source as code units. *)
Definition lit (s : string) : jsstring :=
  Ascii.N_of_ascii <$> String.list_ascii_of_string s.

(** The class [\d] (without the [u] flag: ASCII digits only). *)
Definition is_digit (c : N) : bool := ((48 <=? c) && (c <=? 57))%N.

(** The class [\s]: WhiteSpace and LineTerminator code points. *)
Definition is_space (c : N) : bool :=
  bool_decide (c ∈ [9; 10; 11; 12; 13; 32; 160; 5760; 8232; 8233; 8239;
                     8287; 12288; 65279]%N)
  || ((8192 <=? c) && (c <=? 8202))%N.

(** Canonicalize of the [i] flag (no [u] flag).  The two patterns only
    hold ASCII characters, and a code unit above 127 is never mapped to an
    ASCII one, so only the folding of [a-z] matters. *)
Definition canonicalize (c : N) : N :=
  if ((97 <=? c) && (c <=? 122))%N then (c - 32)%N else c.

(** Match a literal, ignoring case, at the head of [s]; the rest of the
    input is returned. *)
Fixpoint match_lit_ci (pat s : jsstring) : option jsstring :=
  match pat with
  | [] => Some s
  | p :: pat' =>
      match s with
      | c :: s' =>
          if (canonicalize c =? canonicalize p)%N
          then match_lit_ci pat' s' else None
      | [] => None
      end
  end.

(** A greedy [x*]: the longest prefix in the class, and the rest. *)
Fixpoint span (p : N → bool) (s : jsstring) : jsstring * jsstring :=
  match s with
  | c :: s' =>
      if p c then let '(a, b) := span p s' in (c :: a, b) else ([], s)
  | [] => ([], [])
  end.

(** The group [(\d+)], greedy: captured digits and the rest. *)
Definition match_digits (s : jsstring) : option (jsstring * jsstring) :=
  match span is_digit s with
  | ([], _) => None
  | (ds, rest) => Some (ds, rest)
  end.

(** [parseInt(ds, 10)] on a string of decimal digits.  The value is the
    exact integer; a Number holds it exactly below 2^53. *)
Definition parseInt10 (ds : jsstring) : N :=
  foldl (λ acc d, acc * 10 + (d - 48))%N 0%N ds.

(** [/Relates to #(\d+)/i] tried at the head of [s]. *)
Definition relates_at (s : jsstring) : option (jsstring * jsstring) :=
  match match_lit_ci (lit "Relates to #") s with
  | Some rest => match_digits rest
  | None => None
  end.

(** [issueBody.match(/Relates to #(\d+)/i)]: the leftmost match; its
    capture group is returned. *)
Fixpoint relates_match (s : jsstring) : option jsstring :=
  match relates_at s with
  | Some (ds, _) => Some ds
  | None =>
      match s with
      | [] => None
      | _ :: s' => relates_match s'
      end
  end.

(** [/depends:\s*#(\d+)/gi] tried at the head of [s]: the capture group
    and the length of the whole match.  [\s*] is followed by [#], which
    is no white space, and [\d+] ends the pattern, so the greedy choice is
    the only one that can succeed. *)
Definition depends_at (s : jsstring) : option (jsstring * nat) :=
  match match_lit_ci (lit "depends:") s with
  | Some r1 =>
      let '(ws, r2) := span is_space r1 in
      match r2 with
      | c :: r3 =>
          if (c =? 35)%N then
            match match_digits r3 with
            | Some (ds, _) => Some (ds, 8 + length ws + 1 + length ds)
            | None => None
            end
          else None
      | [] => None
      end
  | None => None
  end.

(** [issueBody.matchAll(/depends:\s*#(\d+)/gi)]: after a match the search
    resumes at its end ([skip] code units are still to be passed over),
    after a failure one code unit further. *)
Fixpoint depends_matchAll (skip : nat) (s : jsstring) : list jsstring :=
  match s with
  | [] => []
  | _ :: s' =>
      match skip with
      | S k => depends_matchAll k s'
      | O =>
          match depends_at s with
          | Some (ds, len) => ds :: depends_matchAll (len - 1) s'
          | None => depends_matchAll 0 s'
          end
      end
  end.

(** [new Set(deps)] spread into an array: insertion order, the first
    occurrence of a value is kept. *)
Definition Set_add (s : list N) (x : N) : list N :=
  if decide (x ∈ s) then s else s ++ [x].

Definition Set_from (l : list N) : list N := foldl Set_add [] l.

End Js.

Import Js.

(** ** parseDependencies *)

Definition parseDependencies (issueBody : jsstring) : list N :=
  let deps0 :=
    match relates_match issueBody with
    | Some ds => [parseInt10 ds]
    | None => []
    end in
  let deps := deps0 ++ (parseInt10 <$> depends_matchAll 0 issueBody) in
  Set_from deps.

(** The words of the design document: an occurrence of the pattern
    [depends: #N] at offset [i] of the text, with any run of white space
    before [#] and [N] the whole run of digits after it. *)
Definition ci_equal (a b : jsstring) : Prop :=
  canonicalize <$> a = canonicalize <$> b.

Definition digit_run (ds rest : jsstring) : Prop :=
  ds ≠ [] ∧ Forall (λ c, is_digit c = true) ds ∧
  match rest with c :: _ => is_digit c = false | [] => True end.

Definition depends_occurrence (body : jsstring) (i : nat) (n : N) : Prop :=
  ∃ kw ws ds rest,
    drop i body = kw ++ ws ++ 35%N :: ds ++ rest ∧
    ci_equal kw (lit "depends:") ∧
    Forall (λ c, is_space c = true) ws ∧
    digit_run ds rest ∧ n = parseInt10 ds.

Definition relates_occurrence (body : jsstring) (i : nat) (n : N) : Prop :=
  ∃ kw ds rest,
    drop i body = kw ++ ds ++ rest ∧
    ci_equal kw (lit "Relates to #") ∧
    digit_run ds rest ∧ n = parseInt10 ds.

Definition first_relates_occurrence (body : jsstring) (n : N) : Prop :=
  ∃ i, relates_occurrence body i n ∧
       ∀ j m, j < i → ¬ relates_occurrence body j m.

Definition example_body : jsstring :=
  lit "depends: #3" ++ [10%N] ++ lit "depends: #3".

(** ** Issues and DAG nodes *)

Module Issue.
(** [interface Issue]; a label is kept by its name. *)
Record t : Type := mk
  { number : N;
    title : jsstring;
    body : jsstring;
    labels : list jsstring;
    state : jsstring }.
End Issue.

Module DAGNode.
(** [interface DAGNode]. *)
Record t : Type := mk
  { id : string;
    number : N;
    title : jsstring;
    dependencies : list string;
    level : nat }.

(** The assignment [node.level = l]. *)
Definition set_level (l : nat) (n : t) : t :=
  mk (id n) (number n) (title n) (dependencies n) l.
End DAGNode.

(** The template [`issue-${n}`]. *)
Definition issueId (n : N) : string := "issue-" +:+ pretty n.

(** ** buildDAG *)

(** The object pushed on [nodes] for one issue. *)
Definition newNode (issue : Issue.t) : DAGNode.t :=
  DAGNode.mk (issueId (Issue.number issue)) (Issue.number issue)
    (Issue.title issue)
    (issueId <$> parseDependencies (Issue.body issue)) 0.

(** [new Map(nodes.map((n) => [n.id, n]))].  The map holds references to
    the objects of the array [nodes]; a reference is the index of the object
    in the array.  A later entry with the same key replaces the earlier one. *)
Fixpoint nodeMap_from (i : nat) (nodes : list DAGNode.t)
    (m : gmap string nat) : gmap string nat :=
  match nodes with
  | [] => m
  | n :: nodes' => nodeMap_from (S i) nodes' (<[DAGNode.id n := i]> m)
  end.

Definition mkNodeMap (nodes : list DAGNode.t) : gmap string nat :=
  nodeMap_from 0 nodes ∅.

(** What [calculateLevel] reads and writes: the set [visited] and the node
    objects (their [level] fields). *)
Record LevelState : Type := mkLevelState
  { visited : gset string;
    nodes : list DAGNode.t }.

(** [nodeMap.get(nodeId)]: the node object, with its reference. *)
Definition getNode (nodeMap : gmap string nat) (nodes : list DAGNode.t)
    (nodeId : string) : option (nat * DAGNode.t) :=
  match nodeMap !! nodeId with
  | Some i =>
      match nodes !! i with
      | Some n => Some (i, n)
      | None => None
      end
  | None => None
  end.

(** [node.level = l] through the reference [i]. *)
Definition writeLevel (i l : nat) (st : LevelState) : LevelState :=
  mkLevelState (visited st) (alter (DAGNode.set_level l) i (nodes st)).

(** [node.dependencies.map((dep) => calculateLevel(dep))]: the calls are
    made from left to right, each on the state the previous one left. *)
Fixpoint mapLevels (f : string → LevelState → option (nat * LevelState))
    (deps : list string) (st : LevelState)
    : option (list nat * LevelState) :=
  match deps with
  | [] => Some ([], st)
  | d :: deps' =>
      match f d st with
      | Some (l, st1) =>
          match mapLevels f deps' st1 with
          | Some (ls, st2) => Some (l :: ls, st2)
          | None => None
          end
      | None => None
      end
  end.

(** [calculateLevel], with a bound on the depth of the recursion: [None]
    when the bound is reached.  [Math.max] is only applied to a list that is
    not empty, where it is [max_list]. *)
Fixpoint calculateLevel (nodeMap : gmap string nat) (fuel : nat)
    (nodeId : string) (st : LevelState) : option (nat * LevelState) :=
  match fuel with
  | O => None
  | S fuel' =>
      if decide (nodeId ∈ visited st) then
        (* return node?.level || 0 *)
        Some (match getNode nodeMap (nodes st) nodeId with
              | Some (_, node) => DAGNode.level node
              | None => 0
              end, st)
      else
        let st1 := mkLevelState ({[nodeId]} ∪ visited st) (nodes st) in
        match getNode nodeMap (nodes st) nodeId with
        | None => Some (0, st1)
        | Some (i, node) =>
            match DAGNode.dependencies node with
            | [] => Some (0, writeLevel i 0 st1)
            | deps =>
                match mapLevels (calculateLevel nodeMap fuel') deps st1 with
                | Some (ls, st2) =>
                    let l := max_list ls + 1 in
                    Some (l, writeLevel i l st2)
                | None => None
                end
            end
        end
  end.

(** [for (const node of nodes) calculateLevel(node.id)]. *)
Fixpoint calculateAll (nodeMap : gmap string nat) (fuel : nat)
    (ids : list string) (st : LevelState) : option LevelState :=
  match ids with
  | [] => Some st
  | nodeId :: ids' =>
      match calculateLevel nodeMap fuel nodeId st with
      | Some (_, st1) => calculateAll nodeMap fuel ids' st1
      | None => None
      end
  end.

(** [nodes.sort((a, b) => a.level - b.level)].  Array.prototype.sort is
    stable, so the result is the one stable arrangement by level; it is
    built here by stable insertion. *)
Fixpoint insertNode (n : DAGNode.t) (l : list DAGNode.t) : list DAGNode.t :=
  match l with
  | [] => [n]
  | m :: l' =>
      if DAGNode.level n <=? DAGNode.level m then n :: m :: l'
      else m :: insertNode n l'
  end.

Definition sortByLevel (l : list DAGNode.t) : list DAGNode.t :=
  foldr insertNode [] l.

(** The nodes with their levels, in the order of the array before the
    final sort. *)
Definition leveledNodes (fuel : nat) (issues : list Issue.t)
    : option (list DAGNode.t) :=
  let nodes0 := newNode <$> issues in
  let nodeMap := mkNodeMap nodes0 in
  match calculateAll nodeMap fuel (DAGNode.id <$> nodes0)
          (mkLevelState ∅ nodes0) with
  | Some st => Some (nodes st)
  | None => None
  end.

Definition buildDAG_fuel (fuel : nat) (issues : list Issue.t)
    : option (list DAGNode.t) :=
  sortByLevel <$> leveledNodes fuel issues.

(** The recursion of [calculateLevel] is never deeper than the number of
    nodes plus one (theorem [calculateLevel_total]). *)
Definition buildDAG (issues : list Issue.t) : option (list DAGNode.t) :=
  buildDAG_fuel (S (length issues)) issues.

(** The fields of the node objects that [calculateLevel] never writes. *)
Definition skeleton (nodes : list DAGNode.t) : list DAGNode.t :=
  DAGNode.set_level 0 <$> nodes.

(** The level of the node that [nodeMap] holds for an id, 0 when there is
    none: the value of [node?.level || 0]. *)
Definition levelAt (nodeMap : gmap string nat) (nodes : list DAGNode.t)
    (nodeId : string) : nat :=
  match getNode nodeMap nodes nodeId with
  | Some (_, node) => DAGNode.level node
  | None => 0
  end.

(** How many entries of a list of ids are not in [visited]: the measure
    that bounds the depth of the recursion. *)
Definition unvisited (keys : list string) (v : gset string) : nat :=
  length (filter (λ a, a ∉ v) keys).

(** The level of a node agrees with the levels of its dependencies as
    they are in the same array. *)
Definition levelEquation (nodeMap : gmap string nat)
    (nodes : list DAGNode.t) (n : DAGNode.t) : Prop :=
  DAGNode.level n
  = match DAGNode.dependencies n with
    | [] => 0
    | deps => max_list (levelAt nodeMap nodes <$> deps) + 1
    end.

(** The invariant of [calculateLevel] on an acyclic input: every visited
    node that is not on the call stack has its final level, and so have
    its dependencies. *)
Definition settled (nodeMap : gmap string nat) (stack : gset string)
    (st : LevelState) : Prop :=
  ∀ a i n, a ∈ visited st → a ∉ stack →
    nodeMap !! a = Some i → nodes st !! i = Some n →
    levelEquation nodeMap (nodes st) n ∧
    ∀ d, d ∈ DAGNode.dependencies n → d ∈ visited st ∧ d ∉ stack.

(** What a call of [calculateLevel] leaves behind, whatever the graph:
    the nodes keep their other fields, [visited] grows and holds the
    argument, what is read for the ids visited before is as before, and the
    value returned is the level then held for the argument. *)
Definition call_post (nodes0 : list DAGNode.t) (a : string)
    (st : LevelState) (l : nat) (st' : LevelState) : Prop :=
  skeleton (nodes st') = nodes0 ∧
  visited st ⊆ visited st' ∧
  a ∈ visited st' ∧
  (∀ b, b ∈ visited st → levelAt (mkNodeMap nodes0) (nodes st') b = levelAt (mkNodeMap nodes0) (nodes st) b) ∧
  l = levelAt (mkNodeMap nodes0) (nodes st') a.

Definition map_post (nodes0 : list DAGNode.t) (deps : list string)
    (st : LevelState) (ls : list nat) (st' : LevelState) : Prop :=
  skeleton (nodes st') = nodes0 ∧
  visited st ⊆ visited st' ∧
  (∀ d, d ∈ deps → d ∈ visited st') ∧
  (∀ b, b ∈ visited st → levelAt (mkNodeMap nodes0) (nodes st') b = levelAt (mkNodeMap nodes0) (nodes st) b) ∧
  ls = levelAt (mkNodeMap nodes0) (nodes st') <$> deps.

(** The dependency relation between node ids: [a] names a node that lists
    [b], and [b] names a node too. *)
Definition depEdge (nodes : list DAGNode.t) (a b : string) : Prop :=
  ∃ n, n ∈ nodes ∧ DAGNode.id n = a ∧ b ∈ DAGNode.dependencies n ∧
       b ∈ DAGNode.id <$> nodes.

Definition acyclic (issues : list Issue.t) : Prop :=
  ∀ a, ¬ tc (depEdge (newNode <$> issues)) a a.

(** The level of the node called [d] in a node list, 0 when there is
    none. *)
Definition levelOf (dag : list DAGNode.t) (d : string) : nat :=
  match list_find (λ n, DAGNode.id n = d) dag with
  | Some (_, n) => DAGNode.level n
  | None => 0
  end.

Definition resolvable (dag : list DAGNode.t) (d : string) : Prop :=
  d ∈ DAGNode.id <$> dag.

(** The rule of the data model for the level of one node. *)
Definition levelRule (dag : list DAGNode.t) (n : DAGNode.t) : Prop :=
  (DAGNode.dependencies n = [] → DAGNode.level n = 0) ∧
  (DAGNode.dependencies n ≠ [] →
   Forall (resolvable dag) (DAGNode.dependencies n) →
   DAGNode.level n
   = 1 + max_list (levelOf dag <$> DAGNode.dependencies n)).

(** A check that a ranking of the ids decreases along every dependency
    that names a node; such a ranking shows that there is no cycle. *)
Definition decreasesAlongEdges (rank : string → nat)
    (nodes : list DAGNode.t) : bool :=
  forallb (λ n,
    forallb (λ d,
      if decide (d ∈ DAGNode.id <$> nodes)
      then rank d <? rank (DAGNode.id n) else true)
      (DAGNode.dependencies n)) nodes.

(** The order of the levels in a node list. *)
Definition levelLe (a b : DAGNode.t) : Prop :=
  DAGNode.level a ≤ DAGNode.level b.

(** The nodes of one level, in the order of the list. *)
Definition atLevel (l : nat) (dag : list DAGNode.t) : list DAGNode.t :=
  filter (λ n, DAGNode.level n = l) dag.

(** Inputs used in the examples: an issue with a given number and body. *)
Definition simpleIssue (n : N) (body : string) : Issue.t :=
  Issue.mk n (lit "task") (lit body) [] (lit "open").

(** #1 alone, #2 relating to #1, #3 depending on both. *)
Definition chainIssues : list Issue.t :=
  [simpleIssue 3 "depends: #1 depends: #2"; simpleIssue 1 "";
   simpleIssue 2 "Relates to #1"].

(** The issue #2 supplied twice, as with [--issues 1,2,2]. *)
Definition repeatedIssues : list Issue.t :=
  [simpleIssue 1 ""; simpleIssue 2 "Relates to #1";
   simpleIssue 2 "Relates to #1"].

(** Two issues that depend on each other. *)
Definition cyclicIssues : list Issue.t :=
  [simpleIssue 1 "depends: #2"; simpleIssue 2 "Relates to #1"].

Definition rankOf (table : list (string * nat)) (a : string) : nat :=
  match list_find (λ p : string * nat, fst p = a) table with
  | Some (_, p) => snd p
  | None => 0
  end.

(** ** ReviewAgent *)

(** [Math.round] of a binary64 value: the integer [floor (x + 1/2)], taken
    exactly.  With [x = v * 2^e] for integers [v] and [e < 0] this is
    [floor ((2 v + 2^-e) / 2^(1-e))], a shift to the right.  The function
    is only used on finite values. *)
Definition Math_round (x : float) : Z :=
  match Prim2SF x with
  | S754_finite s m e =>
      let v := if s then Z.neg m else Z.pos m in
      if (0 <=? e)%Z then Z.shiftl v e
      else Z.shiftr (Z.shiftl v 1 + Z.shiftl 1 (- e)) (1 - e)
  | _ => 0%Z
  end.

(** An integer score as a Number (exact on the range of the scores). *)
Definition toNumber (z : Z) : float := PrimFloat.of_uint63 (Uint63.of_Z z).

Module ReviewAgent.

Inductive Severity : Type := error | warning | info.

#[global] Instance Severity_eq_dec : EqDecision Severity.
Proof. solve_decision. Defined.

(** [interface QualityIssue] (the optional line is left out). *)
Record QualityIssue : Type := mkIssue
  { file : jsstring;
    severity : Severity;
    message : jsstring;
    rule : jsstring }.

(** What a failed run of [npx tsc --noEmit] printed: the number of
    matches of [/error TS\d+:/g] (0 when [match] gives [null]) and the
    lines that include ["error TS"]. *)
Record TscFailure : Type := mkTscFailure
  { errorMatches : nat;
    errorLines : list jsstring }.

(** One message of the ESLint report. *)
Record LintMessage : Type := mkLintMessage
  { lintSeverity : N;
    lintText : jsstring;
    ruleId : jsstring }.

(** The counts of [checkComplexity] for one file. *)
Record Branches : Type := mkBranches
  { ifCount : nat; forCount : nat; whileCount : nat;
    caseCount : nat; catchCount : nat }.

(** The outside world of one review.  [tsc = None]: the compiler run
    resolved.  [eslint = None]: the run or [JSON.parse] threw; otherwise
    the results, one per file, with their messages.  [securityReads] and
    [complexityReads] have one entry per file of the request: [None] when
    [readFile] threw, otherwise the number of matches of each of the five
    dangerous patterns, resp. the branch counts. *)
Record Env : Type := mkEnv
  { tsc : option TscFailure;
    eslint : option (list (jsstring * list LintMessage));
    securityReads : list (jsstring * option (list (nat * jsstring)));
    complexityReads : list (option Branches) }.

Record ReviewResult : Type := mkResult
{ score : Z;
  passed : bool;
  issues : list QualityIssue;
  summaryErrors : nat;
  summaryWarnings : nat;
  summaryInfo : nat;
  typeScriptErrors : nat;
  typeScriptScore : Z;
  eslintErrors : nat;
  eslintWarnings : nat;
  eslintScore : Z;
  vulnerabilities : nat;
  securityScore : Z;
  complexityScore : Z }.

(** [private threshold: number = 80]. *)
Definition threshold : Z := 80.

Definition checkTypeScript (env : Env) : list QualityIssue * nat * Z :=
  match tsc env with
  | None => ([], 0, 100%Z)
  | Some out =>
      let errors :=
        match errorMatches out with O => 1 | n => n end in
      let issues :=
        (λ line, mkIssue (lit "TypeScript") error line (lit "tsc"))
          <$> errorLines out in
      (issues, errors, Z.max 0 (100 - Z.of_nat errors * 10))
  end.

Definition lintIssue (filePath : jsstring) (m : LintMessage)
    : QualityIssue :=
  mkIssue filePath (if (lintSeverity m =? 2)%N then error else warning)
    (lintText m) (ruleId m).

Definition checkESLint (env : Env) : list QualityIssue * nat * nat * Z :=
  match eslint env with
  | None => ([], 0, 0, 100%Z)
  | Some results =>
      let issues :=
        concat ((λ r : jsstring * list LintMessage,
                    lintIssue (fst r) <$> snd r) <$> results) in
      let errors :=
        length (filter (λ i, severity i = error) issues) in
      let warnings :=
        length (filter (λ i, severity i ≠ error) issues) in
      match errors, warnings with
      | O, O => (issues, 0, 0, 100%Z)
      | _, _ =>
          (issues, errors, warnings,
           Z.max 0 (100 - Z.of_nat errors * 5 - Z.of_nat warnings * 2))
      end
  end.

(** One file of [checkSecurity]: the matches of the patterns that
    matched, and one warning for each such pattern. *)
Definition scanFile (r : jsstring * option (list (nat * jsstring)))
    : nat * list QualityIssue :=
  match snd r with
  | None => (0, [])
  | Some counts =>
      let hits := filter (λ c : nat * jsstring, fst c ≠ 0) counts in
      (sum_list (fst <$> hits),
       (λ c : nat * jsstring,
          mkIssue (fst r) warning (snd c) (lit "security")) <$> hits)
  end.

Definition checkSecurity (env : Env) : list QualityIssue * nat * Z :=
  let scans := scanFile <$> securityReads env in
  let vulnerabilities := sum_list (fst <$> scans) in
  let issues := concat (snd <$> scans) in
  match vulnerabilities with
  | O => (issues, 0, 100%Z)
  | _ => (issues, vulnerabilities,
          Z.max 0 (100 - Z.of_nat vulnerabilities * 10))
  end.

Definition complexityOf (b : Branches) : nat :=
  1 + ifCount b + forCount b + whileCount b + caseCount b + catchCount b.

(** The average of [checkComplexity] over the files that could be read,
    0 when there is none. *)
Definition avgComplexity (env : Env) : Q :=
  let read : list Branches := omap id (complexityReads env) in
  let totalComplexity := sum_list (complexityOf <$> read) in
  let fileCount := length read in
  match fileCount with
  | O => 0%Q
  | _ => (inject_Z (Z.of_nat totalComplexity)
          / inject_Z (Z.of_nat fileCount))%Q
  end.

(** [checkComplexity].  The average and the score before rounding are
    fractions; they are computed here as exact rationals, and
    [Math.round] as [floor (score + 1/2)]. *)
Definition checkComplexity (env : Env) : Z :=
  let score : Q :=
    if Qlt_le_dec 10 (avgComplexity env)
    then Qmax 0 (100 - (avgComplexity env - 10) * 10)%Q
    else 100%Q in
  Qfloor (score + (1 # 2))%Q.

(** The weighted sum of [review], evaluated in binary64 as written. *)
Definition weighted (typeScriptScore eslintScore securityScore
    complexityScore : Z) : float :=
  (toNumber typeScriptScore * 0.3 + toNumber eslintScore * 0.3
   + toNumber securityScore * 0.3 + toNumber complexityScore * 0.1)%float.

Definition review (env : Env) : ReviewResult :=
let '(tsIssues, tsErrors, typeScriptScore) := checkTypeScript env in
let '(lintIssues, lintErrors, lintWarnings, eslintScore) :=
  checkESLint env in
let '(secIssues, vulnerabilities, securityScore) := checkSecurity env in
let complexityScore := checkComplexity env in
let issues := tsIssues ++ lintIssues ++ secIssues in
let totalScore :=
  Math_round (weighted typeScriptScore eslintScore securityScore
                complexityScore) in
mkResult totalScore (threshold <=? totalScore)%Z issues
  (length (filter (λ i, severity i = error) issues))
  (length (filter (λ i, severity i = warning) issues))
  (length (filter (λ i, severity i = info) issues))
  tsErrors typeScriptScore lintErrors lintWarnings eslintScore
  vulnerabilities securityScore complexityScore.

(** The values that the scores of the compiler and of the security scan
    can take, and the test, by two comparisons in binary64, that a weighted
    sum rounds to a total between 0 and 100. *)
Definition tens : list Z := [0; 10; 20; 30; 40; 50; 60; 70; 80; 90; 100]%Z.

Definition inRangeF (x : float) : bool :=
((x <? 100.5) && (-0.5 <=? x))%float.

(** Worlds for the examples: [n] compiler errors, [w] lint warnings. *)
Definition reviewEnvOf (n w : nat) : Env :=
mkEnv (Some (mkTscFailure n []))
  (Some [(lit "a.ts", replicate w (mkLintMessage 1 [] []))]) [] [].

(** Eleven compiler errors, one lint error and 43 warnings, nine matches
    of a dangerous pattern, and five files of average complexity 19.2:
    the sub-scores 0, 9, 10 and 8. *)
Definition tieEnv : Env :=
mkEnv (Some (mkTscFailure 11 []))
  (Some [(lit "a.ts", mkLintMessage 2 [] [] ::
                      replicate 43 (mkLintMessage 1 [] []))])
  [(lit "a.ts", Some [(9, lit "Avoid using eval()")])]
  (replicate 4 (Some (mkBranches 18 0 0 0 0))
   ++ [Some (mkBranches 19 0 0 0 0)]).

(** The weighted sum over the rationals, rounded half up: what the
    formula would give without binary64 rounding. *)
Definition exactWeighted (t e s c : Z) : Z :=
  ((3 * (t + e + s) + c) * 2 + 10) / 20.

End ReviewAgent.

(** ** Calls that may throw *)

Inductive Outcome (A : Type) : Type :=
  | Returned (a : A)
  | Threw (message : jsstring).
Arguments Returned {A} a.
Arguments Threw {A} message.

#[global] Instance Outcome_ret : MRet Outcome := @Returned.
#[global] Instance Outcome_bind : MBind Outcome := λ A B f x,
  match x with
  | Returned a => f a
  | Threw e => Threw e
  end.

Definition throws {A} (x : Outcome A) : bool :=
  match x with Threw _ => true | Returned _ => false end.

(** ** executeIssue *)

Record GeneratedFile : Type := mkFile
  { path : jsstring; content : jsstring; description : jsstring }.

Record CodeGenerationResult : Type := mkCodeResult
  { success : bool;
    files : list GeneratedFile;
    summary : jsstring;
    codeError : jsstring }.

Record PRResult : Type := mkPRResult
  { prSuccess : bool;
    prNumber : option N;
    prError : jsstring }.

(** What the collaborators of one node's pipeline answer: the fetch of
    [executeDAG], then the calls of [executeIssue] that can throw or fail,
    and the time that passes between [startTime] and the reading of
    [Date.now()] that closes the run.  [analyzeIssue] is pure,
    [ReviewAgent.review] and [PRAgent.addLabels] catch what their tools
    throw. *)
Record PipelineEnv : Type := mkPipelineEnv
  { fetchIssue : Outcome Issue.t;
    issueAddLabels : Outcome unit;
    generateCode : Outcome CodeGenerationResult;
    writeFiles : Outcome unit;
    reviewEnv : ReviewAgent.Env;
    createPR : Outcome PRResult;
    elapsed : N }.

(** One block of the execution log. *)
Inductive LogStatus : Type :=
  | LogSuccess (qualityScore : Z) (generated : list jsstring)
      (errors warnings info : nat)
  | LogFailed (errorMessage : jsstring).

Record LogEntry : Type := mkLogEntry
  { logNumber : N;
    logTitle : jsstring;
    logDuration : N;
    logStatus : LogStatus }.

(** What the scheduler does, in order: [Launch level batch] is the call
    [Promise.all(batch.map(...))], which starts the pipeline of every node
    of the batch; [Settled node ok] is the end of one pipeline. *)
Inductive Event : Type :=
  | Launch (level : nat) (batch : list DAGNode.t)
  | Settled (node : DAGNode.t) (ok : bool).

(** The clock, the log file of the day and the trace of the scheduler.
    Writing to the log is taken to succeed. *)
Record World : Type := mkWorld
  { now : N;
    executionLog : list LogEntry;
    trace : list Event }.

(** The [try] block of [executeIssue]. *)
Definition tryBlock (dryRun : bool) (env : PipelineEnv)
    : Outcome (CodeGenerationResult * ReviewAgent.ReviewResult) :=
  (* Step 1 *)
  _ ← (if dryRun then Returned () else issueAddLabels env);
  (* Step 2 *)
  codeResult ← generateCode env;
  if negb (success codeResult) then
    Threw (lit "Code generation failed: " ++ codeError codeResult)
  else
  _ ← (if dryRun then Returned () else writeFiles env);
  (* Step 3 *)
  let reviewResult := ReviewAgent.review (reviewEnv env) in
  if negb (ReviewAgent.passed reviewResult) then
    Threw (lit "Code review failed - quality threshold not met")
  else
  (* Step 4 *)
  _ ← (if dryRun then Returned ()
       else prResult ← createPR env;
            if negb (prSuccess prResult) then
              Threw (lit "PR creation failed: " ++ prError prResult)
            else Returned ());
  Returned (codeResult, reviewResult).

Definition appendLog (e : LogEntry) (w : World) : World :=
  mkWorld (now w) (executionLog w ++ [e]) (trace w).

Definition executeIssue (issue : Issue.t) (dryRun : bool)
    (env : PipelineEnv) (w : World) : Outcome unit * World :=
  let startTime := now w in
  let w1 := mkWorld (startTime + elapsed env)%N (executionLog w) (trace w) in
  let duration := (now w1 - startTime)%N in
  match tryBlock dryRun env with
  | Returned (codeResult, reviewResult) =>
      (Returned (),
       appendLog
         (mkLogEntry (Issue.number issue) (Issue.title issue) duration
            (LogSuccess (ReviewAgent.score reviewResult)
               (path <$> files codeResult)
               (ReviewAgent.summaryErrors reviewResult)
               (ReviewAgent.summaryWarnings reviewResult)
               (ReviewAgent.summaryInfo reviewResult))) w1)
  | Threw message =>
      (* catch: the record is written, then the error is thrown again *)
      (Threw message,
       appendLog
         (mkLogEntry (Issue.number issue) (Issue.title issue) duration
            (LogFailed message)) w1)
  end.

(** ** executeDAG *)

(** [Array.prototype.slice(start, end)]. *)
Definition slice {A} (l : list A) (start end_ : Z) : list A :=
  let len := Z.of_nat (length l) in
  let k := (if start <? 0 then Z.max (len + start) 0
            else Z.min start len)%Z in
  let final := (if end_ <? 0 then Z.max (len + end_) 0
                else Z.min end_ len)%Z in
  take (Z.to_nat (final - k)) (drop (Z.to_nat k) l).

(** [for (let i = 0; i < levelNodes.length; i += concurrency)
       batches.push(levelNodes.slice(i, i + concurrency))],
    from the index [i] on, with a bound on the number of turns: [None] when
    the bound is reached. *)
Fixpoint makeBatches {A} (fuel : nat) (levelNodes : list A)
    (concurrency i : Z) : option (list (list A)) :=
  if (i <? Z.of_nat (length levelNodes))%Z then
    match fuel with
    | O => None
    | S fuel' =>
        match makeBatches fuel' levelNodes concurrency (i + concurrency) with
        | Some batches =>
            Some (slice levelNodes i (i + concurrency) :: batches)
        | None => None
        end
    end
  else Some [].

(** The grouping loop: [levels.get(node.level) || []], [push], [set]. *)
Definition groupByLevel (dag : list DAGNode.t)
    : gmap nat (list DAGNode.t) :=
  foldl (λ levels node,
           <[DAGNode.level node :=
               default [] (levels !! DAGNode.level node) ++ [node]]> levels)
        ∅ dag.

(** The values of [level] in [for (level = 0; level <= maxLevel; level++)]
    with [maxLevel = Math.max(...levels.keys())], which is [-Infinity] for
    an empty map. *)
Definition levelRange (levels : gmap nat (list DAGNode.t)) : list nat :=
  match elements (dom levels) with
  | [] => []
  | keys => seq 0 (S (max_list keys))
  end.

(** The pipeline of one node in [executeDAG]: fetch, then [executeIssue]. *)
Definition runNode (env : N → PipelineEnv) (dryRun : bool)
    (node : DAGNode.t) (w : World) : Outcome unit * World :=
  let e := env (DAGNode.number node) in
  let '(r, w1) :=
    match fetchIssue e with
    | Returned issue => executeIssue issue dryRun e w
    | Threw message => (Threw message, w)
    end in
  (r, mkWorld (now w1) (executionLog w1)
        (trace w1 ++ [Settled node (negb (throws r))])).

(** The pipelines of a batch, once launched.  They are interleaved by the
    event loop; they are run here in the order of the array, and the
    rejection that [Promise.all] passes on is the first one in that order. *)
Fixpoint settleAll (env : N → PipelineEnv) (dryRun : bool)
    (batch : list DAGNode.t) (w : World) : Outcome unit * World :=
  match batch with
  | [] => (Returned (), w)
  | node :: batch' =>
      let '(r, w1) := runNode env dryRun node w in
      let '(rs, w2) := settleAll env dryRun batch' w1 in
      (match r with Threw e => Threw e | Returned _ => rs end, w2)
  end.

(** [await Promise.all(batch.map(async (node) => ...))]. *)
Definition runBatch (env : N → PipelineEnv) (dryRun : bool) (level : nat)
    (batch : list DAGNode.t) (w : World) : Outcome unit * World :=
  settleAll env dryRun batch
    (mkWorld (now w) (executionLog w) (trace w ++ [Launch level batch])).

(** [for (const batch of batches) await ...]: a rejection leaves the loop. *)
Fixpoint runBatches (env : N → PipelineEnv) (dryRun : bool) (level : nat)
    (batches : list (list DAGNode.t)) (w : World) : Outcome unit * World :=
  match batches with
  | [] => (Returned (), w)
  | batch :: batches' =>
      match runBatch env dryRun level batch w with
      | (Returned _, w1) => runBatches env dryRun level batches' w1
      | (Threw e, w1) => (Threw e, w1)
      end
  end.

(** The loop over the levels.  [None]: the loop that builds the batches
    does not end (see [makeBatches_diverges]). *)
Fixpoint runLevels (env : N → PipelineEnv) (dryRun : bool)
    (concurrency : Z) (levels : gmap nat (list DAGNode.t))
    (range : list nat) (w : World) : option (Outcome unit * World) :=
  match range with
  | [] => Some (Returned (), w)
  | level :: range' =>
      match default [] (levels !! level) with
      | [] => runLevels env dryRun concurrency levels range' w
      | levelNodes =>
          match makeBatches (length levelNodes) levelNodes concurrency 0 with
          | Some batches =>
              match runBatches env dryRun level batches w with
              | (Returned _, w1) =>
                  runLevels env dryRun concurrency levels range' w1
              | (Threw e, w1) => Some (Threw e, w1)
              end
          | None => None
          end
      end
  end.

Definition executeDAG (dag : list DAGNode.t) (concurrency : Z)
    (dryRun : bool) (env : N → PipelineEnv) (w : World)
    : option (Outcome unit * World) :=
  let levels := groupByLevel dag in
  runLevels env dryRun concurrency levels (levelRange levels) w.

(** The result of the pipeline of a node, which does not depend on the
    world it runs in. *)
Definition pipeline (env : N → PipelineEnv) (dryRun : bool)
    (node : DAGNode.t) : Outcome unit :=
  let e := env (DAGNode.number node) in
  _ ← fetchIssue e; _ ← tryBlock dryRun e; Returned ().

(** The launches of a trace, in order. *)
Definition launches (tr : list Event) : list (nat * list DAGNode.t) :=
  omap (λ ev, match ev with
              | Launch l b => Some (l, b)
              | Settled _ _ => None
              end) tr.

(** The number of pipelines that have begun and not ended. *)
Definition inFlight (tr : list Event) : Z :=
  foldl (λ (n : Z) ev, match ev with
                       | Launch _ b => n + Z.of_nat (length b)
                       | Settled _ _ => n - 1
                       end)%Z 0%Z tr.

(** The chunks of one level among the launches. *)
Definition chunksAt (l : nat) (ls : list (nat * list DAGNode.t))
    : list (list DAGNode.t) :=
  snd <$> filter (λ lb : nat * list DAGNode.t, fst lb = l) ls.



(** The stages of the pipeline of a node that can throw, each one when
    the stages before it have let the run through, with the message that
    is thrown. *)
Inductive stageThrows (dryRun : bool) (env : PipelineEnv)
    : jsstring → Prop :=
| classify_throws m :
    dryRun = false → issueAddLabels env = Threw m →
    stageThrows dryRun env m
| generate_throws m :
    (dryRun = true ∨ issueAddLabels env = Returned ()) →
    generateCode env = Threw m →
    stageThrows dryRun env m
| generate_fails r :
    (dryRun = true ∨ issueAddLabels env = Returned ()) →
    generateCode env = Returned r → success r = false →
    stageThrows dryRun env (lit "Code generation failed: " ++ codeError r)
| write_throws r m :
    dryRun = false → issueAddLabels env = Returned () →
    generateCode env = Returned r → success r = true →
    writeFiles env = Threw m →
    stageThrows dryRun env m
| review_fails r :
    (dryRun = true ∨
     issueAddLabels env = Returned () ∧ writeFiles env = Returned ()) →
    generateCode env = Returned r → success r = true →
    ReviewAgent.passed (ReviewAgent.review (reviewEnv env)) = false →
    stageThrows dryRun env
      (lit "Code review failed - quality threshold not met")
| publish_throws r m :
    dryRun = false → issueAddLabels env = Returned () →
    generateCode env = Returned r → success r = true →
    writeFiles env = Returned () →
    ReviewAgent.passed (ReviewAgent.review (reviewEnv env)) = true →
    createPR env = Threw m →
    stageThrows dryRun env m
| publish_fails r pr :
    dryRun = false → issueAddLabels env = Returned () →
    generateCode env = Returned r → success r = true →
    writeFiles env = Returned () →
    ReviewAgent.passed (ReviewAgent.review (reviewEnv env)) = true →
    createPR env = Returned pr → prSuccess pr = false →
    stageThrows dryRun env (lit "PR creation failed: " ++ prError pr).

(** The batches that [executeDAG] goes through when nothing fails, each
    with its level: the plan of the run. *)
Fixpoint scheduleLevels (concurrency : Z)
    (levels : gmap nat (list DAGNode.t)) (range : list nat)
    : option (list (nat * list DAGNode.t)) :=
match range with
| [] => Some []
| level :: range' =>
    match default [] (levels !! level) with
    | [] => scheduleLevels concurrency levels range'
    | levelNodes =>
        match makeBatches (length levelNodes) levelNodes concurrency 0 with
        | Some batches =>
            match scheduleLevels concurrency levels range' with
            | Some rest => Some ((pair level <$> batches) ++ rest)
            | None => None
            end
        | None => None
        end
    end
end.

Definition schedule (dag : list DAGNode.t) (concurrency : Z)
    : option (list (nat * list DAGNode.t)) :=
let levels := groupByLevel dag in
scheduleLevels concurrency levels (levelRange levels).

(** Whether the pipeline of some node of a batch throws. *)
Definition batchFails (env : N → PipelineEnv) (dryRun : bool)
    (lb : nat * list DAGNode.t) : bool :=
existsb (λ n, throws (pipeline env dryRun n)) (snd lb).

(** The batches of a plan up to the first one that fails, with it. *)
Fixpoint launched (env : N → PipelineEnv) (dryRun : bool)
    (plan : list (nat * list DAGNode.t)) : list (nat * list DAGNode.t) :=
match plan with
| [] => []
| lb :: plan' =>
    if batchFails env dryRun lb then [lb]
    else lb :: launched env dryRun plan'
end.

(** The events of one batch. *)
Definition batchEvents (env : N → PipelineEnv) (dryRun : bool)
    (lb : nat * list DAGNode.t) : list Event :=
Launch (fst lb) (snd lb)
  :: ((λ n, Settled n (negb (throws (pipeline env dryRun n)))) <$> snd lb).

(** Worlds and inputs for the examples. *)
Definition okEnv (n : N) : PipelineEnv :=
mkPipelineEnv (Returned (simpleIssue n "")) (Returned ())
  (Returned (mkCodeResult true [] [] [])) (Returned ())
  (ReviewAgent.mkEnv None None [] [])
  (Returned (mkPRResult true (Some 1%N) [])) 5.

(** The generation service answers [success: false] for the issue [bad]. *)
Definition failEnv (bad : N) (n : N) : PipelineEnv :=
if (n =? bad)%N then
  mkPipelineEnv (Returned (simpleIssue n "")) (Returned ())
    (Returned (mkCodeResult false [] [] (lit "boom"))) (Returned ())
    (ReviewAgent.mkEnv None None [] [])
    (Returned (mkPRResult true (Some 1%N) [])) 7
else okEnv n.

Definition world0 : World := mkWorld 1000 [] [].

(** Three independent tasks, and a fourth one at level 1. *)
Definition nodeC : DAGNode.t := DAGNode.mk "issue-1" 1 (lit "C") [] 0.
Definition nodeD : DAGNode.t := DAGNode.mk "issue-2" 2 (lit "D") [] 0.
Definition nodeE : DAGNode.t := DAGNode.mk "issue-3" 3 (lit "E") [] 0.
Definition nodeF : DAGNode.t :=
  DAGNode.mk "issue-4" 4 (lit "F") ["issue-1"] 1.

(** ** The calls of executeIssue to the outside *)

(** The calls that the [try] block of [executeIssue] makes to its
    collaborators. *)
Inductive Call : Type :=
  | CallAddLabels
  | CallGenerateCode
  | CallWriteFiles
  | CallReview
  | CallCreatePR
  | CallLabelPR (prNumber : N).

#[global] Instance Call_eq_dec : EqDecision Call.
Proof. solve_decision. Defined.

(** The calls made by the [try] block, in order, up to the statement that
    throws.  [if (prResult.prNumber)] holds for a number that is neither
    missing nor 0. *)
Definition tryBlockCalls (dryRun : bool) (env : PipelineEnv) : list Call :=
  (* Step 1 *)
  let c1 := if dryRun then [] else [CallAddLabels] in
  match (if dryRun then Returned () else issueAddLabels env) with
  | Threw _ => c1
  | Returned _ =>
  (* Step 2 *)
  let c2 := c1 ++ [CallGenerateCode] in
  match generateCode env with
  | Threw _ => c2
  | Returned codeResult =>
  if negb (success codeResult) then c2 else
  let c3 := c2 ++ (if dryRun then [] else [CallWriteFiles]) in
  match (if dryRun then Returned () else writeFiles env) with
  | Threw _ => c3
  | Returned _ =>
  (* Step 3 *)
  let c4 := c3 ++ [CallReview] in
  if negb (ReviewAgent.passed (ReviewAgent.review (reviewEnv env)))
  then c4 else
  (* Step 4 *)
  if dryRun then c4 else
  let c5 := c4 ++ [CallCreatePR] in
  match createPR env with
  | Threw _ => c5
  | Returned prResult =>
  if negb (prSuccess prResult) then c5 else
  match prNumber prResult with
  | Some n => if (n =? 0)%N then c5 else c5 ++ [CallLabelPR n]
  | None => c5
  end
  end
  end
  end
  end.

(** Whether the fetch of the issue of a node succeeds. *)
Definition fetched (env : N → PipelineEnv) (node : DAGNode.t) : bool :=
  negb (throws (fetchIssue (env (DAGNode.number node)))).

(** The generation service answers for the example below; the review
    fails on seven compiler errors. *)
Definition reviewFailEnv (n : N) : PipelineEnv :=
  mkPipelineEnv (Returned (simpleIssue n "")) (Returned ())
    (Returned (mkCodeResult true [] [] [])) (Returned ())
    (ReviewAgent.reviewEnvOf 7 0)
    (Returned (mkPRResult true (Some 1%N) [])) 5.

(** ** IssueAgent.analyzeIssue *)

Module IssueAgent.

(** [String.prototype.startsWith] and [includes] on code units. *)
Fixpoint startsWith (s pat : jsstring) : bool :=
  match pat with
  | [] => true
  | p :: pat' =>
      match s with
      | c :: s' => (c =? p)%N && startsWith s' pat'
      | [] => false
      end
  end.

Fixpoint includes (s pat : jsstring) : bool :=
  startsWith s pat
  || match s with
     | [] => false
     | _ :: s' => includes s' pat
     end.

(** [private labelRules]: the categories in the order of the object
    literal, each with its labels and their keywords.  A label is kept
    as the UTF-8 text of the source. *)
Definition labelRules : list (string * list (string * list jsstring)) :=
[
  ("type",
   [
      ("✨ type:feature",
       [lit "feature"; lit "new"; lit "add"; lit "implement"]);
      ("🐛 type:bug", [lit "bug"; lit "fix"; lit "error"; lit "issue"]);
      ("📚 type:docs", [lit "docs"; lit "document"; lit "readme"]);
      ("🧪 type:test", [lit "test"; lit "testing"; lit "spec"]);
      ("♻️ type:refactor", [lit "refactor"; lit "cleanup"; lit "improve"]);
      ("🎨 type:style", [lit "style"; lit "format"; lit "ui"; lit "design"]);
      ("⚡ type:perf", [lit "perf"; lit "performance"; lit "optimize"]);
      ("🔧 type:chore", [lit "chore"; lit "maintenance"])
   ]);
  ("priority",
   [
      ("📊 priority:P0-Critical",
       [lit "critical"; lit "urgent"; lit "blocker"; lit "blocking"]);
      ("⚠️ priority:P1-High", [lit "high"; lit "important"]);
      ("📊 priority:P2-Medium", [lit "medium"]);
      ("📉 priority:P3-Low", [lit "low"; lit "minor"]);
      ("💡 priority:P4-Trivial", [lit "trivial"; lit "nice to have"])
   ]);
  ("state",
   [
      ("📥 state:pending", [lit "pending"; lit "new"]);
      ("🚧 state:in-progress", [lit "in progress"; lit "wip"]);
      ("✅ state:completed", [lit "completed"; lit "done"]);
      ("❌ state:blocked", [lit "blocked"])
   ]);
  ("phase",
   [
      ("🎯 phase:planning", [lit "planning"; lit "design"]);
      ("🎯 phase:development", [lit "development"; lit "coding"]);
      ("🎯 phase:review", [lit "review"; lit "testing"]);
      ("🎯 phase:deployment", [lit "deployment"; lit "deploy"])
   ]);
  ("agent",
   [
      ("🤖 agent:codegen", [lit "codegen"; lit "code generation"]);
      ("🤖 agent:review", [lit "review"; lit "quality"]);
      ("🤖 agent:pr", [lit "pr"; lit "pull request"]);
      ("🤖 agent:deploy", [lit "deploy"; lit "deployment"])
   ]);
  ("special",
   [
      ("🔒 special:security",
       [lit "security"; lit "vulnerability"; lit "rls"]);
      ("🎉 enhancement", [lit "enhancement"; lit "improvement"]);
      ("❓ question", [lit "question"; lit "help"]);
      ("💾 database", [lit "database"; lit "sql"; lit "schema"]);
      ("🔌 api", [lit "api"; lit "endpoint"]);
      ("🎨 design", [lit "design"; lit "ui"; lit "ux"])
   ])
].

(** A [Set<string>] as the array [Array.from] gives: insertion order,
    no value twice. *)
Definition Set_add (s : list string) (x : string) : list string :=
  if decide (x ∈ s) then s else s ++ [x].

(** [Math.min] of two finite numbers. *)
Definition Math_min (a b : float) : float :=
  if (b <? a)%float then b else a.

(** [interface LabelAnalysisResult]. *)
Record LabelAnalysisResult : Type := mkAnalysis
  { recommendedLabels : list string;
    confidence : float;
    reasoning : string }.

Section Analyze.

(** [String.prototype.toLowerCase], a function of the platform. *)
Variable toLowerCase : jsstring → jsstring.

(** The loop over the keywords of one label, left at the first one that
    the text includes. *)
Definition keywordHit (text : jsstring) (keywords : list jsstring) : bool :=
  existsb (λ keyword, includes text (toLowerCase keyword)) keywords.

(** The loop over the labels of one category, on [recommendedLabels],
    [totalMatches] and [categoryMatched]. *)
Definition scanLabels (text : jsstring)
    (labels : list (string * list jsstring))
    (st : list string * nat * bool) : list string * nat * bool :=
  foldl (λ '(recommended, totalMatches, categoryMatched) '(label, keywords),
           if keywordHit text keywords
           then (Set_add recommended label, S totalMatches, true)
           else (recommended, totalMatches, categoryMatched))
    st labels.

(** The loop over the categories, on [recommendedLabels], [totalMatches]
    and [categoryMatches]. *)
Definition scanRulesFrom (text : jsstring)
    (st : list string * nat * nat)
    (rules : list (string * list (string * list jsstring)))
    : list string * nat * nat :=
  foldl (λ '(recommended, totalMatches, categoryMatches) '(_, labels),
           let '(recommended', totalMatches', categoryMatched) :=
             scanLabels text labels (recommended, totalMatches, false) in
           (recommended', totalMatches',
            if categoryMatched then S categoryMatches else categoryMatches))
    st rules.

Definition scanRules (text : jsstring) : list string * nat * nat :=
  scanRulesFrom text ([], 0, 0) labelRules.

(** [if (!Array.from(recommendedLabels).some((l) => l.startsWith(p)))
       recommendedLabels.add(label)]. *)
Definition addDefault (p label : string) (recommended : list string)
    : list string :=
  if existsb (String.prefix p) recommended then recommended
  else Set_add recommended label.

(** The text that is searched. *)
Definition textOf (issue : Issue.t) : jsstring :=
  toLowerCase (Issue.title issue ++ lit " " ++ Issue.body issue).

(** [Math.min(1, (totalMatches + categoryMatches) / 10)]. *)
Definition confidenceOf (totalMatches categoryMatches : nat) : float :=
  Math_min 1 (toNumber (Z.of_nat (totalMatches + categoryMatches)) / 10).

Definition analyzeIssue (issue : Issue.t) : LabelAnalysisResult :=
  let text := textOf issue in
  let '(r0, totalMatches, categoryMatches) := scanRules text in
  let r1 := addDefault "📊 priority:" "📊 priority:P2-Medium" r0 in
  let r2 := addDefault "📥 state:" "📥 state:pending" r1 in
  let r3 := addDefault "🎯 phase:" "🎯 phase:planning" r2 in
  let r4 :=
    if includes text (lit "implement") || includes text (lit "create")
       || includes text (lit "add")
    then Set_add r3 "🤖 agent:codegen" else r3 in
  mkAnalysis r4 (confidenceOf totalMatches categoryMatches)
    ("Matched " +:+ pretty totalMatches +:+ " keywords across "
     +:+ pretty categoryMatches +:+ " categories").

(** The labels with their keywords, all categories together, and
    whether a keyword of an entry occurs in the text. *)
Definition allRules : list (string * list jsstring) :=
  concat (snd <$> labelRules).

Definition labelHit (text : jsstring) (r : string * list jsstring) : bool :=
  keywordHit text (snd r).

(** Whether a keyword of the label of that name occurs in the text. *)
Definition labelMatched (text : jsstring) (label : string) : bool :=
  existsb (λ r, String.eqb (fst r) label && labelHit text r) allRules.

End Analyze.

(** [toLowerCase] on a text of ASCII characters. *)
Definition asciiLower (s : jsstring) : jsstring :=
  (λ c, if ((65 <=? c) && (c <=? 90))%N then (c + 32)%N else c) <$> s.

End IssueAgent.

(** ** load-knowledge: extractKnowledgeFromYAML *)

Module Knowledge.

(** What [YAML.parse] returns: null, a boolean, a number, a string, an
    array, or an object with its own properties in the order of
    [Object.keys]. *)
#[local] Set Warnings "-register-all".
Inductive Value : Type :=
  | VNull
  | VBool (b : bool)
  | VNum (x : float)
  | VStr (s : jsstring)
  | VArr (items : list Value)
  | VObj (props : list (jsstring * Value)).

(** [typeof v === "object"]: null, arrays and objects. *)
Definition isObjectType (v : Value) : bool :=
  match v with
  | VNull | VArr _ | VObj _ => true
  | _ => false
  end.

(** ToBoolean; [None] is [undefined]. *)
Definition truthy (v : option Value) : bool :=
  match v with
  | None | Some VNull => false
  | Some (VBool b) => b
  | Some (VNum x) => negb (x =? 0)%float && (x =? x)%float
  | Some (VStr s) => negb (bool_decide (s = []))
  | Some (VArr _) | Some (VObj _) => true
  end.

(** The own property [key] of an object. *)
Fixpoint getProp (key : jsstring) (props : list (jsstring * Value))
    : option Value :=
  match props with
  | [] => None
  | (k, v) :: props' =>
      if bool_decide (k = key) then Some v else getProp key props'
  end.

(** The key [解説], as code units. *)
Definition kaisetsu : jsstring := [35299; 35500]%N.

(** [x.type === "knowledge" || x.summary || x.key_points || x.解説] on
    the properties of an object. *)
Definition knowledgeTest (props : list (jsstring * Value)) : bool :=
  match getProp (lit "type") props with
  | Some (VStr s) => bool_decide (s = lit "knowledge")
  | _ => false
  end
  || truthy (getProp (lit "summary") props)
  || truthy (getProp (lit "key_points") props)
  || truthy (getProp kaisetsu props).

(** The same test on an item of an array: reading a property of null
    throws a TypeError; a boolean, number, string or array has none of the
    four properties. *)
Definition itemTest (item : Value) : Outcome bool :=
  match item with
  | VNull => Threw (lit "TypeError")
  | VObj props => Returned (knowledgeTest props)
  | _ => Returned false
  end.

(** The loop over the items of an array. *)
Fixpoint extractItems (items : list Value) : Outcome (list Value) :=
  match items with
  | [] => Returned []
  | item :: items' =>
      match itemTest item with
      | Threw m => Threw m
      | Returned keep =>
          match extractItems items' with
          | Threw m => Threw m
          | Returned entries =>
              Returned (if keep then item :: entries else entries)
          end
      end
  end.

Fixpoint extractKnowledgeFromYAML (content : Value)
    : Outcome (list Value) :=
  match content with
  | VArr items => extractItems items
  | VNull => Threw (lit "TypeError")
  | VObj props =>
      let own := if knowledgeTest props then [content] else [] in
      match
        (fix children (ps : list (jsstring * Value))
             : Outcome (list Value) :=
           match ps with
           | [] => Returned []
           | (_, v) :: ps' =>
               if isObjectType v then
                 match extractKnowledgeFromYAML v with
                 | Threw m => Threw m
                 | Returned entries =>
                     match children ps' with
                     | Threw m => Threw m
                     | Returned rest => Returned (entries ++ rest)
                     end
                 end
               else children ps'
           end) props
      with
      | Threw m => Threw m
      | Returned nested => Returned (own ++ nested)
      end
  | _ => Returned []
  end.

(** The loop over the keys of an object, as a function of its own. *)
Fixpoint extractChildren (ps : list (jsstring * Value))
    : Outcome (list Value) :=
  match ps with
  | [] => Returned []
  | (_, v) :: ps' =>
      if isObjectType v then
        match extractKnowledgeFromYAML v with
        | Threw m => Threw m
        | Returned entries =>
            match extractChildren ps' with
            | Threw m => Threw m
            | Returned rest => Returned (entries ++ rest)
            end
        end
      else extractChildren ps'
  end.

(** Whether a null is met: at the top, as an item of an array that is
    searched, or under a key of an object that is searched. *)
Fixpoint meetsNull (content : Value) : bool :=
  match content with
  | VNull => true
  | VArr items =>
      existsb (λ item, match item with VNull => true | _ => false end) items
  | VObj props =>
      (fix children (ps : list (jsstring * Value)) : bool :=
         match ps with
         | [] => false
         | (_, v) :: ps' => meetsNull v || children ps'
         end) props
  | _ => false
  end.

(** Whether a value is pushed as an entry when it is tested: an object
    that passes the test. *)
Definition isEntry (v : Value) : bool :=
  match v with
  | VObj props => knowledgeTest props
  | _ => false
  end.

(** Where the function looks: an entry is found in an array among its
    items, in an object as the object itself, and below its keys whose
    value has the type "object". *)
Inductive foundIn : Value → Value → Prop :=
  | found_item items e :
      e ∈ items → isEntry e = true → foundIn (VArr items) e
  | found_self props :
      knowledgeTest props = true → foundIn (VObj props) (VObj props)
  | found_child props k v e :
      (k, v) ∈ props → isObjectType v = true → foundIn v e →
      foundIn (VObj props) e.

(** Values for the examples: two entries, the second with an entry
    nested in it. *)
Definition entryA : Value :=
  VObj [(lit "type", VStr (lit "knowledge"));
        (lit "category", VStr (lit "strategy"))].

Definition entryB : Value :=
  VObj [(lit "summary", VStr (lit "basics"));
        (lit "nested", VObj [(lit "summary", VStr (lit "inner"))])].

End Knowledge.

(** ** PRAgent.createPR *)

Module PRAgent.

(** What the commands of [createPR] and the call to the API answer:
    [git checkout], [git checkout -b], [git add], [git commit],
    [git push origin], [git push -u origin] and [octokit.pulls.create]
    (the number and the address of the pull request). *)
Record GitEnv : Type := mkGitEnv
  { checkout : Outcome unit;
    checkoutNew : Outcome unit;
    add : Outcome unit;
    commitCmd : Outcome unit;
    pushCmd : Outcome unit;
    pushUpstream : Outcome unit;
    pullsCreate : Outcome (N * jsstring) }.

(** [interface PRResult], with its optional fields. *)
Record Result : Type := mkResult
  { success : bool;
    number : option N;
    url : option jsstring;
    error : option jsstring }.

Definition createBranch (env : GitEnv) : bool :=
  match checkout env with
  | Returned _ => true
  | Threw _ =>
      match checkoutNew env with
      | Returned _ => true
      | Threw _ => false
      end
  end.

Definition stageFiles (env : GitEnv) : Outcome unit :=
  match add env with
  | Returned _ => Returned ()
  | Threw m => Threw (lit "Failed to stage files: " ++ m)
  end.

Definition commit (env : GitEnv) : Outcome unit :=
  match commitCmd env with
  | Returned _ => Returned ()
  | Threw m =>
      if IssueAgent.includes m (lit "nothing to commit") then Returned ()
      else Threw (lit "Failed to commit: " ++ m)
  end.

Definition push (env : GitEnv) : Outcome unit :=
  match pushCmd env with
  | Returned _ => Returned ()
  | Threw _ =>
      match pushUpstream env with
      | Returned _ => Returned ()
      | Threw m => Threw (lit "Failed to push: " ++ m)
      end
  end.

(** The [try] block of [createPR]. *)
Definition attempt (env : GitEnv) : Outcome (N * jsstring) :=
  if negb (createBranch env)
  then Threw (lit "Failed to create or checkout branch")
  else
    _ ← stageFiles env;
    _ ← commit env;
    _ ← push env;
    pullsCreate env.

Definition createPR (env : GitEnv) : Result :=
  match attempt env with
  | Returned (prNumber, prUrl) =>
      mkResult true (Some prNumber) (Some prUrl) None
  | Threw message => mkResult false None None (Some message)
  end.

(** The step of [createPR] that fails, the steps before it having
    succeeded, with the message that is reported. *)
Inductive failsWith (env : GitEnv) : jsstring → Prop :=
  | branch_fails m1 m2 :
      checkout env = Threw m1 → checkoutNew env = Threw m2 →
      failsWith env (lit "Failed to create or checkout branch")
  | stage_fails m :
      createBranch env = true → add env = Threw m →
      failsWith env (lit "Failed to stage files: " ++ m)
  | commit_fails m :
      createBranch env = true → add env = Returned () →
      commitCmd env = Threw m →
      IssueAgent.includes m (lit "nothing to commit") = false →
      failsWith env (lit "Failed to commit: " ++ m)
  | push_fails m1 m2 :
      createBranch env = true → add env = Returned () →
      commit env = Returned () →
      pushCmd env = Threw m1 → pushUpstream env = Threw m2 →
      failsWith env (lit "Failed to push: " ++ m2)
  | api_fails m :
      createBranch env = true → add env = Returned () →
      commit env = Returned () → push env = Returned () →
      pullsCreate env = Threw m →
      failsWith env m.

(** The result as [executeIssue] reads it: the text that the template
    [`${prResult.error}`] gives. *)
Definition toPRResult (r : Result) : PRResult :=
  mkPRResult (success r) (number r) (default (lit "undefined") (error r)).

(** A repository whose remote refuses both pushes. *)
Definition pushRefused : GitEnv :=
  mkGitEnv (Threw (lit "no branch")) (Returned ()) (Returned ())
    (Threw (lit "nothing to commit, working tree clean"))
    (Threw (lit "rejected")) (Threw (lit "denied"))
    (Returned (7%N, lit "https://example.test/pull/7")).

(** The pipeline of an issue whose pull request is made there. *)
Definition pushRefusedEnv : PipelineEnv :=
  mkPipelineEnv (Returned (simpleIssue 1 "")) (Returned ())
    (Returned (mkCodeResult true [] [] [])) (Returned ())
    (ReviewAgent.mkEnv None None [] [])
    (Returned (toPRResult (createPR pushRefused))) 5.

End PRAgent.

(** ** CodeGenAgent: the choice of the generator *)

Module CodeGenAgent.

(** The fields of the agent: whether a client of the API was made
    ([anthropic] is not null), [enabled] and [useTaskTool]. *)
Record t : Type := mk
  { anthropic : bool;
    enabled : bool;
    useTaskTool : bool }.

(** [constructor(apiKey?, useTaskTool = true)], with the value of
    [process.env.USE_TASK_TOOL].  A key is truthy when it is given and not
    empty. *)
Definition constructor (apiKey : option jsstring)
    (useTaskToolArg : option bool) (USE_TASK_TOOL : option jsstring) : t :=
  let useTaskTool :=
    default true useTaskToolArg
    || bool_decide (USE_TASK_TOOL = Some (lit "true")) in
  let hasKey :=
    match apiKey with
    | Some (_ :: _) => true
    | _ => false
    end in
  mk (hasKey && negb useTaskTool) (hasKey || useTaskTool) useTaskTool.

(** What [requestTaskFromClaudeCode] answers. *)
Record TaskResult : Type := mkTaskResult
  { taskSuccess : bool;
    taskFiles : list GeneratedFile;
    taskMessage : jsstring }.

(** [interface CodeGenerationResult], with its optional field. *)
Record Result : Type := mkResult
  { success : bool;
    files : list GeneratedFile;
    summary : jsstring;
    error : option jsstring }.

(** [generateWithTaskTool]: no error is caught and no [error] is set. *)
Definition generateWithTaskTool (task : Outcome TaskResult)
    : Outcome Result :=
  taskResult ← task;
  Returned (mkResult (taskSuccess taskResult) (taskFiles taskResult)
              (taskMessage taskResult) None).

(** [generateCode].  [task] is the answer of the Task tool, [mock] the
    result of [generateMockCode], [api] the files extracted from the answer
    of the API or the error of the call. *)
Definition generateCode (agent : t) (task : Outcome TaskResult)
    (mock : Result) (api : Outcome (list GeneratedFile))
    : Outcome Result :=
  if useTaskTool agent then generateWithTaskTool task
  else if negb (enabled agent) || negb (anthropic agent) then Returned mock
  else
    match api with
    | Returned files =>
        Returned (mkResult true files
                    (lit "Generated " ++ lit (pretty (length files))
                     ++ lit " file(s) using Claude Sonnet 4") None)
    | Threw message =>
        Returned (mkResult false [] (lit "Code generation failed")
                    (Some message))
    end.

(** The result as [executeIssue] reads it: the text that the template
    [`${codeResult.error}`] gives. *)
Definition toCodeResult (r : Result) : CodeGenerationResult :=
  mkCodeResult (success r) (files r) (summary r)
    (default (lit "undefined") (error r)).

(** The agent of [executeIssue]: [new CodeGenAgent(config.anthropicApiKey)],
    and its call [await codeGen.generateCode(...)] as [executeIssue] reads
    the result. *)
Definition executorAgent (apiKey USE_TASK_TOOL : option jsstring) : t :=
  constructor apiKey None USE_TASK_TOOL.

Definition executorGenerateCode (apiKey USE_TASK_TOOL : option jsstring)
    (task : Outcome TaskResult) (mock : Result)
    (api : Outcome (list GeneratedFile))
    : Outcome CodeGenerationResult :=
  match generateCode (executorAgent apiKey USE_TASK_TOOL) task mock api with
  | Returned r => Returned (toCodeResult r)
  | Threw m => Threw m
  end.

End CodeGenAgent.

(** The bound that [calculateLevel] keeps on every graph: inside [k]
    nested calls on nodes, a level and [k] together do not exceed the
    number of entries of [ids] that are visited. *)
Definition levelsBounded (ids : list string) (k : nat) (st : LevelState)
    : Prop :=
  k + unvisited ids (visited st) ≤ length ids ∧
  ∀ n, n ∈ nodes st →
       DAGNode.level n + k + unvisited ids (visited st) ≤ length ids.


(** ** IssueAgent: the operations on GitHub *)

Module IssueAgentApi.

(** An error thrown by the Octokit client, with the two fields that are
    read. *)
Record ApiError : Type := mkApiError
  { status : option N; message : jsstring }.

(** A label of an issue as [issues.get] returns it: a string, or an
    object whose [name] may be missing. *)
Inductive ApiLabel : Type :=
  | LabelString (s : string)
  | LabelObject (name : option string).

(** The requests to the REST API, with the parameters that vary ([owner]
    and [repo] are the two parts of [repository] in all of them). *)
Inductive Request : Type :=
  | IssuesAddLabels (issue_number : N) (labels : list string)
  | IssuesRemoveLabel (issue_number : N) (name : string)
  | IssuesGet (issue_number : N)
  | IssuesGetLabel (name : string)
  | IssuesCreateLabel (name color description : string).

(** What is read of an answer: the labels of the issue, or the error. *)
Inductive Response : Type :=
  | Success (labels : list ApiLabel)
  | Failure (e : ApiError).

(** The lines written on the console, by the call that writes them. *)
Inductive Line : Type :=
  | LogAddedLabels (issueNumber : N) (labels : list string)
  | ErrFailedToAddLabels (message : jsstring)
  | LogRemovedLabel (labelName : string)
  | ErrFailedToRemoveLabel (message : jsstring)
  | LogUpdatedLabels (issueNumber : N)
  | ErrFailedToUpdateLabels (message : jsstring)
  | LogEnsuring (size : nat)
  | LogLabelExists (labelName : string)
  | LogCreatedLabel (labelName : string)
  | ErrFailedToCreateLabel (labelName : string) (message : jsstring)
  | LogSetupCompleted.

(** The requests sent so far and the console. *)
Record Session : Type := mkSession
  { sent : list Request; console : list Line }.

(** How a promise of [void] settles. *)
Inductive Settled : Type :=
  | Resolved
  | Rejected (e : ApiError).

(** [private getLabelColor]. *)
Definition getLabelColor (labelName : string) : string :=
  if String.prefix "✨ type:" labelName then "1d76db"
  else if String.prefix "🐛 type:" labelName then "d73a4a"
  else if String.prefix "📚 type:" labelName then "0075ca"
  else if String.prefix "🧪 type:" labelName then "d876e3"
  else if String.prefix "📊 priority:P0" labelName then "b60205"
  else if String.prefix "⚠️ priority:P1" labelName then "d93f0b"
  else if String.prefix "📊 priority:P2" labelName then "fbca04"
  else if String.prefix "📥 state:" labelName then "0e8a16"
  else if String.prefix "🎯 phase:" labelName then "1d76db"
  else if String.prefix "🤖 agent:" labelName then "5319e7"
  else if String.prefix "🔒 special:security" labelName then "b60205"
  else "ededed".

(** [private getLabelDescription]: the table [descriptions] and
    [descriptions[labelName] || ""].  It is called on the labels of
    [labelRules] only, none of which names a property that an object
    inherits. *)
Definition descriptions : gmap string string :=
  list_to_map
      [("✨ type:feature", "New feature or enhancement");
       ("🐛 type:bug", "Bug fix");
       ("📚 type:docs", "Documentation");
       ("🧪 type:test", "Testing");
       ("📊 priority:P0-Critical", "Critical priority");
       ("⚠️ priority:P1-High", "High priority");
       ("📊 priority:P2-Medium", "Medium priority");
       ("📥 state:pending", "Pending");
       ("🎯 phase:planning", "Planning phase");
       ("🎯 phase:development", "Development phase");
       ("🤖 agent:codegen", "Code generation agent");
       ("🔒 special:security", "Security-related")].

Definition getLabelDescription (labelName : string) : string :=
  default "" (descriptions !! labelName).

(** [allLabels] of [ensureLabelsExist]: the keys of all categories added
    to a Set. *)
Definition allLabels : list string :=
  foldl (λ acc labels, foldl IssueAgent.Set_add acc (fst <$> labels)) []
    (snd <$> IssueAgent.labelRules).

(** [typeof l === "string" ? l : l.name || ""]. *)
Definition labelName (l : ApiLabel) : string :=
  match l with
  | LabelString s => s
  | LabelObject (Some n) => n
  | LabelObject None => ""
  end.

Definition isGetLabel (r : Request) : bool :=
  match r with IssuesGetLabel _ => true | _ => false end.

Section Client.

(** The server: its answer to a request, given the requests sent before
    it. *)
Variable answer : list Request → Request → Response.

Definition request (r : Request) (s : Session) : Response * Session :=
  (answer (sent s) r, mkSession (sent s ++ [r]) (console s)).

Definition say (l : Line) (s : Session) : Session :=
  mkSession (sent s) (console s ++ [l]).

Definition addLabels (issueNumber : N) (labels : list string)
    (s : Session) : Settled * Session :=
  let '(a, s1) := request (IssuesAddLabels issueNumber labels) s in
  match a with
  | Success _ => (Resolved, say (LogAddedLabels issueNumber labels) s1)
  | Failure e => (Rejected e, say (ErrFailedToAddLabels (message e)) s1)
  end.

(** The [catch] of [removeLabel] has no [throw]. *)
Definition removeLabel (issueNumber : N) (labelName : string)
    (s : Session) : Session :=
  let '(a, s1) := request (IssuesRemoveLabel issueNumber labelName) s in
  match a with
  | Success _ => say (LogRemovedLabel labelName) s1
  | Failure e =>
      if IssueAgent.includes (message e) (lit "Not Found") then s1
      else say (ErrFailedToRemoveLabel (message e)) s1
  end.

(** The loop [for (const label of existingLabels) if (label) ...]. *)
Definition removeExisting (issueNumber : N) (existingLabels : list string)
    (s : Session) : Session :=
  foldl (λ s label,
           if decide (label = "") then s
           else removeLabel issueNumber label s)
    s existingLabels.

Definition updateLabels (issueNumber : N) (newLabels : list string)
    (s : Session) : Settled * Session :=
  let '(a, s1) := request (IssuesGet issueNumber) s in
  match a with
  | Failure e => (Rejected e, say (ErrFailedToUpdateLabels (message e)) s1)
  | Success labels =>
      let existingLabels := labelName <$> labels in
      let s2 := removeExisting issueNumber existingLabels s1 in
      match addLabels issueNumber newLabels s2 with
      | (Resolved, s3) => (Resolved, say (LogUpdatedLabels issueNumber) s3)
      | (Rejected e, s3) =>
          (Rejected e, say (ErrFailedToUpdateLabels (message e)) s3)
      end
  end.

(** One turn of the loop of [ensureLabelsExist]. *)
Definition ensureLabel (labelName : string) (s : Session) : Session :=
  let '(a, s1) := request (IssuesGetLabel labelName) s in
  match a with
  | Success _ => say (LogLabelExists labelName) s1
  | Failure e =>
      if decide (status e = Some 404%N) then
        let '(a2, s2) :=
          request (IssuesCreateLabel labelName (getLabelColor labelName)
                     (getLabelDescription labelName)) s1 in
        match a2 with
        | Success _ => say (LogCreatedLabel labelName) s2
        | Failure e2 =>
            say (ErrFailedToCreateLabel labelName (message e2)) s2
        end
      else s1
  end.

Definition ensureLabelsFrom (labels : list string) (s : Session) : Session :=
  foldl (λ s labelName, ensureLabel labelName s) s labels.

Definition ensureLabelsExist (s : Session) : Session :=
  let s0 := say (LogEnsuring (length allLabels)) s in
  say LogSetupCompleted (ensureLabelsFrom allLabels s0).

(** What the loop of ensureLabelsExist sends after the requests [h]. *)
Definition ensureTrace (h : list Request) (labels : list string)
    (new : list Request) : Prop :=
  filter isGetLabel new = IssuesGetLabel <$> labels ∧
  (∀ i name c d,
     new !! i = Some (IssuesCreateLabel name c d) →
     ∃ j e, i = S j ∧ new !! j = Some (IssuesGetLabel name) ∧
            answer (h ++ take j new) (IssuesGetLabel name) = Failure e ∧
            status e = Some 404%N ∧
            c = getLabelColor name ∧ d = getLabelDescription name) ∧
  (∀ j name e,
     new !! j = Some (IssuesGetLabel name) →
     answer (h ++ take j new) (IssuesGetLabel name) = Failure e →
     status e = Some 404%N →
     new !! S j = Some (IssuesCreateLabel name (getLabelColor name)
                          (getLabelDescription name))) ∧
  (∀ r, r ∈ new →
        match r with
        | IssuesGetLabel _ | IssuesCreateLabel _ _ _ => True
        | _ => False
        end).

End Client.

End IssueAgentApi.

(** ** CodeGenAgent: the prompt and the files read from the answer *)

Module CodeGenResponse.

Definition nl : jsstring := [10%N].

(** The classes [.] (no [s] flag: every code unit but the line
    terminators), [\w] and [[\s\S]]. *)
Definition is_dot (c : N) : bool :=
  negb (bool_decide (c ∈ [10; 13; 8232; 8233]%N)).

Definition is_word (c : N) : bool :=
  ((65 <=? c) && (c <=? 90) || (97 <=? c) && (c <=? 122)
   || (48 <=? c) && (c <=? 57) || (c =? 95))%N.

Definition is_any (c : N) : bool := true.

(** The matcher of a backtracking regular expression, in the style of the
    language specification: each part of a pattern takes the matcher of
    what follows it, tries its own choices in their order of priority and
    keeps the first one on which the rest succeeds. *)
Section Combinators.

Context {R : Type}.

(** A run of literal characters. *)
Fixpoint lit_then (pat : jsstring) (k : jsstring → option R)
    (s : jsstring) : option R :=
  match pat with
  | [] => k s
  | p :: pat' =>
      match s with
      | c :: s' => if (c =? p)%N then lit_then pat' k s' else None
      | [] => None
      end
  end.

(** [x*] on a class, greedy: one more character first, none last. *)
Fixpoint star_then (p : N → bool) (k : jsstring → option R)
    (s : jsstring) : option R :=
  match s with
  | c :: s' =>
      if p c then
        match star_then p k s' with
        | Some r => Some r
        | None => k s
        end
      else k s
  | [] => k []
  end.

(** [(x+?)] on a class, lazy: after each character the rest is tried
    first, one more character last.  [acc] is what the group holds. *)
Fixpoint lazy_plus_then (p : N → bool) (k : jsstring → jsstring → option R)
    (acc s : jsstring) : option R :=
  match s with
  | c :: s' =>
      if p c then
        match k (acc ++ [c]) s' with
        | Some r => Some r
        | None => lazy_plus_then p k (acc ++ [c]) s'
        end
      else None
  | [] => None
  end.

(** [(x+)] on a class, greedy. *)
Fixpoint plus_then (p : N → bool) (k : jsstring → jsstring → option R)
    (acc s : jsstring) : option R :=
  match s with
  | c :: s' =>
      if p c then
        match plus_then p k (acc ++ [c]) s' with
        | Some r => Some r
        | None => k (acc ++ [c]) s'
        end
      else None
  | [] => None
  end.

(** [(x+)?]: the group first, then without it (the group undefined). *)
Definition opt_plus_then (p : N → bool)
    (k : option jsstring → jsstring → option R) (s : jsstring) : option R :=
  match plus_then p (λ cap, k (Some cap)) [] s with
  | Some r => Some r
  | None => k None s
  end.

End Combinators.

(** A pattern gives its capture groups and the input after the match. *)
Definition Pattern (G : Type) : Type := jsstring → option (G * jsstring).

(** [s.match(re)] without the [g] flag: the groups of the leftmost
    match. *)
Fixpoint exec {G} (m : Pattern G) (s : jsstring) : option G :=
  match m s with
  | Some (g, _) => Some g
  | None =>
      match s with
      | [] => None
      | _ :: s' => exec m s'
      end
  end.

(** [s.match(re)] with the [g] flag: the matched texts from left to
    right, each search starting where the last match ended (one further
    after an empty match); [skip] code units are still to be passed over.
    The empty list stands for [null]. *)
Fixpoint matchAll {G} (m : Pattern G) (skip : nat) (s : jsstring)
    : list jsstring :=
  match skip with
  | S k =>
      match s with
      | [] => []
      | _ :: s' => matchAll m k s'
      end
  | O =>
      match m s with
      | Some (_, rest) =>
          let len := length s - length rest in
          take len s ::
            match s with
            | [] => []
            | _ :: s' => matchAll m (len - 1) s'
            end
      | None =>
          match s with
          | [] => []
          | _ :: s' => matchAll m 0 s'
          end
      end
  end.

(** [/\[FILE:\s*(.+?)\]\s*\[DESCRIPTION:\s*(.+?)\]\s*\[CONTENT\]\s*```[\w]*\n([\s\S]+?)```/]
    at the head of the input. *)
Definition fileBlock : Pattern (jsstring * jsstring * jsstring) :=
  lit_then (lit "[FILE:") (star_then is_space
    (lazy_plus_then is_dot (λ g1,
  lit_then (lit "]") (star_then is_space
    (lit_then (lit "[DESCRIPTION:") (star_then is_space
    (lazy_plus_then is_dot (λ g2,
  lit_then (lit "]") (star_then is_space
    (lit_then (lit "[CONTENT]") (star_then is_space
    (lit_then (lit "```") (star_then is_word
    (lit_then nl
    (lazy_plus_then is_any (λ g3,
  lit_then (lit "```") (λ rest, Some ((g1, g2, g3), rest))) [])))))))) [])))))
    [])).

(** [/```(\w+)?\n([\s\S]+?)```/] at the head of the input. *)
Definition codeBlock : Pattern (option jsstring * jsstring) :=
  lit_then (lit "```") (opt_plus_then is_word (λ g1,
  lit_then nl
    (lazy_plus_then is_any (λ g2,
  lit_then (lit "```") (λ rest, Some ((g1, g2), rest))) []))).

(** [String.prototype.trim]: white space and line terminators, the class
    [\s], are taken off both ends. *)
Fixpoint trimStart (s : jsstring) : jsstring :=
  match s with
  | c :: s' => if is_space c then trimStart s' else s
  | [] => []
  end.

Definition trim (s : jsstring) : jsstring :=
  reverse (trimStart (reverse (trimStart s))).

(** The body of [codeBlocks.forEach((block, index) => ...)]. *)
Definition codeBlockFile (index : nat) (block : jsstring)
    : list GeneratedFile :=
  match exec codeBlock block with
  | Some (g1, g2) =>
      let ext :=
        match g1 with
        | Some (c :: e) => c :: e
        | _ => lit "ts"
        end in
      [mkFile (lit "generated/file-" ++ lit (pretty (index + 1))
               ++ lit "." ++ ext)
         (trim g2)
         (lit "Generated code block " ++ lit (pretty (index + 1)))]
  | None => []
  end.

(** The body of [for (const block of fileBlocks)]. *)
Definition fileBlockFile (block : jsstring) : list GeneratedFile :=
  match exec fileBlock block with
  | Some (g1, g2, g3) => [mkFile (trim g1) (trim g3) (trim g2)]
  | None => []
  end.

(** [private extractFilesFromResponse]. *)
Definition extractFilesFromResponse (response : jsstring)
    : list GeneratedFile :=
  match matchAll fileBlock 0 response with
  | [] => concat (imap codeBlockFile (matchAll codeBlock 0 response))
  | fileBlocks => concat (fileBlockFile <$> fileBlocks)
  end.

(** The format that the prompt shows for one file, with a path, a
    description and the code in the three places. *)
Definition promptFormat (filePath description code : jsstring) : jsstring :=
  lit "```filepath" ++ nl ++
  lit "[FILE: " ++ filePath ++ lit "]" ++ nl ++
  lit "[DESCRIPTION: " ++ description ++ lit "]" ++ nl ++
  lit "[CONTENT]" ++ nl ++
  code ++ nl ++
  lit "```".

(** [private buildPrompt]: the text before the format shown for a file,
    the format, and the text after it. *)
Definition promptHead (repository : jsstring) (issueNumber : N)
    (issueTitle issueBody : jsstring) : jsstring :=
  lit "You are an expert software engineer working on the repository: "
  ++ repository ++ nl ++ nl
  ++ lit "Issue #" ++ lit (pretty issueNumber) ++ lit ": " ++ issueTitle
  ++ nl ++ nl
  ++ issueBody ++ nl ++ nl
  ++ lit "Based on this GitHub issue, generate the necessary code files"
  ++ lit " to implement the requested feature." ++ nl ++ nl
  ++ lit "For each file, use the following format:" ++ nl.

Definition promptExample : jsstring :=
  promptFormat (lit "path/to/file.ts")
    (lit "Brief description of what this file does")
    (lit "// Your code here").

Definition promptTail : jsstring :=
  nl ++ nl
  ++ lit "Requirements:" ++ nl
  ++ lit "1. Follow TypeScript best practices" ++ nl
  ++ lit "2. Include proper error handling" ++ nl
  ++ lit "3. Add comments for complex logic" ++ nl
  ++ lit "4. Use modern ES6+ syntax" ++ nl
  ++ lit "5. Follow the existing project structure shown in the issue"
  ++ nl ++ nl
  ++ lit "Generate complete, production-ready code.".

Definition buildPrompt (repository : jsstring) (issueNumber : N)
    (issueTitle issueBody : jsstring) : jsstring :=
  promptHead repository issueNumber issueTitle issueBody
  ++ promptExample ++ promptTail.

(** The text of one file in the form that the first pattern reads, with
    the word after the opening fence, and a response made of such texts,
    one on a line. *)
Definition blockText (f : GeneratedFile) (lang : jsstring) : jsstring :=
  lit "[FILE:" ++ lit " " ++ path f ++ lit "]" ++ nl ++
  lit "[DESCRIPTION:" ++ lit " " ++ description f ++ lit "]" ++ nl ++
  lit "[CONTENT]" ++ nl ++
  lit "```" ++ lang ++ nl ++ content f ++ lit "```".

Definition blocksText (fs : list (GeneratedFile * jsstring)) : jsstring :=
  concat ((λ e, blockText e.1 e.2 ++ nl) <$> fs).

(** A path or a description that the group [(.+?)] takes as a whole: it
    does not begin with white space and holds no line terminator and no
    closing bracket. *)
Definition oneLine (x : jsstring) : Prop :=
  match x with
  | c :: _ => is_space c = false
  | [] => False
  end ∧
  Forall (λ c, is_dot c = true ∧ c ≠ 93%N) x.

Definition noBacktick (x : jsstring) : Prop := Forall (λ c, c ≠ 96%N) x.

(** The next character, if there is one, is not in the class. *)
Definition stops (p : N → bool) (s : jsstring) : Prop :=
  match s with
  | c :: _ => p c = false
  | [] => True
  end.

Definition trimmed (f : GeneratedFile) : GeneratedFile :=
  mkFile (trim (path f)) (trim (content f)) (trim (description f)).

(** What the first pattern needs of a file and of the word after the
    fence to read the text of the file back. *)
Definition readable (e : GeneratedFile * jsstring) : Prop :=
  oneLine (path e.1) ∧ oneLine (description e.1) ∧
  Forall (λ c, is_word c = true) e.2 ∧
  content e.1 ≠ [] ∧ noBacktick (content e.1).

(** The number of backticks of a text. *)
Definition backticks (s : list N) : nat :=
  length (filter (λ c, c = 96%N) s).

(** The text between the fences of the format of the prompt. *)
Definition promptInner (filePath description code : jsstring) : jsstring :=
  lit "[FILE: " ++ filePath ++ lit "]" ++ nl ++
  lit "[DESCRIPTION: " ++ description ++ lit "]" ++ nl ++
  lit "[CONTENT]" ++ nl ++ code ++ nl.

Definition twoFiles : list (GeneratedFile * jsstring) :=
  [(mkFile (lit "src/sum.ts") (lit "export const sum = (a: number[]) => 0;")
      (lit "Adds the numbers"), lit "ts");
   (mkFile (lit "README.md") (lit "# Sum") (lit "Notes"), [])].

End CodeGenResponse.

(* ===================================================================== *)
(** * Part II: properties *)
(* ===================================================================== *)

(** ** The Set of parseDependencies *)

Section SetFacts.

Lemma Set_add_NoDup (s : list N) x : NoDup s → NoDup (Set_add s x).
Proof.
  intros Hs. unfold Set_add. case_decide; [done|].
  apply NoDup_app. split_and!; [done| |apply NoDup_singleton].
  intros y Hy Hy'. apply list_elem_of_singleton in Hy'. by subst.
Qed.

Lemma Set_add_elem (s : list N) x y : y ∈ Set_add s x ↔ y ∈ s ∨ y = x.
Proof.
  unfold Set_add. case_decide.
  - split; [by left|]. intros [?| ->]; done.
  - rewrite elem_of_app, list_elem_of_singleton. done.
Qed.

Lemma foldl_Set_add (l acc : list N) :
  NoDup acc →
  NoDup (foldl Set_add acc l) ∧
  ∀ y, y ∈ foldl Set_add acc l ↔ y ∈ acc ∨ y ∈ l.
Proof.
  revert acc. induction l as [|x l IH]; intros acc Hacc; simpl.
  - split; [done|]. intros y. rewrite elem_of_nil. tauto.
  - destruct (IH (Set_add acc x) (Set_add_NoDup _ _ Hacc)) as [H1 H2].
    split; [done|]. intros y. rewrite H2, Set_add_elem, elem_of_cons.
    tauto.
Qed.

Lemma Set_from_NoDup l : NoDup (Set_from l).
Proof. apply foldl_Set_add, NoDup_nil_2. Qed.

Lemma Set_from_elem l y : y ∈ Set_from l ↔ y ∈ l.
Proof.
  unfold Set_from.
  destruct (foldl_Set_add l [] (NoDup_nil_2)) as [_ H].
  rewrite H, elem_of_nil. tauto.
Qed.

End SetFacts.

(** ** The matchers against the occurrences of the design document *)

Section Matchers.

Lemma span_app p s a b : span p s = (a, b) → s = a ++ b.
Proof.
  revert a b. induction s as [|c s IH]; intros a b; simpl.
  - by intros [= <- <-].
  - destruct (p c).
    + destruct (span p s) as [a' b'] eqn:E. intros [= <- <-].
      simpl. f_equal. by apply IH.
    + by intros [= <- <-].
Qed.

Lemma span_Forall p s a b :
  span p s = (a, b) → Forall (λ c, p c = true) a.
Proof.
  revert a b. induction s as [|c s IH]; intros a b; simpl.
  - intros [= <- <-]. constructor.
  - destruct (p c) eqn:Hc.
    + destruct (span p s) as [a' b'] eqn:E. intros [= <- <-].
      constructor; [done|]. by eapply IH.
    + intros [= <- <-]. constructor.
Qed.

Lemma span_stop p s a b :
  span p s = (a, b) →
  match b with c :: _ => p c = false | [] => True end.
Proof.
  revert a b. induction s as [|c s IH]; intros a b; simpl.
  - by intros [= <- <-].
  - destruct (p c) eqn:Hc.
    + destruct (span p s) as [a' b'] eqn:E. intros [= <- <-].
      by eapply IH.
    + by intros [= <- <-].
Qed.

Lemma span_unique p a b :
  Forall (λ c, p c = true) a →
  match b with c :: _ => p c = false | [] => True end →
  span p (a ++ b) = (a, b).
Proof.
  intros Ha Hb. induction Ha as [|c a Hc Ha IH]; simpl.
  - destruct b as [|c b]; [done|]. simpl. by rewrite Hb.
  - by rewrite Hc, IH.
Qed.

Lemma match_lit_ci_Some pat s rest :
  match_lit_ci pat s = Some rest ↔
  ∃ kw, s = kw ++ rest ∧ ci_equal kw pat.
Proof.
  unfold ci_equal. revert s. induction pat as [|q pat IH]; intros s; simpl.
  - split.
    + intros [= ->]. by exists [].
    + intros (kw & -> & Hkw). apply fmap_nil_inv in Hkw. by subst.
  - destruct s as [|c s].
    + split; [done|]. intros (kw & Hs & Hkw).
      symmetry in Hs. apply app_eq_nil in Hs as [-> ->]. done.
    + destruct (canonicalize c =? canonicalize q)%N eqn:Hc.
      * apply N.eqb_eq in Hc. rewrite IH. split.
        -- intros (kw & -> & Hkw). exists (c :: kw).
           split; [done|]. rewrite !fmap_cons. by rewrite Hc, Hkw.
        -- intros (kw & Hs & Hkw). destruct kw as [|k kw]; [done|].
           rewrite !fmap_cons in Hkw.
           injection Hs as -> ->. injection Hkw as _ Hkw.
           by exists kw.
      * apply N.eqb_neq in Hc. split; [done|].
        intros (kw & Hs & Hkw). destruct kw as [|k kw]; [done|].
        rewrite !fmap_cons in Hkw.
        injection Hs as -> ->. injection Hkw as Hk _.
        done.
Qed.

Lemma match_digits_Some s ds rest :
  match_digits s = Some (ds, rest) ↔ s = ds ++ rest ∧ digit_run ds rest.
Proof.
  unfold match_digits, digit_run. split.
  - destruct (span is_digit s) as [a b] eqn:E.
    pose proof (span_app _ _ _ _ E). pose proof (span_Forall _ _ _ _ E).
    pose proof (span_stop _ _ _ _ E).
    destruct a as [|c a]; [done|]. intros [= <- <-]. done.
  - intros (-> & Hne & Hds & Hrest).
    rewrite (span_unique _ _ _ Hds Hrest). by destruct ds.
Qed.

Lemma relates_at_Some s ds rest :
  relates_at s = Some (ds, rest) ↔
  ∃ kw, s = kw ++ ds ++ rest ∧ ci_equal kw (lit "Relates to #") ∧
        digit_run ds rest.
Proof.
  unfold relates_at. split.
  - destruct (match_lit_ci _ s) as [r|] eqn:E; [|done].
    apply match_lit_ci_Some in E as (kw & -> & Hkw).
    intros (-> & Hrun)%match_digits_Some. by exists kw.
  - intros (kw & -> & Hkw & Hrun).
    assert (match_lit_ci (lit "Relates to #") (kw ++ ds ++ rest)
            = Some (ds ++ rest)) as ->.
    { apply match_lit_ci_Some. by exists kw. }
    by apply match_digits_Some.
Qed.

(** The digits of a run are fixed by the text that follows the keyword. *)
Lemma digit_run_unique ds rest ds' rest' :
  ds ++ rest = ds' ++ rest' → digit_run ds rest → digit_run ds' rest' →
  ds = ds' ∧ rest = rest'.
Proof.
  intros Heq (_ & H1 & H2) (_ & H1' & H2').
  pose proof (span_unique is_digit _ _ H1 H2) as E.
  pose proof (span_unique is_digit _ _ H1' H2') as E'.
  rewrite Heq in E. rewrite E in E'. by injection E' as -> ->.
Qed.

Lemma ci_equal_length a b : ci_equal a b → length a = length b.
Proof.
  unfold ci_equal. intros H.
  by rewrite <-(length_fmap canonicalize a), H, length_fmap.
Qed.

Lemma relates_occurrence_at body i n :
  relates_occurrence body i n ↔
  ∃ ds rest, relates_at (drop i body) = Some (ds, rest) ∧
             n = parseInt10 ds.
Proof.
  unfold relates_occurrence. split.
  - intros (kw & ds & rest & Hd & Hkw & Hrun & ->).
    exists ds, rest. split; [|done]. apply relates_at_Some. by exists kw.
  - intros (ds & rest & (kw & Hd & Hkw & Hrun)%relates_at_Some & ->).
    by exists kw, ds, rest.
Qed.

Lemma relates_at_nil : relates_at [] = None.
Proof. reflexivity. Qed.

Lemma relates_match_Some s ds :
  relates_match s = Some ds ↔
  ∃ i rest, relates_at (drop i s) = Some (ds, rest) ∧
            ∀ j, j < i → relates_at (drop j s) = None.
Proof.
  induction s as [|c s IH].
  - simpl. split; [done|]. intros (i & rest & H & _).
    by rewrite drop_nil in H.
  - cbn [relates_match]. destruct (relates_at (c :: s)) as [[ds0 r0]|] eqn:E.
    + split.
      * intros [= <-]. exists 0, r0. split; [done|]. lia.
      * intros (i & rest & H & Hmin). destruct i as [|i].
        -- simpl in H. rewrite E in H. by injection H as -> _.
        -- specialize (Hmin 0 ltac:(lia)). simpl in Hmin. congruence.
    + rewrite IH. split.
      * intros (i & rest & H & Hmin). exists (S i), rest. split; [done|].
        intros [|j] Hj; [done|]. simpl. apply Hmin. lia.
      * intros (i & rest & H & Hmin). destruct i as [|i].
        -- simpl in H. congruence.
        -- exists i, rest. split; [done|]. intros j Hj.
           apply (Hmin (S j)). lia.
Qed.

Lemma first_relates_match body n :
  first_relates_occurrence body n ↔
  ∃ ds, relates_match body = Some ds ∧ n = parseInt10 ds.
Proof.
  unfold first_relates_occurrence. split.
  - intros (i & (ds & rest & Hat & ->)%relates_occurrence_at & Hmin).
    exists ds. split; [|done]. apply relates_match_Some.
    exists i, rest. split; [done|]. intros j Hj.
    destruct (relates_at (drop j body)) as [[ds' r']|] eqn:E; [|done].
    exfalso. apply (Hmin j (parseInt10 ds') Hj).
    apply relates_occurrence_at. eauto.
  - intros (ds & (i & rest & Hat & Hmin)%relates_match_Some & ->).
    exists i. split.
    + apply relates_occurrence_at. eauto.
    + intros j m Hj (ds' & r' & E & _)%relates_occurrence_at.
      rewrite (Hmin j Hj) in E. done.
Qed.

Lemma depends_at_Some s ds len :
  depends_at s = Some (ds, len) ↔
  ∃ kw ws rest,
    s = kw ++ ws ++ 35%N :: ds ++ rest ∧
    ci_equal kw (lit "depends:") ∧
    Forall (λ c, is_space c = true) ws ∧
    digit_run ds rest ∧ len = 8 + length ws + 1 + length ds.
Proof.
  unfold depends_at. split.
  - destruct (match_lit_ci _ s) as [r1|] eqn:E; [|done].
    apply match_lit_ci_Some in E as (kw & -> & Hkw).
    destruct (span is_space r1) as [ws r2] eqn:Esp.
    pose proof (span_app _ _ _ _ Esp) as ->.
    pose proof (span_Forall _ _ _ _ Esp) as Hws.
    destruct r2 as [|c r3]; [done|].
    destruct (c =? 35)%N eqn:Hc; [|done]. apply N.eqb_eq in Hc as ->.
    destruct (match_digits r3) as [[ds' rest]|] eqn:Ed; [|done].
    apply match_digits_Some in Ed as (-> & Hrun).
    intros [= -> <-]. by exists kw, ws, rest.
  - intros (kw & ws & rest & -> & Hkw & Hws & Hrun & ->).
    assert (match_lit_ci (lit "depends:")
              (kw ++ ws ++ 35%N :: ds ++ rest)
            = Some (ws ++ 35%N :: ds ++ rest)) as ->.
    { apply match_lit_ci_Some. by exists kw. }
    rewrite (span_unique is_space ws (35%N :: ds ++ rest) Hws eq_refl).
    rewrite N.eqb_refl.
    assert (match_digits (ds ++ rest) = Some (ds, rest)) as ->; [|done].
    by apply match_digits_Some.
Qed.

Lemma depends_occurrence_at body i n :
  depends_occurrence body i n ↔
  ∃ ds len, depends_at (drop i body) = Some (ds, len) ∧
            n = parseInt10 ds.
Proof.
  unfold depends_occurrence. split.
  - intros (kw & ws & ds & rest & Hd & Hkw & Hws & Hrun & ->).
    exists ds, (8 + length ws + 1 + length ds). split; [|done].
    apply depends_at_Some. by exists kw, ws, rest.
  - intros (ds & len & H & ->).
    apply depends_at_Some in H as (kw & ws & rest & ? & ? & ? & ? & _).
    by exists kw, ws, ds, rest.
Qed.

Lemma canonicalize_D c : canonicalize c = 68%N → c = 68%N ∨ c = 100%N.
Proof.
  unfold canonicalize.
  destruct ((97 <=? c) && (c <=? 122))%N eqn:E; [|by left].
  apply andb_true_iff in E as [H1%N.leb_le H2%N.leb_le]. lia.
Qed.

Lemma space_not_D c : is_space c = true → canonicalize c ≠ 68%N.
Proof. intros Hs [-> | ->]%canonicalize_D; by vm_compute in Hs. Qed.

Lemma digit_not_D c : is_digit c = true → canonicalize c ≠ 68%N.
Proof. intros Hs [-> | ->]%canonicalize_D; by vm_compute in Hs. Qed.

(** A match of the second pattern begins with the letters d and e. *)
Lemma depends_at_head s x :
  depends_at s = Some x →
  ∃ c c' s', s = c :: c' :: s' ∧
             canonicalize c = 68%N ∧ canonicalize c' = 69%N.
Proof.
  unfold depends_at.
  destruct (match_lit_ci _ s) as [r1|] eqn:E; [|done]. intros _.
  destruct s as [|c [|c' s']]; try done.
  - simpl in E. by destruct (canonicalize c =? _)%N.
  - exists c, c', s'. split; [done|].
    change (lit "depends:")
      with [100; 101; 112; 101; 110; 100; 115; 58]%N in E.
    cbn [match_lit_ci] in E.
    change (canonicalize 100) with 68%N in E.
    change (canonicalize 101) with 69%N in E.
    destruct (canonicalize c =? 68)%N eqn:H1; [|done].
    destruct (canonicalize c' =? 69)%N eqn:H2; [|done].
    by apply N.eqb_eq in H1, H2.
Qed.

(** No match of the second pattern begins inside another one. *)
Lemma depends_no_overlap s ds len j :
  depends_at s = Some (ds, len) → 0 < j < len →
  depends_at (drop j s) = None.
Proof.
  intros (kw & ws & rest & -> & Hkw & Hws & (_ & Hds & _) & ->)
    %depends_at_Some Hj.
  destruct (depends_at (drop j _)) as [x|] eqn:E; [exfalso|done].
  apply depends_at_head in E as (c & c' & s' & Hdrop & Hc & Hc').
  set (s := kw ++ ws ++ 35%N :: ds ++ rest) in *.
  assert (s !! j = Some c) as Hj0.
  { rewrite <-(Nat.add_0_r j), <-lookup_drop, Hdrop. done. }
  assert (s !! (j + 1) = Some c') as Hj1.
  { rewrite <-lookup_drop, Hdrop. done. }
  pose proof (ci_equal_length _ _ Hkw) as Hlen.
  change (length (lit "depends:")) with 8 in Hlen.
  destruct (decide (j < 8)) as [Hlt|Hge].
  - do 9 (destruct kw as [|? kw]; try done).
    unfold ci_equal in Hkw.
    change (lit "depends:")
      with [100; 101; 112; 101; 110; 100; 115; 58]%N in Hkw.
    rewrite !fmap_cons in Hkw. injection Hkw as ? ? ? ? ? ? ? ?.
    subst s.
    repeat match goal with
           | H : _ = canonicalize ?k |- _ =>
               let v := eval vm_compute in (canonicalize k) in
               change (canonicalize k) with v in H
           end.
    do 8 (destruct j as [|j];
          [simpl in Hj0, Hj1; simplify_eq; first [lia | congruence] |]).
    lia.
  - subst s. rewrite lookup_app_r in Hj0 by lia.
    rewrite Hlen in Hj0.
    destruct (decide (j - 8 < length ws)) as [Hw|Hw].
    + rewrite lookup_app_l in Hj0 by done.
      apply list_elem_of_lookup_2 in Hj0.
      eapply Forall_forall in Hws; [|done]. by apply space_not_D in Hws.
    + rewrite lookup_app_r in Hj0 by lia.
      destruct (j - 8 - length ws) as [|k] eqn:Hk.
      * simpl in Hj0. injection Hj0 as <-. by vm_compute in Hc.
      * simpl in Hj0. rewrite lookup_app_l in Hj0 by lia.
        apply list_elem_of_lookup_2 in Hj0.
        eapply Forall_forall in Hds; [|done]. by apply digit_not_D in Hds.
Qed.

Lemma depends_matchAll_sound ds k s :
  ds ∈ depends_matchAll k s →
  ∃ i len, depends_at (drop i s) = Some (ds, len).
Proof.
  revert k. induction s as [|c s IH]; intros k; simpl.
  - by intros ?%elem_of_nil.
  - destruct k as [|k].
    + destruct (depends_at (c :: s)) as [[ds0 len0]|] eqn:E.
      * intros [->|H]%elem_of_cons.
        -- by exists 0, len0.
        -- apply IH in H as (i & len & H). by exists (S i), len.
      * intros (i & len & H)%IH. by exists (S i), len.
    + intros (i & len & H)%IH. by exists (S i), len.
Qed.

Lemma depends_matchAll_complete ds len s : ∀ k i,
  k ≤ i → depends_at (drop i s) = Some (ds, len) →
  ds ∈ depends_matchAll k s.
Proof.
  induction s as [|c s IH]; intros k i Hk H.
  - by rewrite drop_nil in H.
  - simpl. destruct k as [|k].
    + destruct i as [|i].
      * simpl in H. rewrite H. apply elem_of_cons. by left.
      * destruct (depends_at (c :: s)) as [[ds0 len0]|] eqn:E.
        -- apply elem_of_cons. right. apply (IH _ i); [|done].
           destruct (decide (S i < len0)) as [Hlt|]; [|lia].
           rewrite (depends_no_overlap _ _ _ (S i) E) in H by lia. done.
        -- apply (IH _ i); [lia|done].
    + destruct i as [|i]; [lia|]. apply (IH _ i); [lia|done].
Qed.

Lemma depends_matchAll_elem ds s :
  ds ∈ depends_matchAll 0 s ↔
  ∃ i len, depends_at (drop i s) = Some (ds, len).
Proof.
  split; [apply depends_matchAll_sound|].
  intros (i & len & H). apply (depends_matchAll_complete _ len _ 0 i);
    [lia|done].
Qed.

End Matchers.


(** ** The node map *)

Section NodeMap.

Lemma nodeMap_from_notin nodes : ∀ i m a,
  a ∉ DAGNode.id <$> nodes → nodeMap_from i nodes m !! a = m !! a.
Proof.
  induction nodes as [|n nodes IH]; intros i m a Ha; [done|].
  rewrite fmap_cons, not_elem_of_cons in Ha. destruct Ha as [Hne Ha].
  simpl. rewrite IH by done. by rewrite lookup_insert_ne.
Qed.

Lemma nodeMap_from_Some nodes : ∀ i m a j,
  nodeMap_from i nodes m !! a = Some j →
  (∃ n, i ≤ j ∧ nodes !! (j - i) = Some n ∧ DAGNode.id n = a) ∨
  (m !! a = Some j ∧ a ∉ DAGNode.id <$> nodes).
Proof.
  induction nodes as [|n nodes IH]; intros i m a j H.
  - right. split; [done|]. rewrite fmap_nil. apply not_elem_of_nil.
  - simpl in H. apply IH in H as [(n' & Hle & Hn' & Hid)|[H Hnot]].
    + left. exists n'. split_and!; [lia| |done].
      replace (j - i) with (S (j - S i)) by lia. done.
    + destruct (decide (DAGNode.id n = a)) as [Heq|Hne].
      * rewrite Heq, lookup_insert_eq in H. injection H as <-.
        left. exists n. rewrite Nat.sub_diag. done.
      * rewrite lookup_insert_ne in H by done. right. split; [done|].
        rewrite fmap_cons, not_elem_of_cons. done.
Qed.

Lemma mkNodeMap_Some nodes a j :
  mkNodeMap nodes !! a = Some j →
  ∃ n, nodes !! j = Some n ∧ DAGNode.id n = a.
Proof.
  intros [(n & _ & Hn & Hid)|[H _]]%nodeMap_from_Some.
  - rewrite Nat.sub_0_r in Hn. eauto.
  - by rewrite lookup_empty in H.
Qed.

Lemma nodeMap_from_is_Some nodes : ∀ i m a,
  a ∈ DAGNode.id <$> nodes → is_Some (nodeMap_from i nodes m !! a).
Proof.
  induction nodes as [|n nodes IH]; intros i m a Ha.
  - by apply elem_of_nil in Ha.
  - simpl. destruct (decide (a ∈ DAGNode.id <$> nodes)) as [Hin|Hnot].
    + by apply IH.
    + rewrite fmap_cons, elem_of_cons in Ha. destruct Ha as [->|?]; [|done].
      rewrite nodeMap_from_notin by done. rewrite lookup_insert_eq. eauto.
Qed.

Lemma mkNodeMap_None nodes a :
  mkNodeMap nodes !! a = None → a ∉ DAGNode.id <$> nodes.
Proof.
  intros H Ha. apply (nodeMap_from_is_Some nodes 0 ∅) in Ha as [j Hj].
  unfold mkNodeMap in H. congruence.
Qed.

Lemma nodeMap_from_NoDup nodes : ∀ i m k n,
  NoDup (DAGNode.id <$> nodes) → nodes !! k = Some n →
  nodeMap_from i nodes m !! DAGNode.id n = Some (i + k).
Proof.
  induction nodes as [|n0 nodes IH]; intros i m k n Hnd Hk; [done|].
  rewrite fmap_cons in Hnd. apply NoDup_cons in Hnd as [Hnot Hnd].
  destruct k as [|k]; simpl in *.
  - injection Hk as ->. rewrite nodeMap_from_notin by done.
    rewrite lookup_insert_eq. f_equal. lia.
  - rewrite (IH _ _ k n) by done. f_equal. lia.
Qed.

Lemma mkNodeMap_NoDup nodes k n :
  NoDup (DAGNode.id <$> nodes) → nodes !! k = Some n →
  mkNodeMap nodes !! DAGNode.id n = Some k.
Proof. intros. unfold mkNodeMap. by rewrite (nodeMap_from_NoDup _ 0 ∅ k). Qed.

End NodeMap.

(** ** calculateLevel: what every call does *)

Section CalculateLevel.

Variable nodes0 : list DAGNode.t.
Let M := mkNodeMap nodes0.

Lemma skeleton_alter l i nodes :
  skeleton (alter (DAGNode.set_level l) i nodes) = skeleton nodes.
Proof.
  unfold skeleton. revert i. induction nodes as [|n nodes IH]; intros i.
  - done.
  - destruct i as [|i]; simpl.
    + done.
    + f_equal. apply IH.
Qed.

Lemma skeleton_lookup nodes i n :
  skeleton nodes = nodes0 → nodes !! i = Some n →
  nodes0 !! i = Some (DAGNode.set_level 0 n).
Proof.
  intros <- Hn. unfold skeleton. by rewrite list_lookup_fmap, Hn.
Qed.

Lemma getNode_Some nodes a i n :
  skeleton nodes = nodes0 → getNode M nodes a = Some (i, n) →
  M !! a = Some i ∧ nodes !! i = Some n ∧ DAGNode.id n = a ∧
  a ∈ DAGNode.id <$> nodes0.
Proof.
  intros Hsk. unfold getNode.
  destruct (M !! a) as [j|] eqn:HM; [|done].
  destruct (nodes !! j) as [m|] eqn:Hj; [|done]. intros [= <- <-].
  apply mkNodeMap_Some in HM as HM'. destruct HM' as (n0 & Hn0 & Hid).
  pose proof (skeleton_lookup _ _ _ Hsk Hj) as Hj0.
  rewrite Hn0 in Hj0. injection Hj0 as ->.
  split_and!; try done.
  rewrite <-Hid. apply list_elem_of_fmap. exists (DAGNode.set_level 0 m).
  split; [done|]. by eapply list_elem_of_lookup_2.
Qed.

Lemma getNode_None nodes a i :
  skeleton nodes = nodes0 → getNode M nodes a = None → M !! a ≠ Some i.
Proof.
  intros Hsk. unfold getNode. intros H HM. rewrite HM in H.
  apply mkNodeMap_Some in HM as (n0 & Hn0 & _).
  rewrite <-Hsk in Hn0. unfold skeleton in Hn0.
  rewrite list_lookup_fmap in Hn0.
  destruct (nodes !! i); done.
Qed.

Lemma M_inj a b i : M !! a = Some i → M !! b = Some i → a = b.
Proof.
  intros (n & Hn & <-)%mkNodeMap_Some (n' & Hn' & <-)%mkNodeMap_Some.
  congruence.
Qed.

(** Writing the level of one node leaves what is read for the others. *)
Lemma levelAt_write_ne nodes i l b :
  M !! b ≠ Some i →
  levelAt M (alter (DAGNode.set_level l) i nodes) b = levelAt M nodes b.
Proof.
  intros Hb. unfold levelAt, getNode.
  destruct (M !! b) as [j|]; [|done].
  rewrite list_lookup_alter_ne by congruence. done.
Qed.

Lemma levelAt_write_eq nodes a i n l :
  getNode M nodes a = Some (i, n) →
  levelAt M (alter (DAGNode.set_level l) i nodes) a = l.
Proof.
  unfold levelAt, getNode.
  destruct (M !! a) as [j|]; [|done].
  destruct (nodes !! j) as [m|] eqn:Hj; [|done]. intros [= <- <-].
  by rewrite list_lookup_alter_eq, Hj.
Qed.

Lemma calculateLevel_S fuel a st :
  calculateLevel M (S fuel) a st
  = if decide (a ∈ visited st) then
      Some (match getNode M (nodes st) a with
            | Some (_, node) => DAGNode.level node
            | None => 0
            end, st)
    else
      let st1 := mkLevelState ({[a]} ∪ visited st) (nodes st) in
      match getNode M (nodes st) a with
      | None => Some (0, st1)
      | Some (i, node) =>
          match DAGNode.dependencies node with
          | [] => Some (0, writeLevel i 0 st1)
          | deps =>
              match mapLevels (calculateLevel M fuel) deps st1 with
              | Some (ls, st2) =>
                  Some (max_list ls + 1, writeLevel i (max_list ls + 1) st2)
              | None => None
              end
          end
      end.
Proof. reflexivity. Qed.

Lemma mapLevels_post f deps : ∀ st ls st',
  (∀ d st l st', f d st = Some (l, st') →
     skeleton (nodes st) = nodes0 → call_post nodes0 d st l st') →
  mapLevels f deps st = Some (ls, st') →
  skeleton (nodes st) = nodes0 → map_post nodes0 deps st ls st'.
Proof.
  induction deps as [|d deps IH]; intros st ls st' Hf H Hsk.
  - injection H as <- <-. unfold map_post; fold M. split_and!; try done.
    intros ? ?%elem_of_nil. done.
  - simpl in H. destruct (f d st) as [[l st1]|] eqn:E1; [|done].
    destruct (mapLevels f deps st1) as [[ls' st2]|] eqn:E2; [|done].
    injection H as <- <-.
    apply Hf in E1 as (Hsk1 & Hv1 & Hd1 & Hfr1 & ->); [|done].
    apply IH in E2 as (Hsk2 & Hv2 & Hd2 & Hfr2 & ->); [|done..].
    unfold map_post; fold M. split_and!.
    + done.
    + set_solver.
    + intros d' [->|?]%elem_of_cons; [set_solver|by apply Hd2].
    + intros b Hb. rewrite Hfr2 by set_solver. by apply Hfr1.
    + rewrite fmap_cons. f_equal. by rewrite Hfr2.
Qed.

Lemma calculateLevel_post fuel : ∀ a st l st',
  calculateLevel M fuel a st = Some (l, st') →
  skeleton (nodes st) = nodes0 → call_post nodes0 a st l st'.
Proof.
  induction fuel as [|fuel IH]; intros a st l st' H Hsk; [done|].
  rewrite calculateLevel_S in H. cbv zeta in H.
  destruct (decide (a ∈ visited st)) as [Hin|Hnot].
  { injection H as <- <-. unfold call_post; fold M. split_and!; done. }
  destruct (getNode M (nodes st) a) as [[i node]|] eqn:Hget.
  2:{ injection H as <- <-. unfold call_post; fold M. cbn [visited nodes].
      split_and!; try done; [set_solver..|].
      unfold levelAt. by rewrite Hget. }
  destruct (getNode_Some _ _ _ _ Hsk Hget) as (HM & Hi & Hid & Hin).
  destruct (DAGNode.dependencies node) as [|d deps] eqn:Hdeps.
  { injection H as <- <-. unfold call_post, writeLevel; fold M. cbn [visited nodes].
    split_and!.
    - by rewrite skeleton_alter.
    - set_solver.
    - set_solver.
    - intros b Hb. apply levelAt_write_ne. intros Hb'.
      rewrite (M_inj _ _ _ Hb' HM) in Hb. done.
    - symmetry. by eapply levelAt_write_eq. }
  destruct (mapLevels _ (d :: deps) _) as [[ls st2]|] eqn:Emap; [|done].
  injection H as <- <-.
  apply (mapLevels_post _ _ _ _ _ IH) in Emap
    as (Hsk2 & Hv2 & Hd2 & Hfr2 & ->); [|done].
  cbn [visited nodes] in Hv2, Hfr2.
  unfold call_post, writeLevel; fold M. cbn [visited nodes]. split_and!.
  - by rewrite skeleton_alter.
  - intros x Hx. apply Hv2, elem_of_union. by right.
  - apply Hv2, elem_of_union. left. by apply elem_of_singleton.
  - intros b Hb. rewrite levelAt_write_ne.
    + apply Hfr2. apply elem_of_union. by right.
    + intros Hb'. rewrite (M_inj _ _ _ Hb' HM) in Hb. done.
  - symmetry.
    assert (is_Some (nodes st2 !! i)) as [m Hm].
    { apply lookup_lt_is_Some.
      rewrite <-(length_fmap (DAGNode.set_level 0)).
      fold (skeleton (nodes st2)). rewrite Hsk2, <-Hsk.
      unfold skeleton. rewrite length_fmap.
      by eapply lookup_lt_Some. }
    apply (levelAt_write_eq _ _ _ m). unfold getNode.
    by rewrite HM, Hm.
Qed.

(** *** Termination *)

Lemma unvisited_mono keys (v v' : gset string) :
  v ⊆ v' → unvisited keys v' ≤ unvisited keys v.
Proof.
  intros Hv. unfold unvisited. induction keys as [|k keys IH]; [done|].
  rewrite !filter_cons.
  destruct (decide (k ∉ v')), (decide (k ∉ v)); simpl; try lia.
  set_solver.
Qed.

Lemma unvisited_visit keys (v : gset string) a :
  a ∈ keys → a ∉ v → unvisited keys ({[a]} ∪ v) < unvisited keys v.
Proof.
  intros Ha Hv. unfold unvisited.
  induction keys as [|k keys IH]; [by apply elem_of_nil in Ha|].
  rewrite !filter_cons.
  pose proof (unvisited_mono keys v ({[a]} ∪ v) ltac:(set_solver)) as Hm.
  unfold unvisited in Hm.
  destruct (decide (k = a)) as [->|Hne].
  - destruct (decide (a ∉ {[a]} ∪ v)); [set_solver|].
    destruct (decide (a ∉ v)); [|done]. simpl. lia.
  - apply elem_of_cons in Ha as [?|Ha]; [done|]. specialize (IH Ha).
    destruct (decide (k ∉ {[a]} ∪ v)), (decide (k ∉ v)); simpl; try lia.
    set_solver.
Qed.

Lemma mapLevels_total f bound deps : ∀ st,
  (∀ d st, skeleton (nodes st) = nodes0 →
     unvisited (DAGNode.id <$> nodes0) (visited st) < bound →
     ∃ l st', f d st = Some (l, st') ∧ call_post nodes0 d st l st') →
  skeleton (nodes st) = nodes0 →
  unvisited (DAGNode.id <$> nodes0) (visited st) < bound →
  is_Some (mapLevels f deps st).
Proof.
  induction deps as [|d deps IH]; intros st Hf Hsk Hb; [by eexists|].
  simpl. destruct (Hf d st Hsk Hb) as (l & st1 & -> & Hsk1 & Hv1 & _).
  destruct (IH st1 Hf Hsk1) as [[ls st2] ->]; [|by eexists].
  eapply Nat.le_lt_trans; [by apply unvisited_mono|done].
Qed.

(** With more fuel than there are unvisited nodes the call returns. *)
Lemma calculateLevel_total fuel : ∀ a st,
  skeleton (nodes st) = nodes0 →
  unvisited (DAGNode.id <$> nodes0) (visited st) < fuel →
  ∃ l st', calculateLevel M fuel a st = Some (l, st') ∧
           call_post nodes0 a st l st'.
Proof.
  induction fuel as [|fuel IH]; intros a st Hsk Hb; [lia|].
  assert (is_Some (calculateLevel M (S fuel) a st)) as [[l st'] H].
  { rewrite calculateLevel_S. cbv zeta.
    destruct (decide (a ∈ visited st)); [by eexists|].
    destruct (getNode M (nodes st) a) as [[i node]|] eqn:Hget;
      [|by eexists].
    destruct (getNode_Some _ _ _ _ Hsk Hget) as (HM & Hi & Hid & Hin).
    destruct (DAGNode.dependencies node) as [|d deps]; [by eexists|].
    destruct (mapLevels_total (calculateLevel M fuel) fuel (d :: deps)
                (mkLevelState ({[a]} ∪ visited st) (nodes st)))
      as [[ls st2] ->]; [done|done| |by eexists].
    simpl. pose proof (unvisited_visit _ _ _ Hin n). lia. }
  exists l, st'. split; [done|]. by eapply calculateLevel_post.
Qed.

Lemma calculateAll_total fuel ids : ∀ st,
  skeleton (nodes st) = nodes0 →
  unvisited (DAGNode.id <$> nodes0) (visited st) < fuel →
  ∃ st', calculateAll M fuel ids st = Some st' ∧
         skeleton (nodes st') = nodes0 ∧
         visited st ⊆ visited st' ∧
         ∀ a, a ∈ ids → a ∈ visited st'.
Proof.
  induction ids as [|a ids IH]; intros st Hsk Hb.
  - exists st. split_and!; try done. by intros ? ?%elem_of_nil.
  - simpl.
    destruct (calculateLevel_total fuel a st Hsk Hb)
      as (l & st1 & -> & Hsk1 & Hv1 & Ha1 & _).
    destruct (IH st1 Hsk1) as (st' & -> & Hsk' & Hv' & Hall).
    { eapply Nat.le_lt_trans; [by apply unvisited_mono|done]. }
    exists st'. split_and!; try done; [set_solver|].
    intros b [->|?]%elem_of_cons; [set_solver|by apply Hall].
Qed.

(** More fuel does not change a result. *)
Lemma mapLevels_mono f g deps : ∀ st r,
  (∀ d st r, f d st = Some r → g d st = Some r) →
  mapLevels f deps st = Some r → mapLevels g deps st = Some r.
Proof.
  induction deps as [|d deps IH]; intros st r Hfg H; [done|].
  simpl in *. destruct (f d st) as [[l st1]|] eqn:E1; [|done].
  rewrite (Hfg _ _ _ E1).
  destruct (mapLevels f deps st1) as [[ls st2]|] eqn:E2; [|done].
  by rewrite (IH _ _ Hfg E2).
Qed.

Lemma calculateLevel_mono fuel : ∀ fuel' a st r,
  fuel ≤ fuel' → calculateLevel M fuel a st = Some r →
  calculateLevel M fuel' a st = Some r.
Proof.
  induction fuel as [|fuel IH]; intros fuel' a st r Hle H; [done|].
  destruct fuel' as [|fuel']; [lia|].
  rewrite calculateLevel_S in *. cbv zeta in *.
  destruct (decide (a ∈ visited st)); [done|].
  destruct (getNode M (nodes st) a) as [[i node]|]; [|done].
  destruct (DAGNode.dependencies node) as [|d deps]; [done|].
  destruct (mapLevels (calculateLevel M fuel) _ _) as [[ls st2]|] eqn:E;
    [|done].
  rewrite (mapLevels_mono _ (calculateLevel M fuel') _ _ _
             (λ d st r, IH fuel' d st r ltac:(lia)) E).
  done.
Qed.

Lemma calculateAll_mono fuel fuel' ids : ∀ st r,
  fuel ≤ fuel' → calculateAll M fuel ids st = Some r →
  calculateAll M fuel' ids st = Some r.
Proof.
  induction ids as [|a ids IH]; intros st r Hle H; [done|].
  simpl in *.
  destruct (calculateLevel M fuel a st) as [[l st1]|] eqn:E; [|done].
  rewrite (calculateLevel_mono _ _ _ _ _ Hle E). by apply IH.
Qed.

End CalculateLevel.

(** ** calculateLevel on an acyclic graph *)

Section Acyclic.

Variable nodes0 : list DAGNode.t.
Local Abbreviation M := (mkNodeMap nodes0).
Local Abbreviation ids := (DAGNode.id <$> nodes0).
Hypothesis Hacyclic : ∀ a, ¬ tc (depEdge nodes0) a a.

Lemma levelEquation_ext nodes nodes' n :
  (∀ d, d ∈ DAGNode.dependencies n →
        levelAt M nodes' d = levelAt M nodes d) →
  levelEquation M nodes n → levelEquation M nodes' n.
Proof.
  unfold levelEquation. intros Hext ->.
  destruct (DAGNode.dependencies n) as [|d deps] eqn:Hd; [done|].
  do 2 f_equal. apply list_fmap_ext. intros ? d' Hd'. symmetry.
  apply Hext. by eapply list_elem_of_lookup_2.
Qed.

Lemma skeleton_same_deps nodes nodes' i n n' :
  skeleton nodes = nodes0 → skeleton nodes' = nodes0 →
  nodes !! i = Some n → nodes' !! i = Some n' →
  DAGNode.dependencies n' = DAGNode.dependencies n.
Proof.
  intros Hs Hs' Hn Hn'.
  pose proof (skeleton_lookup _ _ _ _ Hs Hn) as H1.
  pose proof (skeleton_lookup _ _ _ _ Hs' Hn') as H2.
  rewrite H1 in H2. injection H2 as ? _ _ ?. done.
Qed.

(** A node on the call stack is not the argument of a call below it. *)
Lemma not_on_stack (stack : gset string) a :
  (∀ s, s ∈ stack → s ∈ ids) →
  (a ∈ ids → ∀ s, s ∈ stack → tc (depEdge nodes0) s a) →
  a ∉ stack.
Proof.
  intros HS Hreach Ha. apply (Hacyclic a). apply Hreach; [|done].
  by apply HS.
Qed.

Lemma mapLevels_settled f deps : ∀ st ls st' (stack : gset string),
  (∀ d st l st', f d st = Some (l, st') →
     skeleton (nodes st) = nodes0 → call_post nodes0 d st l st') →
  (∀ d st l st', f d st = Some (l, st') →
     skeleton (nodes st) = nodes0 → settled M stack st →
     (d ∈ ids → ∀ s, s ∈ stack → tc (depEdge nodes0) s d) →
     settled M stack st') →
  mapLevels f deps st = Some (ls, st') →
  skeleton (nodes st) = nodes0 → settled M stack st →
  (∀ d, d ∈ deps → d ∈ ids →
        ∀ s, s ∈ stack → tc (depEdge nodes0) s d) →
  settled M stack st'.
Proof.
  induction deps as [|d deps IH];
    intros st ls st' stack Hpost Hf H Hsk Hst Hr.
  - by injection H as <- <-.
  - simpl in H. destruct (f d st) as [[l st1]|] eqn:E1; [|done].
    destruct (mapLevels f deps st1) as [[ls' st2]|] eqn:E2; [|done].
    injection H as <- <-.
    pose proof (Hpost _ _ _ _ E1 Hsk) as (Hsk1 & _).
    eapply IH; [done|done|done|done| |].
    + eapply Hf; [done|done|done|]. apply Hr. by left.
    + intros d' Hd'. apply Hr. by right.
Qed.

(** Writing the level of [a] leaves the visited nodes that do not
    depend on it as they are. *)
Lemma settled_write_others (stack : gset string) st2 a i l2 b j n :
  skeleton (nodes st2) = nodes0 →
  M !! a = Some i →
  a ∈ stack ∨ a ∉ visited st2 →
  settled M stack st2 →
  b ≠ a → b ∈ visited st2 → b ∉ stack → M !! b = Some j →
  nodes (writeLevel i l2 st2) !! j = Some n →
  levelEquation M (nodes (writeLevel i l2 st2)) n ∧
  ∀ d, d ∈ DAGNode.dependencies n → d ∈ visited st2 ∧ d ∉ stack.
Proof.
  intros Hsk2 HM Ha2 Hst2 Hne Hb HbS HMb Hj.
  unfold writeLevel in *. cbn [visited nodes] in *.
  assert (i ≠ j) as Hij.
  { intros <-. apply Hne. by eapply (M_inj nodes0). }
  rewrite list_lookup_alter_ne in Hj by done.
  destruct (Hst2 b j n Hb HbS HMb Hj) as [Heq Hdeps].
  split; [|done].
  eapply levelEquation_ext; [|done]. intros d Hd.
  apply levelAt_write_ne. intros HMd.
  assert (d = a) as -> by by eapply (M_inj nodes0).
  destruct (Hdeps a Hd). destruct Ha2; done.
Qed.

Lemma calculateLevel_settled fuel : ∀ a st l st' (stack : gset string),
  calculateLevel M fuel a st = Some (l, st') →
  skeleton (nodes st) = nodes0 → settled M stack st →
  (∀ s, s ∈ stack → s ∈ ids) →
  (a ∈ ids → ∀ s, s ∈ stack → tc (depEdge nodes0) s a) →
  settled M stack st'.
Proof.
  induction fuel as [|fuel IH];
    intros a st l st' stack H Hsk Hst HS Hreach; [done|].
  pose proof (not_on_stack stack a HS Hreach) as HaS.
  rewrite calculateLevel_S in H. cbv zeta in H.
  destruct (decide (a ∈ visited st)) as [Hvis|Hnot].
  { by injection H as <- <-. }
  destruct (getNode M (nodes st) a) as [[i node]|] eqn:Hget.
  2:{ injection H as <- <-. intros b j n Hb HbS HMb Hj.
      cbn [visited nodes] in *.
      assert (b ≠ a) as Hne.
      { intros ->. by eapply (getNode_None nodes0). }
      assert (b ∈ visited st) as Hb' by set_solver.
      destruct (Hst b j n Hb' HbS HMb Hj) as [Heq Hdeps].
      split; [done|]. intros d Hd. destruct (Hdeps d Hd). set_solver. }
  destruct (getNode_Some _ _ _ _ _ Hsk Hget) as (HM & Hi & Hid & Hin).
  assert (DAGNode.set_level 0 node ∈ nodes0) as Hnode0.
  { eapply list_elem_of_lookup_2. by eapply skeleton_lookup. }
  destruct (DAGNode.dependencies node) as [|d deps] eqn:Hdeps.
  { injection H as <- <-. intros b j n Hb HbS HMb Hj.
    destruct (decide (b = a)) as [->|Hne].
    - assert (j = i) as -> by congruence.
      unfold writeLevel in Hj. cbn [visited nodes] in Hj.
      rewrite list_lookup_alter_eq, Hi in Hj. injection Hj as <-.
      unfold levelEquation. cbn. rewrite Hdeps. split; [done|].
      by intros ? ?%elem_of_nil.
    - unfold writeLevel in Hb. cbn [visited] in Hb.
      assert (b ∈ visited st) as Hb' by set_solver.
      destruct (settled_write_others stack st a i 0 b j n) as [Heq Hd];
        try done; [by right|].
      split; [done|]. intros d Hdd. destruct (Hd d Hdd).
      unfold writeLevel. cbn [visited]. set_solver. }
  destruct (mapLevels _ (d :: deps) _) as [[ls st2]|] eqn:Emap; [|done].
  injection H as <- <-.
  pose proof (mapLevels_post _ _ _ _ _ _ (calculateLevel_post nodes0 fuel)
                Emap Hsk) as (Hsk2 & Hv2 & Hd2 & Hfr2 & Hls).
  cbn [visited nodes] in Hv2, Hfr2.
  assert (∀ s, s ∈ {[a]} ∪ stack → s ∈ ids) as HS'.
  { intros s [->%elem_of_singleton|Hs]%elem_of_union; [done|by apply HS]. }
  assert (∀ d', d' ∈ d :: deps → d' ∈ ids →
            ∀ s, s ∈ {[a]} ∪ stack → tc (depEdge nodes0) s d') as Hreach'.
  { intros d' Hd' Hdin s Hs.
    assert (depEdge nodes0 a d') as Hedge.
    { exists (DAGNode.set_level 0 node). split_and!; try done.
      cbn. by rewrite Hdeps. }
    apply elem_of_union in Hs as [->%elem_of_singleton|Hs].
    - by apply tc_once.
    - eapply tc_r; [|done]. by apply Hreach. }
  (* the calls for the dependencies, with [a] on the stack *)
  assert (settled M ({[a]} ∪ stack) st2) as Hst2.
  { eapply (mapLevels_settled _ _ _ _ _ ({[a]} ∪ stack));
      [apply (calculateLevel_post nodes0 fuel) | | exact Emap | done | |
       done].
    - intros d' st3 l3 st3' Hcall Hsk3 Hst3 Hr3.
      by eapply IH.
    - intros b j n Hb HbS HMb Hj. cbn [visited nodes] in *.
      assert (b ∈ visited st ∧ b ∉ stack) as [Hb' HbS'] by set_solver.
      destruct (Hst b j n Hb' HbS' HMb Hj) as [Heq Hd]. split; [done|].
      intros d' Hd'. destruct (Hd d' Hd'). set_solver. }
  assert (∀ d', d' ∈ d :: deps → d' ∉ {[a]} ∪ stack) as Hoff.
  { intros d' Hd'. apply not_on_stack; [done|]. by apply Hreach'. }
  assert (is_Some (nodes st2 !! i)) as [m Hm].
  { apply lookup_lt_is_Some.
    rewrite <-(length_fmap (DAGNode.set_level 0)).
    fold (skeleton (nodes st2)). rewrite Hsk2, <-Hsk.
    unfold skeleton. rewrite length_fmap. by eapply lookup_lt_Some. }
  pose proof (skeleton_same_deps _ _ _ _ _ Hsk Hsk2 Hi Hm) as Hdm.
  rewrite Hdeps in Hdm.
  intros b j n Hb HbS HMb Hj.
  destruct (decide (b = a)) as [->|Hne].
  - assert (j = i) as -> by congruence.
    unfold writeLevel in *. cbn [visited nodes] in *.
    rewrite list_lookup_alter_eq, Hm in Hj. injection Hj as <-.
    split.
    + unfold levelEquation.
      cbn [DAGNode.level DAGNode.dependencies DAGNode.set_level].
      rewrite Hdm. do 2 f_equal.
      rewrite Hls. apply list_fmap_ext. intros ? d' Hd'. symmetry.
      apply levelAt_write_ne. intros HMd.
      assert (d' = a) as -> by by eapply (M_inj nodes0).
      apply list_elem_of_lookup_2 in Hd'. specialize (Hoff a Hd').
      set_solver.
    + cbn [DAGNode.dependencies DAGNode.set_level].
      rewrite Hdm. intros d' Hd'. split; [by apply Hd2|].
      specialize (Hoff d' Hd'). set_solver.
  - destruct (settled_write_others ({[a]} ∪ stack) st2 a i
                (max_list ls + 1) b j n) as [Heq Hd]; try done.
    + left. set_solver.
    + set_solver.
    + split; [done|]. intros d' Hd'. destruct (Hd d' Hd').
      unfold writeLevel. cbn [visited]. set_solver.
Qed.

Lemma calculateAll_settled fuel ids' : ∀ st st',
  calculateAll M fuel ids' st = Some st' →
  skeleton (nodes st) = nodes0 → settled M ∅ st →
  skeleton (nodes st') = nodes0 ∧ settled M ∅ st' ∧
  visited st ⊆ visited st' ∧ ∀ a, a ∈ ids' → a ∈ visited st'.
Proof.
  induction ids' as [|a ids' IH]; intros st st' H Hsk Hst.
  - injection H as <-. split_and!; try done. by intros ? ?%elem_of_nil.
  - simpl in H.
    destruct (calculateLevel M fuel a st) as [[l st1]|] eqn:E; [|done].
    pose proof (calculateLevel_post _ _ _ _ _ _ E Hsk)
      as (Hsk1 & Hv1 & Ha1 & _).
    assert (settled M ∅ st1) as Hst1.
    { eapply calculateLevel_settled; [done|done|done| |];
        intros; set_solver. }
    destruct (IH _ _ H Hsk1 Hst1) as (Hsk' & Hst' & Hv' & Hall).
    split_and!; try done; [set_solver|].
    intros b [->|?]%elem_of_cons; [set_solver|by apply Hall].
Qed.

End Acyclic.

(** ** The final sort *)

Section Sorting.

Lemma insertNode_perm n l : insertNode n l ≡ₚ n :: l.
Proof.
  induction l as [|m l IH]; simpl; [done|].
  destruct (DAGNode.level n <=? DAGNode.level m); [done|].
  rewrite IH. apply Permutation_swap.
Qed.

Lemma sortByLevel_perm l : sortByLevel l ≡ₚ l.
Proof.
  induction l as [|n l IH]; simpl; [done|].
  by rewrite insertNode_perm, IH.
Qed.

Lemma insertNode_HdRel n m l :
  levelLe m n → HdRel levelLe m l → HdRel levelLe m (insertNode n l).
Proof.
  intros Hmn Hl. destruct l as [|x l]; simpl.
  - by constructor.
  - destruct (DAGNode.level n <=? DAGNode.level x); constructor;
      [done|]. by inversion Hl.
Qed.

Lemma insertNode_Sorted n l :
  Sorted levelLe l → Sorted levelLe (insertNode n l).
Proof.
  induction 1 as [|m l Hs IH Hhd]; simpl.
  - repeat constructor.
  - destruct (DAGNode.level n <=? DAGNode.level m) eqn:E.
    + apply Nat.leb_le in E. repeat constructor; done.
    + apply Nat.leb_gt in E. constructor; [done|].
      apply insertNode_HdRel; [|done]. unfold levelLe. lia.
Qed.

Lemma sortByLevel_Sorted l : Sorted levelLe (sortByLevel l).
Proof.
  induction l as [|n l IH]; simpl; [constructor|].
  by apply insertNode_Sorted.
Qed.

Lemma Sorted_adjacent l : Sorted levelLe l →
  ∀ i a b, l !! i = Some a → l !! (S i) = Some b → levelLe a b.
Proof.
  induction 1 as [|m l Hs IH Hhd]; intros i a b Ha Hb; [done|].
  destruct i as [|i]; simpl in *.
  - injection Ha as ->. destruct l as [|x l]; [done|].
    simpl in Hb. injection Hb as ->. by inversion Hhd.
  - by eapply IH.
Qed.

(** Insertion keeps the nodes of each level in their order. *)
Lemma insertNode_atLevel k n l :
  atLevel k (insertNode n l) = atLevel k (n :: l).
Proof.
  unfold atLevel. induction l as [|m l IH]; simpl; [done|].
  destruct (DAGNode.level n <=? DAGNode.level m) eqn:E; [done|].
  apply Nat.leb_gt in E.
  rewrite (filter_cons _ m), IH, !filter_cons.
  repeat case_decide; try done; lia.
Qed.

Lemma sortByLevel_atLevel k l : atLevel k (sortByLevel l) = atLevel k l.
Proof.
  induction l as [|n l IH]; simpl; [done|].
  rewrite insertNode_atLevel. unfold atLevel in *.
  by rewrite !filter_cons, IH.
Qed.

End Sorting.

(** ** buildDAG *)

Section BuildDAG.

#[local] Instance issueId_inj : Inj (=) (=) issueId.
Proof.
  intros a b H. unfold issueId in H.
  apply (inj (String.app "issue-")) in H. by apply (inj pretty) in H.
Qed.

Lemma newNode_ids (issues : list Issue.t) :
  DAGNode.id <$> (newNode <$> issues)
  = issueId <$> (Issue.number <$> issues).
Proof. rewrite <-!list_fmap_compose. done. Qed.

Lemma skeleton_newNode (issues : list Issue.t) :
  skeleton (newNode <$> issues) = newNode <$> issues.
Proof. unfold skeleton. rewrite <-list_fmap_compose. done. Qed.

Lemma skeleton_ids l : DAGNode.id <$> skeleton l = DAGNode.id <$> l.
Proof. unfold skeleton. rewrite <-list_fmap_compose. done. Qed.

Lemma skeleton_length l : length (skeleton l) = length l.
Proof. unfold skeleton. by rewrite length_fmap. Qed.

Lemma settled_init nodes0 :
  settled (mkNodeMap nodes0) ∅ (mkLevelState ∅ nodes0).
Proof. intros a i n Ha. cbn in Ha. set_solver. Qed.

(** The nodes before the sort: always computed, one per issue and in
    the order of the issues. *)
Lemma leveledNodes_total fuel issues :
  length issues < fuel →
  ∃ pre, leveledNodes fuel issues = Some pre ∧
         skeleton pre = newNode <$> issues.
Proof.
  intros Hfuel. unfold leveledNodes.
  destruct (calculateAll_total (newNode <$> issues) fuel
              (DAGNode.id <$> (newNode <$> issues))
              (mkLevelState ∅ (newNode <$> issues)))
    as (st & -> & Hsk & _).
  - apply skeleton_newNode.
  - unfold unvisited. cbn [visited].
    eapply Nat.le_lt_trans; [apply length_filter|].
    by rewrite !length_fmap.
  - by exists (nodes st).
Qed.

Lemma leveledNodes_fuel fuel fuel' issues pre :
  fuel ≤ fuel' → leveledNodes fuel issues = Some pre →
  leveledNodes fuel' issues = Some pre.
Proof.
  unfold leveledNodes. intros Hle.
  destruct (calculateAll _ fuel _ _) as [st|] eqn:E; [|done].
  by rewrite (calculateAll_mono _ _ _ _ _ _ Hle E).
Qed.

Lemma levelOf_unique dag m :
  NoDup (DAGNode.id <$> dag) → m ∈ dag →
  levelOf dag (DAGNode.id m) = DAGNode.level m.
Proof.
  intros Hnd Hm. unfold levelOf.
  destruct (list_find _ dag) as [[i x]|] eqn:E.
  - apply list_find_Some in E as (Hi & Hx & _).
    apply list_elem_of_lookup in Hm as [j Hj].
    assert (i = j) as ->; [|congruence].
    eapply NoDup_lookup; [done| |].
    + by rewrite list_lookup_fmap, Hi.
    + rewrite list_lookup_fmap, Hj. simpl. by rewrite Hx.
  - apply list_find_None in E. eapply Forall_forall in E; [|done].
    done.
Qed.

Lemma levelOf_absent dag d : d ∉ DAGNode.id <$> dag → levelOf dag d = 0.
Proof.
  intros Hd. unfold levelOf.
  destruct (list_find _ dag) as [[i x]|] eqn:E; [|done].
  apply list_find_Some in E as (Hi & Hx & _). exfalso. apply Hd.
  apply list_elem_of_fmap. exists x. split; [done|].
  by eapply list_elem_of_lookup_2.
Qed.

(** What is read through the node map is the level of the node of that
    name in any rearrangement of the array. *)
Lemma levelAt_levelOf nodes0 pre dag d :
  NoDup (DAGNode.id <$> nodes0) → skeleton pre = nodes0 → dag ≡ₚ pre →
  levelAt (mkNodeMap nodes0) pre d = levelOf dag d.
Proof.
  intros Hnd Hsk Hperm.
  assert (DAGNode.id <$> dag ≡ₚ DAGNode.id <$> nodes0) as Hids.
  { rewrite Hperm, <-Hsk. by rewrite skeleton_ids. }
  unfold levelAt.
  destruct (getNode (mkNodeMap nodes0) pre d) as [[i n]|] eqn:Hget.
  - destruct (getNode_Some _ _ _ _ _ Hsk Hget) as (_ & Hi & <- & _).
    symmetry. apply levelOf_unique.
    + by rewrite Hids.
    + rewrite Hperm. by eapply list_elem_of_lookup_2.
  - symmetry. apply levelOf_absent. rewrite Hids.
    apply mkNodeMap_None.
    destruct (mkNodeMap nodes0 !! d) as [i|] eqn:HM; [|done].
    exfalso. by eapply (getNode_None nodes0 pre d i).
Qed.

(** The levels that buildDAG computes on an acyclic input whose issue
    numbers are pairwise distinct. *)
Lemma buildDAG_levels issues dag :
  NoDup (Issue.number <$> issues) → acyclic issues →
  buildDAG issues = Some dag →
  NoDup (DAGNode.id <$> dag) ∧
  ∀ n, n ∈ dag →
    DAGNode.level n
    = match DAGNode.dependencies n with
      | [] => 0
      | deps => max_list (levelOf dag <$> deps) + 1
      end.
Proof.
  intros Hnd Hacyc Hbuild.
  set (nodes0 := newNode <$> issues).
  assert (NoDup (DAGNode.id <$> nodes0)) as Hnd0.
  { unfold nodes0. rewrite newNode_ids. by apply (NoDup_fmap_2 issueId). }
  unfold buildDAG, buildDAG_fuel, leveledNodes in Hbuild.
  fold nodes0 in Hbuild.
  destruct (calculateAll _ _ _ _) as [st|] eqn:Hall; [|done].
  injection Hbuild as <-.
  destruct (calculateAll_settled nodes0 Hacyc _ _ _ _ Hall)
    as (Hsk & Hst & _ & Hvis).
  { apply skeleton_newNode. }
  { apply settled_init. }
  pose proof (sortByLevel_perm (nodes st)) as Hperm.
  assert (DAGNode.id <$> nodes st = DAGNode.id <$> nodes0) as Hids.
  { by rewrite <-Hsk, skeleton_ids. }
  split.
  { by rewrite Hperm, Hids. }
  intros n Hn. rewrite Hperm in Hn.
  apply list_elem_of_lookup in Hn as [i Hi].
  assert (mkNodeMap nodes0 !! DAGNode.id n = Some i) as HM.
  { pose proof (skeleton_lookup _ _ _ _ Hsk Hi) as Hi0.
    by apply (mkNodeMap_NoDup nodes0 i) in Hi0. }
  destruct (Hst (DAGNode.id n) i n) as [Heq _]; try done.
  { apply Hvis. rewrite <-Hids. apply list_elem_of_fmap. exists n.
    split; [done|]. by eapply list_elem_of_lookup_2. }
  unfold levelEquation in Heq.
  destruct (DAGNode.dependencies n) as [|d deps]; [done|].
  rewrite Heq. do 2 f_equal. apply list_fmap_ext. intros ? d' _.
  by apply levelAt_levelOf.
Qed.

(** A ranking that decreases along the edges rules out cycles. *)
Lemma decreasesAlongEdges_acyclic rank issues :
  decreasesAlongEdges rank (newNode <$> issues) = true → acyclic issues.
Proof.
  intros Hcheck.
  assert (∀ a b, depEdge (newNode <$> issues) a b → rank b < rank a)
    as Hedge.
  { intros a b (n & Hn & <- & Hb & Hin).
    unfold decreasesAlongEdges in Hcheck.
    rewrite forallb_forall in Hcheck.
    specialize (Hcheck n (proj1 (list_elem_of_In _ _) Hn)).
    rewrite forallb_forall in Hcheck.
    specialize (Hcheck b (proj1 (list_elem_of_In _ _) Hb)).
    destruct (decide (b ∈ _)); [|done]. by apply Nat.ltb_lt. }
  assert (∀ a b, tc (depEdge (newNode <$> issues)) a b → rank b < rank a)
    as Htc.
  { induction 1 as [a b H|a b c H _ IH].
    - by apply Hedge.
    - apply Hedge in H. lia. }
  intros a Ha. apply Htc in Ha. lia.
Qed.

End BuildDAG.


(** C1, refuted as stated: with the issue #2 supplied twice the input is
    acyclic, but the first of the two nodes of #2, whose one dependency #1
    is resolvable at level 0, is left at level 0 and not at 1. *)
Lemma level_rule_fails_on_repeated_issue :
  acyclic repeatedIssues ∧
  ∃ dag n, buildDAG repeatedIssues = Some dag ∧ n ∈ dag ∧
           ¬ levelRule dag n.
Proof.
  split.
  - apply (decreasesAlongEdges_acyclic
             (rankOf [("issue-1", 0); ("issue-2", 1)])).
    by vm_compute.
  - eexists _, (DAGNode.mk "issue-2" 2 (lit "task") ["issue-1"] 0).
    split; [by vm_compute|]. split.
    + apply list_elem_of_lookup. exists 1. by vm_compute.
    + intros [_ Hrule].
      assert (Hres : Forall
                (resolvable
                   [DAGNode.mk "issue-1" 1 (lit "task") [] 0;
                    DAGNode.mk "issue-2" 2 (lit "task") ["issue-1"] 0;
                    DAGNode.mk "issue-2" 2 (lit "task") ["issue-1"] 1])
                ["issue-1"]).
      { repeat constructor. }
      specialize (Hrule ltac:(done) Hres). by vm_compute in Hrule.
Qed.

(** C1, amended: for every acyclic list of issues with pairwise distinct
    numbers, buildDAG gives every node without dependencies the level 0,
    and every node whose dependencies are all resolvable, and not none, the
    level 1 + max of the levels of its dependencies. *)
Theorem buildDAG_level_rule issues dag n :
  NoDup (Issue.number <$> issues) → acyclic issues →
  buildDAG issues = Some dag → n ∈ dag → levelRule dag n.
Proof.
  intros Hnd Hacyc Hbuild Hn.
  destruct (buildDAG_levels issues dag Hnd Hacyc Hbuild) as [_ Hlev].
  specialize (Hlev n Hn). unfold levelRule. split.
  - intros Hd. by rewrite Hd in Hlev.
  - intros Hd _. destruct (DAGNode.dependencies n); [done|]. lia.
Qed.

Lemma buildDAG_level_rule_witness :
  NoDup (Issue.number <$> chainIssues) ∧ acyclic chainIssues ∧
  ∃ dag n, buildDAG chainIssues = Some dag ∧ n ∈ dag ∧
           DAGNode.number n = 3%N ∧ levelRule dag n.
Proof.
  assert (Hnd : NoDup (Issue.number <$> chainIssues)) by compute_done.
  assert (Hacyc : acyclic chainIssues).
  { apply (decreasesAlongEdges_acyclic
             (rankOf [("issue-1", 0); ("issue-2", 1); ("issue-3", 2)])).
    by vm_compute. }
  split; [done|]. split; [done|].
  eexists _, (DAGNode.mk "issue-3" 3 (lit "task") ["issue-1"; "issue-2"] 2).
  assert (Hbuild : buildDAG chainIssues
                   = Some [DAGNode.mk "issue-1" 1 (lit "task") [] 0;
                           DAGNode.mk "issue-2" 2 (lit "task") ["issue-1"] 1;
                           DAGNode.mk "issue-3" 3 (lit "task")
                             ["issue-1"; "issue-2"] 2]) by (by vm_compute).
  split; [exact Hbuild|].
  assert (Hin : DAGNode.mk "issue-3" 3 (lit "task") ["issue-1"; "issue-2"] 2
                ∈ [DAGNode.mk "issue-1" 1 (lit "task") [] 0;
                   DAGNode.mk "issue-2" 2 (lit "task") ["issue-1"] 1;
                   DAGNode.mk "issue-3" 3 (lit "task")
                     ["issue-1"; "issue-2"] 2]).
  { apply list_elem_of_lookup. by exists 2. }
  split; [exact Hin|]. split; [done|].
  exact (buildDAG_level_rule chainIssues _ _ Hnd Hacyc Hbuild Hin).
Defined.

(** C2, refuted as stated: with the issue #2 supplied twice the input is
    acyclic, but the first node of #2 depends on #1, which is in the node
    map, and both are at level 0. *)
Lemma level_not_above_on_repeated_issue :
  acyclic repeatedIssues ∧
  ∃ dag n m, buildDAG repeatedIssues = Some dag ∧ n ∈ dag ∧ m ∈ dag ∧
             DAGNode.id m ∈ DAGNode.dependencies n ∧
             ¬ DAGNode.level m < DAGNode.level n.
Proof.
  split.
  - apply (decreasesAlongEdges_acyclic
             (rankOf [("issue-1", 0); ("issue-2", 1)])).
    by vm_compute.
  - eexists _, (DAGNode.mk "issue-2" 2 (lit "task") ["issue-1"] 0),
      (DAGNode.mk "issue-1" 1 (lit "task") [] 0).
    split; [by vm_compute|]. split_and!.
    + apply list_elem_of_lookup. exists 1. by vm_compute.
    + apply list_elem_of_lookup. exists 0. by vm_compute.
    + cbn. by left.
    + cbn. lia.
Qed.

(** C2, amended: for every acyclic list of issues with pairwise distinct
    numbers, every node of the result is at a level above the level of each
    of its dependencies that names a node. *)
Theorem buildDAG_level_above_dependencies issues dag n m :
  NoDup (Issue.number <$> issues) → acyclic issues →
  buildDAG issues = Some dag →
  n ∈ dag → m ∈ dag → DAGNode.id m ∈ DAGNode.dependencies n →
  DAGNode.level m < DAGNode.level n.
Proof.
  intros Hnd Hacyc Hbuild Hn Hm Hdep.
  destruct (buildDAG_levels issues dag Hnd Hacyc Hbuild) as [Hids Hlev].
  rewrite (Hlev n Hn).
  destruct (DAGNode.dependencies n) as [|d deps] eqn:Hd.
  { by apply elem_of_nil in Hdep. }
  rewrite <-(levelOf_unique dag m Hids Hm).
  assert (levelOf dag (DAGNode.id m) ≤ max_list (levelOf dag <$> d :: deps));
    [|lia].
  apply max_list_elem_of_le, list_elem_of_fmap. eauto.
Qed.

Lemma buildDAG_level_above_dependencies_witness :
  NoDup (Issue.number <$> chainIssues) ∧ acyclic chainIssues ∧
  ∃ dag n m, buildDAG chainIssues = Some dag ∧ n ∈ dag ∧ m ∈ dag ∧
             DAGNode.id m ∈ DAGNode.dependencies n ∧
             DAGNode.level m < DAGNode.level n.
Proof.
  assert (Hnd : NoDup (Issue.number <$> chainIssues)) by compute_done.
  assert (Hacyc : acyclic chainIssues).
  { apply (decreasesAlongEdges_acyclic
             (rankOf [("issue-1", 0); ("issue-2", 1); ("issue-3", 2)])).
    by vm_compute. }
  split; [done|]. split; [done|].
  eexists _, (DAGNode.mk "issue-3" 3 (lit "task") ["issue-1"; "issue-2"] 2),
    (DAGNode.mk "issue-2" 2 (lit "task") ["issue-1"] 1).
  assert (Hbuild : buildDAG chainIssues
                   = Some [DAGNode.mk "issue-1" 1 (lit "task") [] 0;
                           DAGNode.mk "issue-2" 2 (lit "task") ["issue-1"] 1;
                           DAGNode.mk "issue-3" 3 (lit "task")
                             ["issue-1"; "issue-2"] 2]) by (by vm_compute).
  split; [exact Hbuild|].
  assert (Hn : DAGNode.mk "issue-3" 3 (lit "task") ["issue-1"; "issue-2"] 2
               ∈ [DAGNode.mk "issue-1" 1 (lit "task") [] 0;
                  DAGNode.mk "issue-2" 2 (lit "task") ["issue-1"] 1;
                  DAGNode.mk "issue-3" 3 (lit "task")
                    ["issue-1"; "issue-2"] 2]).
  { apply list_elem_of_lookup. by exists 2. }
  assert (Hm : DAGNode.mk "issue-2" 2 (lit "task") ["issue-1"] 1
               ∈ [DAGNode.mk "issue-1" 1 (lit "task") [] 0;
                  DAGNode.mk "issue-2" 2 (lit "task") ["issue-1"] 1;
                  DAGNode.mk "issue-3" 3 (lit "task")
                    ["issue-1"; "issue-2"] 2]).
  { apply list_elem_of_lookup. by exists 1. }
  assert (Hdep : DAGNode.id (DAGNode.mk "issue-2" 2 (lit "task")
                               ["issue-1"] 1)
                 ∈ DAGNode.dependencies
                     (DAGNode.mk "issue-3" 3 (lit "task")
                        ["issue-1"; "issue-2"] 2)).
  { cbn. apply elem_of_cons. right. apply elem_of_cons. by left. }
  split; [exact Hn|]. split; [exact Hm|]. split; [exact Hdep|].
  exact (buildDAG_level_above_dependencies chainIssues _ _ _
           Hnd Hacyc Hbuild Hn Hm Hdep).
Defined.

(** C3: the list that buildDAG returns is in non-decreasing order of
    level, and it is a rearrangement of the nodes taken in the order of the
    issues supplied in which the nodes of each level keep that order. *)
Theorem buildDAG_sorted_stable (issues : list Issue.t) :
  ∃ dag pre,
    buildDAG issues = Some dag ∧
    (∀ i a b, dag !! i = Some a → dag !! (S i) = Some b →
              DAGNode.level a ≤ DAGNode.level b) ∧
    skeleton pre = newNode <$> issues ∧
    dag ≡ₚ pre ∧
    ∀ l, atLevel l dag = atLevel l pre.
Proof.
  destruct (leveledNodes_total (S (length issues)) issues)
    as (pre & Hpre & Hsk); [lia|].
  exists (sortByLevel pre), pre. unfold buildDAG, buildDAG_fuel.
  rewrite Hpre. split_and!.
  - done.
  - apply (Sorted_adjacent _ (sortByLevel_Sorted pre)).
  - done.
  - apply sortByLevel_perm.
  - intros l. apply sortByLevel_atLevel.
Qed.

(** ** ReviewAgent *)

Section Review.

Import ReviewAgent.

Lemma review_fields env :
  score (review env)
  = Math_round (weighted (typeScriptScore (review env))
                  (eslintScore (review env)) (securityScore (review env))
                  (complexityScore (review env))) ∧
  passed (review env) = (threshold <=? score (review env))%Z ∧
  checkTypeScript env
  = (fst (fst (checkTypeScript env)), typeScriptErrors (review env),
     typeScriptScore (review env)) ∧
  checkESLint env
  = (fst (fst (fst (checkESLint env))), eslintErrors (review env),
     eslintWarnings (review env), eslintScore (review env)) ∧
  checkSecurity env
  = (fst (fst (checkSecurity env)), vulnerabilities (review env),
     securityScore (review env)) ∧
  complexityScore (review env) = checkComplexity env.
Proof.
  unfold review.
  destruct (checkTypeScript env) as [[? ?] ?].
  destruct (checkESLint env) as [[[? ?] ?] ?].
  destruct (checkSecurity env) as [[? ?] ?]. done.
Qed.

Lemma checkTypeScript_score env issues errors sc :
  checkTypeScript env = (issues, errors, sc) →
  sc = Z.max 0 (100 - 10 * Z.of_nat errors).
Proof.
  unfold checkTypeScript. destruct (tsc env) as [out|].
  - intros [= _ <- <-]. f_equal. lia.
  - by intros [= _ <- <-].
Qed.

Lemma checkESLint_score env issues errors warnings sc :
  checkESLint env = (issues, errors, warnings, sc) →
  sc = Z.max 0 (100 - 5 * Z.of_nat errors - 2 * Z.of_nat warnings).
Proof.
  unfold checkESLint. destruct (eslint env) as [results|].
  - destruct (length (filter _ _)) as [|e] eqn:He;
      destruct (length (filter (λ i, severity i ≠ error) _)) as [|w] eqn:Hw;
      intros [= _ <- <- <-]; lia.
  - by intros [= _ <- <- <-].
Qed.

Lemma checkSecurity_score env issues vulns sc :
  checkSecurity env = (issues, vulns, sc) →
  sc = Z.max 0 (100 - 10 * Z.of_nat vulns).
Proof.
  unfold checkSecurity. destruct (sum_list _) as [|v].
  - by intros [= _ <- <-].
  - intros [= _ <- <-]. lia.
Qed.

Lemma max_tens (k : nat) : Z.max 0 (100 - 10 * Z.of_nat k) ∈ tens.
Proof.
  destruct (decide (10 ≤ k)) as [Hk|Hk].
  - replace (Z.max 0 (100 - 10 * Z.of_nat k)) with 0%Z by lia.
    unfold tens. set_solver.
  - do 10 (destruct k as [|k]; [compute_done|]). lia.
Qed.

Lemma checkComplexity_range env : (0 ≤ checkComplexity env ≤ 100)%Z.
Proof.
  unfold checkComplexity.
  set (avg := avgComplexity env).
  assert (∀ q : Q, (0 <= q)%Q → (q <= 100)%Q →
                   (0 ≤ Qfloor (q + (1 # 2)) ≤ 100)%Z) as Hround.
  { intros q H0 H100. split.
    - change 0%Z with (Qfloor (0 + (1 # 2))). apply Qfloor_resp_le.
      by apply Qplus_le_l.
    - change 100%Z with (Qfloor (100 + (1 # 2))). apply Qfloor_resp_le.
      by apply Qplus_le_l. }
  destruct (Qlt_le_dec 10 avg) as [Hgt|Hle].
  - apply Hround.
    + apply Q.le_max_l.
    + apply Q.max_lub; [done|]. lra.
  - by apply Hround.
Qed.

Lemma forallb_elem {A} (f : A → bool) (l : list A) x :
  forallb f l = true → x ∈ l → f x = true.
Proof.
  intros H Hx. rewrite forallb_forall in H. apply H.
  by apply list_elem_of_In.
Qed.

Lemma digits2_pos_bound m : (Z.pos m < 2 ^ Z.pos (digits2_pos m))%Z.
Proof.
  induction m as [m IH|m IH|]; cbn [digits2_pos].
  - rewrite Pos2Z.inj_succ, Z.pow_succ_r by lia. lia.
  - rewrite Pos2Z.inj_succ, Z.pow_succ_r by lia. lia.
  - done.
Qed.

Lemma valid_mantissa_bound s m e :
  valid_binary (S754_finite s m e) = true → (Z.pos m < 2 ^ 53)%Z.
Proof.
  cbn [valid_binary]. unfold bounded, canonical_mantissa, fexp, emin.
  intros [H _]%andb_true_iff. apply Z.eqb_eq in H.
  pose proof (digits2_pos_bound m) as Hm.
  eapply Z.lt_le_trans; [exact Hm|].
  apply Z.pow_le_mono_r; [lia|]. change prec with 53%Z in H.
  change emax with 1024%Z in H. lia.
Qed.

Lemma Math_round_in_range x :
  inRangeF x = true → (0 ≤ Math_round x ≤ 100)%Z.
Proof.
  unfold inRangeF. intros [Hlt Hle]%andb_true_iff.
  rewrite FloatAxioms.ltb_spec in Hlt. rewrite FloatAxioms.leb_spec in Hle.
  pose proof (Prim2SF_valid x) as Hvalid.
  unfold Math_round.
  change (Prim2SF 100.5) with (S754_finite false 7072058789855232 (-46))
    in Hlt.
  change (Prim2SF (-0.5)) with (S754_finite true 4503599627370496 (-53))
    in Hle.
  destruct (Prim2SF x) as [?|?| |s m e]; try done.
  apply valid_mantissa_bound in Hvalid.
  unfold SFltb, SFleb, SFcompare in Hlt, Hle.
  destruct s.
  - (* x < 0: at least -1/2 *)
    assert (e < -53 ∨ e = -53 ∧ Z.pos m ≤ 4503599627370496)%Z as Hcases.
    { destruct (Z.compare_spec (-53) e) as [Heq|Hlt'|Hgt'].
      - right. split; [lia|].
        pose proof (Pos.compare_spec 4503599627370496 m) as Hc.
        unfold Pos.compare in Hc.
        destruct Hc as [Hc|Hc|Hc]; [|discriminate Hle|].
        + rewrite <-Hc. apply Z.le_refl.
        + apply Z.lt_le_incl. by apply Pos2Z.pos_lt_pos.
      - discriminate Hle.
      - left. lia. }
    assert (e < 0)%Z as He by lia.
    rewrite (proj2 (Z.leb_gt 0 e) He).
    rewrite Z.shiftr_div_pow2, !Z.shiftl_mul_pow2 by lia.
    replace (1 - e)%Z with (Z.succ (- e)) by lia.
    rewrite Z.pow_succ_r by lia.
    assert (2 ^ 53 ≤ 2 ^ (- e) ∧ (e < -53 → 2 ^ 54 ≤ 2 ^ (- e)))%Z as [HP HP'].
    { split; [|intros]; apply Z.pow_le_mono_r; lia. }
    set (P := (2 ^ (- e))%Z) in *.
    change (2 ^ 1)%Z with 2%Z.
    change (2 ^ 53)%Z with 9007199254740992%Z in *.
    change (2 ^ 54)%Z with 18014398509481984%Z in *.
    assert ((Z.neg m * 2 + 1 * P) / (2 * P) = 0)%Z as ->; [|lia].
    apply Z.div_small. lia.
  - (* 0 < x < 100.5 *)
    assert (e < -46 ∨ e = -46 ∧ Z.pos m < 7072058789855232)%Z as Hcases.
    { destruct (Z.compare_spec e (-46)) as [Heq|Hlt'|Hgt'].
      - right. split; [done|].
        pose proof (Pos.compare_spec m 7072058789855232) as Hc.
        unfold Pos.compare in Hc.
        destruct Hc as [Hc|Hc|Hc]; [discriminate Hlt| |discriminate Hlt].
        by apply Pos2Z.pos_lt_pos.
      - left. lia.
      - discriminate Hlt. }
    assert (e < 0)%Z as He by lia.
    rewrite (proj2 (Z.leb_gt 0 e) He).
    rewrite Z.shiftr_div_pow2, !Z.shiftl_mul_pow2 by lia.
    replace (1 - e)%Z with (Z.succ (- e)) by lia.
    rewrite Z.pow_succ_r by lia.
    assert (2 ^ 46 ≤ 2 ^ (- e) ∧ (e < -46 → 2 ^ 47 ≤ 2 ^ (- e)))%Z as [HP HP'].
    { split; [|intros]; apply Z.pow_le_mono_r; lia. }
    assert (e = -46 → 2 ^ (- e) = 2 ^ 46)%Z as HP''.
    { by intros ->. }
    set (P := (2 ^ (- e))%Z) in *.
    change (2 ^ 1)%Z with 2%Z.
    change (2 ^ 53)%Z with 9007199254740992%Z in *.
    change (2 ^ 46)%Z with 70368744177664%Z in *.
    change (2 ^ 47)%Z with 140737488355328%Z in *.
    split.
    + apply Z.div_pos; lia.
    + assert ((Z.pos m * 2 + 1 * P) / (2 * P) < 101)%Z; [|lia].
      apply Z.div_lt_upper_bound; [lia|].
      destruct Hcases as [Hlow|[He46 Hm]].
      * specialize (HP' Hlow). lia.
      * specialize (HP'' He46). lia.
Qed.

(** The test over the 11 * 101 * 11 * 101 quadruples of sub-scores; the
    partial sums are those of [weighted]. *)
Lemma allTotalsInRange_true :
  forallb (λ t, let a := (toNumber t * 0.3)%float in
    forallb (λ e, let b := (a + toNumber e * 0.3)%float in
      forallb (λ s, let q := (b + toNumber s * 0.3)%float in
        forallb (λ c, inRangeF (q + toNumber c * 0.1)) (seqZ 0 101)) tens)
      (seqZ 0 101)) tens = true.
Proof. vm_compute. reflexivity. Qed.

Lemma total_in_range t e s c :
  t ∈ tens → (0 ≤ e ≤ 100)%Z → s ∈ tens → (0 ≤ c ≤ 100)%Z →
  (0 ≤ Math_round (weighted t e s c) ≤ 100)%Z.
Proof.
  intros Ht He Hs Hc.
  assert (e ∈ seqZ 0 101) as He' by (apply elem_of_seqZ; lia).
  assert (c ∈ seqZ 0 101) as Hc' by (apply elem_of_seqZ; lia).
  assert (forallb (λ e, let b := (toNumber t * 0.3 + toNumber e * 0.3)%float in
            forallb (λ s, let q := (b + toNumber s * 0.3)%float in
              forallb (λ c, inRangeF (q + toNumber c * 0.1)) (seqZ 0 101))
              tens) (seqZ 0 101) = true) as H1.
  { exact (forallb_elem _ tens t allTotalsInRange_true Ht). }
  assert (forallb (λ s,
            let q := (toNumber t * 0.3 + toNumber e * 0.3
                      + toNumber s * 0.3)%float in
            forallb (λ c, inRangeF (q + toNumber c * 0.1)) (seqZ 0 101))
            tens = true) as H2.
  { exact (forallb_elem _ (seqZ 0 101) e H1 He'). }
  assert (forallb (λ c, inRangeF (weighted t e s c)) (seqZ 0 101) = true)
    as H3.
  { exact (forallb_elem _ tens s H2 Hs). }
  apply Math_round_in_range.
  exact (forallb_elem _ (seqZ 0 101) c H3 Hc').
Qed.

(** C7: the review passes exactly when the total score is at least the
    threshold 80; a total of exactly 80 passes and a total of 79 fails, and
    both totals occur. *)
Theorem review_passed_iff_threshold :
  (∀ env, passed (review env) = true ↔ (80 ≤ score (review env))%Z) ∧
  (∀ env, score (review env) = 80%Z → passed (review env) = true) ∧
  (∀ env, score (review env) = 79%Z → passed (review env) = false) ∧
  (score (review (reviewEnvOf 6 3)) = 80%Z ∧
   passed (review (reviewEnvOf 6 3)) = true) ∧
  (score (review (reviewEnvOf 7 0)) = 79%Z ∧
   passed (review (reviewEnvOf 7 0)) = false).
Proof.
  assert (∀ env, passed (review env) = true ↔ (80 ≤ score (review env))%Z)
    as Hiff.
  { intros env. destruct (review_fields env) as (_ & -> & _).
    unfold threshold. apply Z.leb_le. }
  split_and!.
  - done.
  - intros env H. apply Hiff. lia.
  - intros env H. destruct (passed (review env)) eqn:E; [|done].
    apply Hiff in E. lia.
  - by vm_compute.
  - by vm_compute.
  - by vm_compute.
  - by vm_compute.
Qed.


(** The sum is taken in binary64: for the sub-scores 0, 9, 10 and 8 the
    exact weighted sum is 6.5, the program computes 6.499999999999999 and
    the total is 6, where rounding the exact sum half up gives 7. *)
Remark review_total_is_binary64 :
  typeScriptScore (review tieEnv) = 0%Z ∧
  eslintScore (review tieEnv) = 9%Z ∧
  securityScore (review tieEnv) = 10%Z ∧
  complexityScore (review tieEnv) = 8%Z ∧
  score (review tieEnv) = 6%Z ∧
  exactWeighted 0 9 10 8 = 7%Z.
Proof. by vm_compute. Qed.

End Review.

(** ** executeIssue *)

Section ExecuteIssue.

Lemma tryBlock_Threw dryRun env m :
  tryBlock dryRun env = Threw m ↔ stageThrows dryRun env m.
Proof.
  split.
  - unfold tryBlock. intros H.
    destruct dryRun.
    + cbn in H.
      destruct (generateCode env) as [r|m'] eqn:Eg.
      2:{ injection H as <-. apply generate_throws; [by left|done]. }
      cbn in H. destruct (success r) eqn:Es; cbn in H.
      2:{ injection H as <-. by eapply generate_fails; [left|..]. }
      destruct (ReviewAgent.passed _) eqn:Ep; cbn in H; [done|].
      injection H as <-. by eapply review_fails; [left|..].
    + destruct (issueAddLabels env) as [[]|m'] eqn:El; cbn in H.
      2:{ injection H as <-. by apply classify_throws. }
      destruct (generateCode env) as [r|m'] eqn:Eg; cbn in H.
      2:{ injection H as <-. apply generate_throws; [by right|done]. }
      destruct (success r) eqn:Es; cbn in H.
      2:{ injection H as <-. by eapply generate_fails; [right|..]. }
      destruct (writeFiles env) as [[]|m'] eqn:Ew; cbn in H.
      2:{ injection H as <-. by eapply write_throws. }
      destruct (ReviewAgent.passed _) eqn:Ep; cbn in H.
      2:{ injection H as <-. by eapply review_fails; [right|..]. }
      destruct (createPR env) as [pr|m'] eqn:Epr; cbn in H.
      2:{ injection H as <-. by eapply publish_throws. }
      destruct (prSuccess pr) eqn:Eps; cbn in H; [done|].
      injection H as <-. by eapply publish_fails.
  - unfold tryBlock.
    destruct 1 as [m Hd Ha|m Hl Hg|r Hl Hg Hs|r m Hd Ha Hg Hs Hw
                   |r Hl Hg Hs Hp|r m Hd Ha Hg Hs Hw Hp Hpr
                   |r pr Hd Ha Hg Hs Hw Hp Hpr Hps].
    all: try match type of Hl with _ ∨ _ => destruct Hl as [Hd|Hl] end.
    all: try match type of Hl with _ ∧ _ => destruct Hl as [Hl Hw] end.
    all: repeat (match goal with
                 | H : ?x = _ |- context [?x] => rewrite H
                 end; cbn [mbind Outcome_bind negb]).
    all: try done.
    all: by destruct dryRun.
Qed.

(** Every run of [executeIssue] appends one record; the record is a
    failure exactly when the run throws, and then it holds the message. *)
Lemma executeIssue_log issue dryRun env w :
  ∃ status,
    executionLog (snd (executeIssue issue dryRun env w))
    = executionLog w
      ++ [mkLogEntry (Issue.number issue) (Issue.title issue) (elapsed env)
            status] ∧
    trace (snd (executeIssue issue dryRun env w)) = trace w ∧
    match fst (executeIssue issue dryRun env w) with
    | Threw m => status = LogFailed m ∧ tryBlock dryRun env = Threw m
    | Returned _ =>
        (∃ q f e wa i, status = LogSuccess q f e wa i) ∧
        ∃ res, tryBlock dryRun env = Returned res
    end.
Proof.
  unfold executeIssue. cbn [now].
  replace (now w + elapsed env - now w)%N with (elapsed env) by lia.
  destruct (tryBlock dryRun env) as [[codeResult reviewResult]|m].
  - eexists. cbn. split_and!; [done|done| |]; eauto 10.
  - eexists. cbn. split_and!; done.
Qed.

End ExecuteIssue.

(** ** executeDAG: the batches *)

Section Batches.

Context {A : Type}.
Implicit Types l : list A.

Lemma slice_take_drop l (i k : Z) :
  (0 ≤ i)%Z → (0 < k)%Z →
  slice l i (i + k) = take (Z.to_nat k) (drop (Z.to_nat i) l).
Proof.
  intros Hi Hk. unfold slice.
  rewrite (proj2 (Z.ltb_ge i 0)) by lia.
  rewrite (proj2 (Z.ltb_ge (i + k) 0)) by lia.
  destruct (decide (Z.of_nat (length l) ≤ i)%Z) as [Hge|Hlt].
  - rewrite (Z.min_r i) by lia. rewrite Nat2Z.id.
    rewrite !drop_ge by lia. by rewrite !take_nil.
  - rewrite (Z.min_l i) by lia.
    pose proof (length_drop l (Z.to_nat i)) as Hd.
    destruct (decide (i + k ≤ Z.of_nat (length l))%Z) as [Hin|Hout].
    + rewrite Z.min_l by lia. f_equal. lia.
    + rewrite Z.min_r by lia. rewrite !take_ge by lia. done.
Qed.

Lemma makeBatches_unfold fuel l (k i : Z) :
  makeBatches fuel l k i
  = if (i <? Z.of_nat (length l))%Z then
      match fuel with
      | O => None
      | S fuel' =>
          match makeBatches fuel' l k (i + k) with
          | Some batches => Some (slice l i (i + k) :: batches)
          | None => None
          end
      end
    else Some [].
Proof. by destruct fuel. Qed.

(** With a positive concurrency the loop ends, and its batches are the
    list cut into consecutive pieces of that size, the last one possibly
    shorter. *)
Lemma makeBatches_spec l (k : Z) : (0 < k)%Z → ∀ fuel i,
  (0 ≤ i)%Z → (Z.of_nat (length l) ≤ i + Z.of_nat fuel)%Z →
  ∃ bs, makeBatches fuel l k i = Some bs ∧
        concat bs = drop (Z.to_nat i) l ∧
        Forall (λ b, 1 ≤ length b ≤ Z.to_nat k) bs ∧
        ∀ j b, bs !! j = Some b → S j < length bs →
               length b = Z.to_nat k.
Proof.
  intros Hk. induction fuel as [|fuel IH]; intros i Hi Hfuel;
    rewrite makeBatches_unfold.
  - rewrite (proj2 (Z.ltb_ge _ _)) by lia. exists [].
    split_and!; [done| |done|intros ? ? ?; done].
    rewrite drop_ge by lia. done.
  - destruct (i <? Z.of_nat (length l))%Z eqn:Hlt.
    2:{ apply Z.ltb_ge in Hlt. exists [].
        split_and!; [done| |done|intros ? ? ?; done].
        rewrite drop_ge by lia. done. }
    apply Z.ltb_lt in Hlt.
    destruct (IH (i + k)%Z) as (bs & -> & Hcat & Hlen & Hfull); [lia..|].
    rewrite slice_take_drop by lia.
    set (b0 := take (Z.to_nat k) (drop (Z.to_nat i) l)).
    assert (length b0 = Nat.min (Z.to_nat k) (length l - Z.to_nat i)) as Hb0.
    { unfold b0. by rewrite length_take, length_drop. }
    exists (b0 :: bs). split_and!.
    + done.
    + cbn [concat]. rewrite Hcat. unfold b0.
      replace (Z.to_nat (i + k)) with (Z.to_nat i + Z.to_nat k) by lia.
      rewrite <-drop_drop. apply take_drop.
    + constructor; [lia|done].
    + intros [|j] b Hj Hlast.
      * injection Hj as <-. destruct bs as [|b1 bs]; [simpl in Hlast; lia|].
        assert (1 ≤ length (concat (b1 :: bs))) as Hne.
        { apply Forall_cons in Hlen as [Hb1 _]. cbn [concat].
          rewrite length_app. lia. }
        rewrite Hcat, length_drop in Hne. lia.
      * apply (Hfull j b Hj). simpl in Hlast. lia.
Qed.

(** With a concurrency of 0 or less the index never passes the length:
    the loop does not end, whatever the bound. *)
Lemma makeBatches_diverges l (k : Z) fuel : ∀ i,
  (k ≤ 0)%Z → (i < Z.of_nat (length l))%Z → makeBatches fuel l k i = None.
Proof.
  induction fuel as [|fuel IH]; intros i Hk Hi;
    rewrite makeBatches_unfold, (proj2 (Z.ltb_lt _ _)) by done; [done|].
  rewrite IH by lia. done.
Qed.

End Batches.

Section Levels.

Lemma groupByLevel_fold dag : ∀ (m : gmap nat (list DAGNode.t)) l,
  default [] (foldl (λ levels node,
                 <[DAGNode.level node :=
                     default [] (levels !! DAGNode.level node) ++ [node]]>
                   levels) m dag !! l)
  = default [] (m !! l) ++ atLevel l dag.
Proof.
  unfold atLevel. induction dag as [|n dag IH]; intros m l.
  - by rewrite app_nil_r.
  - cbn [foldl]. rewrite IH, filter_cons.
    destruct (decide (DAGNode.level n = l)) as [<-|Hne].
    + rewrite lookup_insert_eq. cbn [default from_option id].
      by rewrite <-app_assoc.
    + by rewrite lookup_insert_ne.
Qed.

Lemma groupByLevel_lookup dag l :
  default [] (groupByLevel dag !! l) = atLevel l dag.
Proof. unfold groupByLevel. by rewrite groupByLevel_fold, lookup_empty. Qed.

Lemma groupByLevel_dom dag n :
  n ∈ dag → DAGNode.level n ∈ dom (groupByLevel dag).
Proof.
  intros Hn. apply elem_of_dom.
  pose proof (groupByLevel_lookup dag (DAGNode.level n)) as H.
  destruct (groupByLevel dag !! DAGNode.level n) as [ns|]; [by eexists|].
  cbn in H. assert (n ∈ atLevel (DAGNode.level n) dag) as Hin.
  { unfold atLevel. by apply list_elem_of_filter. }
  rewrite <-H in Hin. by apply elem_of_nil in Hin.
Qed.

Lemma levelRange_seq (levels : gmap nat (list DAGNode.t)) :
  ∃ n, levelRange levels = seq 0 n ∧ ∀ l, l ∈ dom levels → l < n.
Proof.
  unfold levelRange. destruct (elements (dom levels)) as [|k ks] eqn:E.
  - exists 0. split; [done|]. intros l Hl.
    apply elem_of_elements in Hl. rewrite E in Hl.
    by apply elem_of_nil in Hl.
  - exists (S (max_list (k :: ks))). split; [done|]. intros l Hl.
    apply elem_of_elements in Hl. rewrite E in Hl.
    apply max_list_elem_of_le in Hl. lia.
Qed.

End Levels.

(** ** executeDAG: one batch *)

Section RunBatch.

Variable env : N → PipelineEnv.
Variable dryRun : bool.

Lemma executeIssue_fst issue e w :
  fst (executeIssue issue dryRun e w) = (_ ← tryBlock dryRun e; Returned ()).
Proof.
  unfold executeIssue. by destruct (tryBlock dryRun e) as [[? ?]|].
Qed.

Lemma executeIssue_Threw issue e w m :
  stageThrows dryRun e m →
  executeIssue issue dryRun e w
  = (Threw m,
     mkWorld (now w + elapsed e)%N
       (executionLog w
        ++ [mkLogEntry (Issue.number issue) (Issue.title issue) (elapsed e)
              (LogFailed m)])
       (trace w)).
Proof.
  intros Hm. apply tryBlock_Threw in Hm. unfold executeIssue, appendLog.
  rewrite Hm. cbn [now executionLog trace].
  by replace (now w + elapsed e - now w)%N with (elapsed e) by lia.
Qed.

Lemma runNode_spec node w :
  fst (runNode env dryRun node w) = pipeline env dryRun node ∧
  trace (snd (runNode env dryRun node w))
  = trace w ++ [Settled node (negb (throws (pipeline env dryRun node)))] ∧
  executionLog w `prefix_of` executionLog (snd (runNode env dryRun node w)).
Proof.
  unfold runNode, pipeline.
  destruct (fetchIssue (env (DAGNode.number node))) as [issue|m].
  - pose proof (executeIssue_fst issue (env (DAGNode.number node)) w) as Hr.
    destruct (executeIssue_log issue dryRun (env (DAGNode.number node)) w)
      as (status & Hlog & Htr & _).
    destruct (executeIssue _ _ _ _) as [r w1]. cbn [fst snd] in *.
    cbn [mbind Outcome_bind]. subst r. cbn [trace executionLog].
    rewrite Htr, Hlog. split_and!; [done|done|by eexists].
  - cbn. done.
Qed.

Lemma settleAll_spec batch : ∀ w,
  throws (fst (settleAll env dryRun batch w))
  = existsb (λ n, throws (pipeline env dryRun n)) batch ∧
  trace (snd (settleAll env dryRun batch w))
  = trace w
    ++ ((λ n, Settled n (negb (throws (pipeline env dryRun n)))) <$> batch) ∧
  executionLog w `prefix_of` executionLog (snd (settleAll env dryRun batch w)).
Proof.
  induction batch as [|node batch IH]; intros w.
  - cbn. by rewrite app_nil_r.
  - cbn [settleAll]. destruct (runNode_spec node w) as (Hr & Htr & Hlog).
    destruct (runNode env dryRun node w) as [r w1]. cbn [fst snd] in *.
    destruct (IH w1) as (Hrs & Htrs & Hlogs).
    destruct (settleAll env dryRun batch w1) as [rs w2]. cbn [fst snd] in *.
    rewrite Htrs, Htr, fmap_cons, <-app_assoc. cbn [existsb].
    rewrite <-Hr, <-Hrs. split_and!.
    + by destruct r.
    + done.
    + by etrans.
Qed.

Lemma settleAll_unit batch w :
  throws (fst (settleAll env dryRun batch w)) = false →
  fst (settleAll env dryRun batch w) = Returned ().
Proof. by destruct (fst (settleAll env dryRun batch w)) as [[]|]. Qed.

(** The failure record of a node that fails is in the log when the batch
    has settled. *)
Lemma settleAll_logs_failure batch node issue m : ∀ w,
  node ∈ batch →
  fetchIssue (env (DAGNode.number node)) = Returned issue →
  stageThrows dryRun (env (DAGNode.number node)) m →
  mkLogEntry (Issue.number issue) (Issue.title issue)
    (elapsed (env (DAGNode.number node))) (LogFailed m)
  ∈ executionLog (snd (settleAll env dryRun batch w)).
Proof.
  intros w Hin Hfetch Hm. revert w.
  induction batch as [|n0 batch IH]; intros w; [by apply elem_of_nil in Hin|].
  cbn [settleAll].
  destruct (runNode env dryRun n0 w) as [r w1] eqn:Hrun.
  pose proof (settleAll_spec batch w1) as (_ & _ & Hlogs).
  apply elem_of_cons in Hin as [<-|Hin].
  - destruct (settleAll env dryRun batch w1) as [rs w2]. cbn [fst snd] in *.
    destruct Hlogs as [es ->]. apply elem_of_app. left.
    unfold runNode in Hrun. rewrite Hfetch in Hrun.
    rewrite (executeIssue_Threw _ _ _ _ Hm) in Hrun.
    injection Hrun as <- <-. cbn [executionLog].
    apply elem_of_app. right. apply list_elem_of_singleton. done.
  - specialize (IH Hin w1).
    by destruct (settleAll env dryRun batch w1) as [rs w2].
Qed.

Lemma runBatch_spec level batch w :
  throws (fst (runBatch env dryRun level batch w))
  = batchFails env dryRun (level, batch) ∧
  trace (snd (runBatch env dryRun level batch w))
  = trace w ++ batchEvents env dryRun (level, batch) ∧
  executionLog w
    `prefix_of` executionLog (snd (runBatch env dryRun level batch w)).
Proof.
  unfold runBatch, batchFails, batchEvents. cbn [fst snd].
  destruct (settleAll_spec batch
              (mkWorld (now w) (executionLog w)
                 (trace w ++ [Launch level batch]))) as (Hr & Htr & Hlog).
  rewrite Hr, Htr. cbn [trace executionLog] in *.
  by rewrite <-app_assoc.
Qed.

Lemma launched_app plan1 plan2 :
  launched env dryRun (plan1 ++ plan2)
  = if existsb (batchFails env dryRun) plan1 then launched env dryRun plan1
    else plan1 ++ launched env dryRun plan2.
Proof.
  induction plan1 as [|lb plan1 IH]; [done|].
  cbn [app launched existsb].
  destruct (batchFails env dryRun lb); [done|].
  cbn [orb]. rewrite IH. by destruct (existsb _ plan1).
Qed.

Lemma launched_all plan :
  existsb (batchFails env dryRun) plan = false →
  launched env dryRun plan = plan.
Proof.
  induction plan as [|lb plan IH]; [done|]. cbn [existsb launched].
  intros [-> H]%orb_false_iff. by rewrite IH.
Qed.

Lemma launched_prefix plan : launched env dryRun plan `prefix_of` plan.
Proof.
  induction plan as [|lb plan IH]; [done|]. cbn [launched].
  destruct (batchFails env dryRun lb).
  - by exists plan.
  - by apply prefix_cons.
Qed.

(** Nothing is launched after the first batch that fails. *)
Lemma launched_stops plan : ∀ i lb,
  plan !! i = Some lb → batchFails env dryRun lb = true →
  launched env dryRun plan `prefix_of` take (S i) plan.
Proof.
  induction plan as [|lb0 plan IH]; intros i lb Hi Hf; [done|].
  cbn [launched take].
  destruct (batchFails env dryRun lb0) eqn:Hf0.
  - apply prefix_cons, prefix_nil.
  - destruct i as [|i]; [injection Hi as ->; congruence|].
    apply prefix_cons. by eapply IH.
Qed.

Lemma existsb_batchFails plan i lb :
  plan !! i = Some lb → batchFails env dryRun lb = true →
  existsb (batchFails env dryRun) plan = true.
Proof.
  intros Hi Hf. apply existsb_exists. exists lb. split; [|done].
  apply list_elem_of_In. by eapply list_elem_of_lookup_2.
Qed.

End RunBatch.

(** ** executeDAG: the loops over batches and levels *)

Section RunLevels.

Variable env : N → PipelineEnv.
Variable dryRun : bool.

Lemma runBatches_spec level batches : ∀ w,
  let plan := pair level <$> batches in
  throws (fst (runBatches env dryRun level batches w))
  = existsb (batchFails env dryRun) plan ∧
  trace (snd (runBatches env dryRun level batches w))
  = trace w
    ++ concat (batchEvents env dryRun <$> launched env dryRun plan) ∧
  executionLog w
    `prefix_of` executionLog (snd (runBatches env dryRun level batches w)).
Proof.
  induction batches as [|batch batches IH]; intros w plan.
  - cbn. by rewrite app_nil_r.
  - unfold plan. rewrite fmap_cons. cbn [runBatches existsb launched].
    destruct (runBatch_spec env dryRun level batch w) as (Hr & Htr & Hlog).
    destruct (runBatch env dryRun level batch w) as [r w1].
    cbn [fst snd] in *. rewrite <-Hr.
    destruct r as [[]|m]; cbn [throws orb].
    + destruct (IH w1) as (Hrs & Htrs & Hlogs).
      rewrite Hrs, Htrs, Htr, fmap_cons. cbn [concat].
      rewrite <-app_assoc. split_and!; [done|done|by etrans].
    + cbn [fst snd fmap list_fmap concat]. rewrite app_nil_r. done.
Qed.

(** The run follows the plan: it ends whenever the plan exists, it throws
    when a batch of the plan fails, and its events are those of the batches
    of the plan up to the first one that fails. *)
Lemma runLevels_spec (k : Z) levels range : ∀ w sched,
  scheduleLevels k levels range = Some sched →
  ∃ r w',
    runLevels env dryRun k levels range w = Some (r, w') ∧
    throws r = existsb (batchFails env dryRun) sched ∧
    trace w'
    = trace w
      ++ concat (batchEvents env dryRun <$> launched env dryRun sched) ∧
    executionLog w `prefix_of` executionLog w'.
Proof.
  induction range as [|level range IH]; intros w sched Hs.
  - injection Hs as <-. exists (Returned ()), w. cbn.
    by rewrite app_nil_r.
  - cbn [scheduleLevels runLevels] in *.
    destruct (default [] (levels !! level)) as [|n ns]; [by apply IH|].
    destruct (makeBatches _ _ _ _) as [batches|]; [|done].
    destruct (scheduleLevels k levels range) as [rest|] eqn:Hrest; [|done].
    injection Hs as <-.
    destruct (runBatches_spec level batches w) as (Hr & Htr & Hlog).
    destruct (runBatches env dryRun level batches w) as [r w1].
    cbn [fst snd] in *. rewrite existsb_app, launched_app, <-Hr.
    destruct r as [[]|m]; cbn [throws orb] in *.
    + destruct (IH w1 rest eq_refl) as (r' & w' & -> & Hr' & Htr' & Hlog').
      exists r', w'. rewrite Htr', Htr, fmap_app, concat_app.
      rewrite (launched_all env dryRun (pair level <$> batches)) by done.
      rewrite <-app_assoc. split_and!; [done|done|done|by etrans].
    + exists (Threw m), w1. done.
Qed.

Lemma launches_events (plan : list (nat * list DAGNode.t)) :
  launches (concat (batchEvents env dryRun <$> plan)) = plan.
Proof.
  unfold launches. induction plan as [|[l b] plan IH]; [done|].
  rewrite fmap_cons. cbn [concat]. rewrite omap_app, IH.
  unfold batchEvents. cbn [fst snd omap list_omap].
  assert (∀ ns : list DAGNode.t,
            omap (λ ev, match ev with
                        | Launch l b => Some (l, b)
                        | Settled _ _ => None
                        end)
              ((λ n, Settled n (negb (throws (pipeline env dryRun n))))
                 <$> ns) = []) as ->; [|done].
  induction ns as [|n ns IHn]; [done|]. by rewrite fmap_cons.
Qed.

Lemma inFlight_from (tr : list Event) : ∀ a : Z,
  foldl (λ (n : Z) ev, match ev with
                       | Launch _ b => n + Z.of_nat (length b)
                       | Settled _ _ => n - 1
                       end)%Z a tr = (a + inFlight tr)%Z.
Proof.
  unfold inFlight. induction tr as [|ev tr IH]; intros a; [cbn; lia|].
  cbn [foldl]. rewrite IH, (IH (match ev with
                                | Launch _ b => 0 + Z.of_nat (length b)
                                | Settled _ _ => 0 - 1
                                end)%Z).
  destruct ev; lia.
Qed.

Lemma inFlight_app tr1 tr2 :
  inFlight (tr1 ++ tr2) = (inFlight tr1 + inFlight tr2)%Z.
Proof.
  unfold inFlight at 1. by rewrite foldl_app, inFlight_from, inFlight_from.
Qed.

Lemma inFlight_settled (ns : list DAGNode.t) (f : DAGNode.t → bool) :
  inFlight ((λ n, Settled n (f n)) <$> ns) = (- Z.of_nat (length ns))%Z.
Proof.
  induction ns as [|n ns IH]; [done|].
  rewrite fmap_cons. change (?x :: ?l) with ([x] ++ l) at 1.
  rewrite inFlight_app, IH. cbn [length]. unfold inFlight. cbn. lia.
Qed.

Lemma inFlight_batchEvents lb : inFlight (batchEvents env dryRun lb) = 0%Z.
Proof.
  unfold batchEvents. change (?x :: ?l) with ([x] ++ l).
  rewrite inFlight_app, inFlight_settled. unfold inFlight. cbn. lia.
Qed.

Lemma prefix_app_cases {A} (p l1 l2 : list A) :
  p `prefix_of` l1 ++ l2 →
  p `prefix_of` l1 ∨ ∃ q, p = l1 ++ q ∧ q `prefix_of` l2.
Proof.
  revert p. induction l1 as [|x l1 IH]; intros p Hp.
  - right. by exists p.
  - destruct p as [|y p]; [left; apply prefix_nil|].
    cbn [app] in Hp. pose proof (prefix_cons_inv_1 _ _ _ _ Hp) as ->.
    apply prefix_cons_inv_2 in Hp.
    destruct (IH p Hp) as [H|(q & -> & Hq)].
    + left. by apply prefix_cons.
    + right. by exists q.
Qed.

(** At every moment of a run the number of pipelines that have begun and
    not ended is between 0 and the size of the largest batch. *)
Lemma inFlight_bound (k : nat) (plan : list (nat * list DAGNode.t)) :
  Forall (λ lb, length (snd lb) ≤ k) plan →
  ∀ p, p `prefix_of` concat (batchEvents env dryRun <$> plan) →
       (0 ≤ inFlight p ≤ Z.of_nat k)%Z.
Proof.
  induction 1 as [|lb plan Hlb Hplan IH]; intros p Hp.
  - apply prefix_nil_inv in Hp as ->. unfold inFlight. cbn. lia.
  - rewrite fmap_cons in Hp. cbn [concat] in Hp.
    apply prefix_app_cases in Hp as [Hp|(q & -> & Hq)].
    2:{ rewrite inFlight_app, inFlight_batchEvents. by apply IH. }
    unfold batchEvents in Hp. destruct p as [|ev p].
    { unfold inFlight. cbn. lia. }
    pose proof (prefix_cons_inv_1 _ _ _ _ Hp) as ->.
    apply prefix_cons_inv_2 in Hp. destruct Hp as [rest Hrest].
    pose proof (f_equal (take (length p)) Hrest) as Htake.
    rewrite take_app_length, <-fmap_take in Htake.
    change (?x :: ?l) with ([x] ++ l). rewrite inFlight_app, <-Htake.
    rewrite inFlight_settled, length_take. unfold inFlight. cbn. lia.
Qed.

End RunLevels.

(** ** executeDAG: the plan *)

Section Schedule.

Lemma chunksAt_app l ls1 ls2 :
  chunksAt l (ls1 ++ ls2) = chunksAt l ls1 ++ chunksAt l ls2.
Proof. unfold chunksAt. by rewrite filter_app, fmap_app. Qed.

Lemma chunksAt_pair l a (bs : list (list DAGNode.t)) :
  chunksAt l (pair a <$> bs) = if decide (a = l) then bs else [].
Proof.
  unfold chunksAt. induction bs as [|b bs IH].
  - by destruct (decide (a = l)).
  - rewrite fmap_cons, filter_cons. cbn [fst].
    destruct (decide (a = l)); [|done]. by rewrite fmap_cons, IH.
Qed.

Lemma chunksAt_below l a ls :
  Forall (λ lb : nat * list DAGNode.t, a ≤ fst lb) ls → l < a →
  chunksAt l ls = [].
Proof.
  unfold chunksAt. induction 1 as [|lb ls Hlb _ IH]; intros Hl; [done|].
  rewrite filter_cons. destruct (decide (fst lb = l)); [lia|by apply IH].
Qed.

Lemma makeBatches_nil {A} fuel (k : Z) : makeBatches fuel (@nil A) k 0 = Some [].
Proof. by destruct fuel. Qed.

(** The plan over the levels [a], [a+1], ..., [a+n-1]. *)
Lemma scheduleLevels_spec (k : Z) levels : (0 < k)%Z → ∀ n a,
  ∃ sched,
    scheduleLevels k levels (seq a n) = Some sched ∧
    Forall (λ lb, a ≤ fst lb) sched ∧
    StronglySorted (λ x y, fst x ≤ fst y) sched ∧
    ∀ l,
      concat (chunksAt l sched)
      = (if decide (a ≤ l < a + n) then default [] (levels !! l) else []) ∧
      Forall (λ b, 1 ≤ length b ≤ Z.to_nat k) (chunksAt l sched) ∧
      ∀ j b, chunksAt l sched !! j = Some b →
             S j < length (chunksAt l sched) → length b = Z.to_nat k.
Proof.
  intros Hk. induction n as [|n IH]; intros a.
  - exists []. split_and!; [done|done|constructor|]. intros l.
    split_and!; [|done|by intros ? ? ?]. cbn.
    destruct (decide (a ≤ l < a + 0)); [lia|done].
  - destruct (IH (S a)) as (rest & Hrest & Hge & Hsorted & Hchunks).
    cbn [seq scheduleLevels]. rewrite Hrest.
    assert (Forall (λ lb : nat * list DAGNode.t, a ≤ fst lb) rest) as Hge'.
    { eapply Forall_impl; [exact Hge|]. intros ? ?. cbn in *. lia. }
    destruct (makeBatches_spec (default [] (levels !! a)) k Hk
                (length (default [] (levels !! a))) 0%Z)
      as (bs & Hbs & Hcat & Hlen & Hfull); [lia..|].
    rewrite drop_0 in Hcat.
    assert (∃ sched, match default [] (levels !! a) with
                     | [] => Some rest
                     | _ :: _ => Some ((pair a <$> bs) ++ rest)
                     end = Some sched ∧ sched = (pair a <$> bs) ++ rest)
      as (sched & Hsched & ->).
    { destruct (default [] (levels !! a)) as [|x xs] eqn:Hnodes.
      - rewrite makeBatches_nil in Hbs. injection Hbs as <-. by exists rest.
      - by eexists. }
    exists ((pair a <$> bs) ++ rest). split_and!.
    + destruct (default [] (levels !! a)) as [|x xs]; [done|].
      by rewrite Hbs.
    + apply Forall_app. split; [|done].
      apply Forall_fmap, Forall_forall. intros b _. cbn. lia.
    + apply StronglySorted_app_2; [| |done].
      * intros x1 x2 (b & -> & _)%list_elem_of_fmap Hx2.
        rewrite Forall_forall in Hge'. cbn. by apply Hge'.
      * clear. induction bs as [|b bs IHbs]; [constructor|].
        rewrite fmap_cons. constructor; [done|].
        apply Forall_fmap, Forall_forall. intros ? _. cbn. lia.
    + intros l. rewrite chunksAt_app, chunksAt_pair.
      destruct (Hchunks l) as (Hc & Hl & Hf).
      destruct (decide (a = l)) as [<-|Hne].
      * rewrite (chunksAt_below a (S a) rest) by (done || lia).
        rewrite app_nil_r. split_and!; [|done|done].
        rewrite Hcat. destruct (decide (a ≤ a < a + S n)); [done|lia].
      * cbn [app]. split_and!; [|done|done]. rewrite Hc.
        destruct (decide (S a ≤ l < S a + n)),
                 (decide (a ≤ l < a + S n)); (done || lia).
Qed.

(** The plan of [executeDAG] for a positive concurrency: the levels in
    ascending order, each one cut into consecutive chunks of that size. *)
Lemma schedule_spec dag (k : Z) : (1 ≤ k)%Z →
  ∃ sched,
    schedule dag k = Some sched ∧
    StronglySorted (λ x y, fst x ≤ fst y) sched ∧
    ∀ l,
      concat (chunksAt l sched) = atLevel l dag ∧
      Forall (λ b, 1 ≤ length b ≤ Z.to_nat k) (chunksAt l sched) ∧
      ∀ j b, chunksAt l sched !! j = Some b →
             S j < length (chunksAt l sched) → length b = Z.to_nat k.
Proof.
  intros Hk. unfold schedule.
  destruct (levelRange_seq (groupByLevel dag)) as (n & -> & Hdom).
  destruct (scheduleLevels_spec k (groupByLevel dag) ltac:(lia) n 0)
    as (sched & Hs & _ & Hsorted & Hchunks).
  exists sched. split_and!; [done|done|]. intros l.
  destruct (Hchunks l) as (Hc & Hl & Hf). split_and!; [|done|done].
  rewrite Hc, <-groupByLevel_lookup.
  destruct (decide (0 ≤ l < 0 + n)) as [|Hout]; [done|].
  destruct (groupByLevel dag !! l) as [ns|] eqn:Hlook; [|done].
  exfalso. apply Hout. split; [lia|]. apply Hdom, elem_of_dom. by eexists.
Qed.

Lemma schedule_chunk_sizes dag (k : Z) sched :
  (1 ≤ k)%Z → schedule dag k = Some sched →
  Forall (λ lb, length (snd lb) ≤ Z.to_nat k) sched.
Proof.
  intros Hk Hs. destruct (schedule_spec dag k Hk) as (sched' & Hs' & _ & H).
  rewrite Hs in Hs'. injection Hs' as <-.
  apply Forall_forall. intros [l b] Hin.
  destruct (H l) as (_ & Hlen & _). rewrite Forall_forall in Hlen.
  cbn. apply Hlen. unfold chunksAt. apply list_elem_of_fmap.
  exists (l, b). split; [done|]. by apply list_elem_of_filter.
Qed.

End Schedule.

(** ** The executor and the scheduler: the claims *)

Section Executor.

Example failEnv_generation_fails :
  stageThrows false (failEnv 1 1) (lit "Code generation failed: boom") ∧
  executeIssue (simpleIssue 1 "") false (failEnv 1 1) world0
  = (Threw (lit "Code generation failed: boom"),
     mkWorld 1007
       [mkLogEntry 1 (Issue.title (simpleIssue 1 "")) 7
          (LogFailed (lit "Code generation failed: boom"))] []).
Proof.
  split; [|by vm_compute].
  apply (generate_fails false (failEnv 1 1) (mkCodeResult false [] [] (lit "boom")));
    [by right|done|done].
Qed.


(** C5: for a concurrency [k] of 1 or more, [executeDAG] ends, and it goes
    through the levels in ascending order, the nodes of each level cut, in
    their order, into consecutive chunks of [k] nodes, the last chunk of a
    level possibly smaller; the chunks are launched one after another, each
    one when all the pipelines of the one before have ended, so that at
    every moment at most [k] pipelines have begun and not ended.  Three
    independent nodes with concurrency 2 give a chunk of two nodes, then a
    chunk of one. *)
Theorem executeDAG_levels_in_bounded_chunks dag (k : Z) dryRun env w :
  (1 ≤ k)%Z →
  ∃ sched r w' tr,
    schedule dag k = Some sched ∧
    executeDAG dag k dryRun env w = Some (r, w') ∧
    trace w' = trace w ++ tr ∧
    StronglySorted (λ x y, fst x ≤ fst y) sched ∧
    (∀ l,
       concat (chunksAt l sched) = atLevel l dag ∧
       Forall (λ b, 1 ≤ length b ≤ Z.to_nat k) (chunksAt l sched) ∧
       ∀ j b, chunksAt l sched !! j = Some b →
              S j < length (chunksAt l sched) → length b = Z.to_nat k) ∧
    tr = concat (batchEvents env dryRun <$> launches tr) ∧
    launches tr `prefix_of` sched ∧
    (throws r = false → launches tr = sched) ∧
    (∀ p, p `prefix_of` tr → (0 ≤ inFlight p ≤ k)%Z) ∧
    schedule [nodeC; nodeD; nodeE] 2
    = Some [(0, [nodeC; nodeD]); (0, [nodeE])] ∧
    (λ rw : Outcome unit * World, launches (trace (snd rw)))
      <$> executeDAG [nodeC; nodeD; nodeE] 2 false okEnv world0
    = Some [(0, [nodeC; nodeD]); (0, [nodeE])].
Proof.
  intros Hk.
  destruct (schedule_spec dag k Hk) as (sched & Hs & Hsorted & Hchunks).
  pose proof (schedule_chunk_sizes dag k sched Hk Hs) as Hsizes.
  unfold schedule in Hs. unfold executeDAG.
  destruct (runLevels_spec env dryRun k _ _ w sched Hs)
    as (r & w' & Hrun & Hr & Htr & _).
  exists sched, r, w',
    (concat (batchEvents env dryRun <$> launched env dryRun sched)).
  rewrite launches_events.
  split_and!; [done|done|done|done|done|done| | | | |].
  - apply launched_prefix.
  - rewrite Hr. apply launched_all.
  - intros p Hp.
    assert (Forall (λ lb : nat * list DAGNode.t,
                      length (snd lb) ≤ Z.to_nat k)
              (launched env dryRun sched)) as Hl.
    { rewrite Forall_forall in Hsizes. apply Forall_forall.
      intros lb Hin. apply Hsizes.
      destruct (launched_prefix env dryRun sched) as [rest Hrest].
      rewrite Hrest. apply elem_of_app. by left. }
    pose proof (inFlight_bound env dryRun _ _ Hl p Hp). lia.
  - by vm_compute.
  - by vm_compute.
Qed.

Lemma executeDAG_levels_in_bounded_chunks_witness :
  ∃ sched r w' tr,
    schedule [nodeC; nodeD; nodeE; nodeF] 2 = Some sched ∧
    executeDAG [nodeC; nodeD; nodeE; nodeF] 2 false okEnv world0
    = Some (r, w') ∧
    trace w' = trace world0 ++ tr ∧
    StronglySorted (λ x y, fst x ≤ fst y) sched ∧
    (∀ l,
       concat (chunksAt l sched) = atLevel l [nodeC; nodeD; nodeE; nodeF] ∧
       Forall (λ b, 1 ≤ length b ≤ Z.to_nat 2) (chunksAt l sched) ∧
       ∀ j b, chunksAt l sched !! j = Some b →
              S j < length (chunksAt l sched) → length b = Z.to_nat 2) ∧
    tr = concat (batchEvents okEnv false <$> launches tr) ∧
    launches tr `prefix_of` sched ∧
    (throws r = false → launches tr = sched) ∧
    (∀ p, p `prefix_of` tr → (0 ≤ inFlight p ≤ 2)%Z) ∧
    schedule [nodeC; nodeD; nodeE] 2
    = Some [(0, [nodeC; nodeD]); (0, [nodeE])] ∧
    (λ rw : Outcome unit * World, launches (trace (snd rw)))
      <$> executeDAG [nodeC; nodeD; nodeE] 2 false okEnv world0
    = Some [(0, [nodeC; nodeD]); (0, [nodeE])].
Proof.
  apply (executeDAG_levels_in_bounded_chunks
           [nodeC; nodeD; nodeE; nodeF] 2 false okEnv world0).
  lia.
Defined.

(** The generation service fails for the first of four issues: the first
    chunk is launched and its two pipelines end, the second chunk of level 0
    and the chunk of level 1 are never launched, and the log holds the
    failure of the first issue and the success of the second. *)
Example executeDAG_failEnv_run :
  (λ rw : Outcome unit * World,
     (fst rw, trace (snd rw), logNumber <$> executionLog (snd rw)))
    <$> executeDAG [nodeC; nodeD; nodeE; nodeF] 2 false (failEnv 1) world0
  = Some (Threw (lit "Code generation failed: boom"),
          [Launch 0 [nodeC; nodeD]; Settled nodeC false; Settled nodeD true],
          [1%N; 2%N]).
Proof. by vm_compute. Qed.

(** C6: when the pipeline of a node of some chunk throws (its result does
    not depend on the moment it runs), the run of [executeDAG] throws, and
    the chunks it has launched are among the chunks of the plan up to that
    one: no chunk after it, of the same level or of a later one, is
    launched. *)
Theorem executeDAG_fail_fast dag (k : Z) dryRun env w sched :
  schedule dag k = Some sched →
  ∃ r w' tr,
    executeDAG dag k dryRun env w = Some (r, w') ∧
    trace w' = trace w ++ tr ∧
    ∀ i l b n,
      sched !! i = Some (l, b) → n ∈ b →
      throws (fst (runNode env dryRun n w)) = true →
      throws r = true ∧
      launches tr `prefix_of` take (S i) sched ∧
      ∀ j, i < j → launches tr !! j = None.
Proof.
  intros Hs. unfold schedule in Hs. unfold executeDAG.
  destruct (runLevels_spec env dryRun k _ _ w sched Hs)
    as (r & w' & Hrun & Hr & Htr & _).
  exists r, w',
    (concat (batchEvents env dryRun <$> launched env dryRun sched)).
  split_and!; [done|done|]. intros i l b n Hi Hn Hfail.
  destruct (runNode_spec env dryRun n w) as (Hp & _). rewrite Hp in Hfail.
  assert (batchFails env dryRun (l, b) = true) as Hb.
  { unfold batchFails. apply existsb_exists. exists n.
    split; [by apply list_elem_of_In|done]. }
  pose proof (launched_stops env dryRun sched i (l, b) Hi Hb) as Hstop.
  rewrite launches_events. split_and!.
  - rewrite Hr. by eapply existsb_batchFails.
  - done.
  - intros j Hj. apply lookup_ge_None_2.
    apply prefix_length in Hstop. rewrite length_take in Hstop. lia.
Qed.

Lemma executeDAG_fail_fast_witness :
  ∃ r w' tr,
    executeDAG [nodeC; nodeD; nodeE; nodeF] 2 false (failEnv 1) world0
    = Some (r, w') ∧
    trace w' = trace world0 ++ tr ∧
    ∀ i l b n,
      [(0, [nodeC; nodeD]); (0, [nodeE]); (1, [nodeF])] !! i = Some (l, b) →
      n ∈ b →
      throws (fst (runNode (failEnv 1) false n world0)) = true →
      throws r = true ∧
      launches tr
        `prefix_of` take (S i)
                      [(0, [nodeC; nodeD]); (0, [nodeE]); (1, [nodeF])] ∧
      ∀ j, i < j → launches tr !! j = None.
Proof.
  apply (executeDAG_fail_fast [nodeC; nodeD; nodeE; nodeF] 2 false
           (failEnv 1) world0).
  by vm_compute.
Defined.

End Executor.

(* ===================================================================== *)
(** * Part III: further properties of the scheduler *)
(* ===================================================================== *)

Section Plan.

Lemma elem_of_concat {A} (x : A) (ls : list (list A)) :
  x ∈ concat ls ↔ ∃ l, l ∈ ls ∧ x ∈ l.
Proof.
  induction ls as [|l0 ls IH]; cbn [concat].
  - split; [by intros ?%elem_of_nil|by intros (? & ?%elem_of_nil & _)].
  - rewrite elem_of_app, IH. split.
    + intros [H|(l & Hl & Hx)].
      * exists l0. split; [by left|done].
      * exists l. split; [by right|done].
    + intros (l & Hl & Hx). apply elem_of_cons in Hl as [->|Hl]; eauto.
Qed.

Lemma chunksAt_elem l (b : list DAGNode.t) sched :
  b ∈ chunksAt l sched ↔ (l, b) ∈ sched.
Proof.
  unfold chunksAt. rewrite list_elem_of_fmap. split.
  - intros ([l' b'] & -> & [Hl Hin]%list_elem_of_filter). cbn in *.
    by subst l'.
  - intros Hin. exists (l, b). split; [done|].
    by apply list_elem_of_filter.
Qed.

(** The nodes of a chunk of the plan are nodes of the list, at the level
    of the chunk. *)
Lemma schedule_chunk_nodes dag (k : Z) sched l b x :
  (1 ≤ k)%Z → schedule dag k = Some sched → (l, b) ∈ sched → x ∈ b →
  x ∈ dag ∧ DAGNode.level x = l.
Proof.
  intros Hk Hs Hb Hx.
  destruct (schedule_spec dag k Hk) as (sched' & Hs' & _ & H).
  rewrite Hs in Hs'. injection Hs' as <-.
  destruct (H l) as (Hcat & _).
  assert (x ∈ atLevel l dag) as Hin.
  { rewrite <-Hcat. apply elem_of_concat. exists b.
    split; [by apply chunksAt_elem|done]. }
  unfold atLevel in Hin. apply list_elem_of_filter in Hin as [? ?]. done.
Qed.

(** Every node of the list is in a chunk of the plan. *)
Lemma schedule_covers dag (k : Z) sched x :
  (1 ≤ k)%Z → schedule dag k = Some sched → x ∈ dag →
  ∃ j b, sched !! j = Some (DAGNode.level x, b) ∧ x ∈ b.
Proof.
  intros Hk Hs Hx.
  destruct (schedule_spec dag k Hk) as (sched' & Hs' & _ & H).
  rewrite Hs in Hs'. injection Hs' as <-.
  destruct (H (DAGNode.level x)) as (Hcat & _).
  assert (x ∈ concat (chunksAt (DAGNode.level x) sched)) as Hin.
  { rewrite Hcat. unfold atLevel. by apply list_elem_of_filter. }
  apply elem_of_concat in Hin as (b & Hb%chunksAt_elem & Hxb).
  apply list_elem_of_lookup in Hb as [j Hj]. eauto.
Qed.

Lemma StronglySorted_lookup_le {A} (R : relation A) (l : list A) :
  StronglySorted R l →
  ∀ i j a b, l !! i = Some a → l !! j = Some b → i < j → R a b.
Proof.
  induction 1 as [|x l Hl IH Hx]; intros i j a b Hi Hj Hij; [done|].
  destruct j as [|j]; [lia|]. cbn in Hj. destruct i as [|i].
  - injection Hi as <-. rewrite Forall_forall in Hx. apply Hx.
    by eapply list_elem_of_lookup_2.
  - cbn in Hi. eapply IH; [done..|lia].
Qed.

(** A chunk of a lower level comes earlier in the plan. *)
Lemma schedule_lower_level_first (sched : list (nat * list DAGNode.t))
    i j l b l' b' :
  StronglySorted (λ x y, fst x ≤ fst y) sched →
  sched !! i = Some (l, b) → sched !! j = Some (l', b') → l' < l → j < i.
Proof.
  intros Hsorted Hi Hj Hlt.
  destruct (decide (j < i)) as [|Hge]; [done|].
  destruct (decide (i = j)) as [->|Hne].
  - rewrite Hi in Hj. injection Hj as -> _. lia.
  - pose proof (StronglySorted_lookup_le _ _ Hsorted i j _ _ Hi Hj
                  ltac:(lia)) as Hle.
    cbn in Hle. lia.
Qed.

End Plan.

Section Trace.

Variable env : N → PipelineEnv.
Variable dryRun : bool.

Lemma split_at_launch (s : list DAGNode.t) (f : DAGNode.t → bool) :
  ∀ p q l b rest,
    p ++ Launch l b :: q = ((λ n, Settled n (f n)) <$> s) ++ rest →
    ∃ p', p = ((λ n, Settled n (f n)) <$> s) ++ p' ∧
          p' ++ Launch l b :: q = rest.
Proof.
  induction s as [|x s IH]; intros p q l b rest H.
  - exists p. done.
  - rewrite fmap_cons in H. destruct p as [|ev p]; [done|].
    cbn [app] in H. injection H as -> H.
    destruct (IH _ _ _ _ _ H) as (p' & -> & Hrest).
    exists p'. by rewrite fmap_cons.
Qed.

(** A launch in the events of a plan is the launch of one of its chunks,
    and the events before it are those of the chunks before that one. *)
Lemma launch_position (plan : list (nat * list DAGNode.t)) : ∀ p q l b,
  concat (batchEvents env dryRun <$> plan) = p ++ Launch l b :: q →
  ∃ i, plan !! i = Some (l, b) ∧
       p = concat (batchEvents env dryRun <$> take i plan).
Proof.
  induction plan as [|[l0 b0] plan IH]; intros p q l b H.
  - by destruct p.
  - rewrite fmap_cons in H. cbn [concat] in H. unfold batchEvents in H at 1.
    cbn [fst snd app] in H. destruct p as [|ev p].
    + cbn [app] in H. injection H as <- <- _. by exists 0.
    + cbn [app] in H. injection H as <- H. symmetry in H.
      apply split_at_launch in H as (p' & -> & H). symmetry in H.
      destruct (IH _ _ _ _ H) as (i & Hi & ->).
      exists (S i). split; [done|].
      cbn [take]. rewrite fmap_cons. cbn [concat]. done.
Qed.

Lemma settled_in_events (plan : list (nat * list DAGNode.t)) j l b x :
  plan !! j = Some (l, b) → x ∈ b →
  Settled x (negb (throws (pipeline env dryRun x)))
  ∈ concat (batchEvents env dryRun <$> plan).
Proof.
  intros Hj Hx. apply elem_of_concat. exists (batchEvents env dryRun (l, b)).
  split.
  - apply list_elem_of_fmap. exists (l, b). split; [done|].
    by eapply list_elem_of_lookup_2.
  - unfold batchEvents. cbn [fst snd]. apply elem_of_cons. right.
    apply list_elem_of_fmap. by exists x.
Qed.

End Trace.

Section Coverage.

Lemma scheduleLevels_concat (k : Z) levels : (0 < k)%Z → ∀ range sched,
  scheduleLevels k levels range = Some sched →
  concat (snd <$> sched)
  = concat ((λ l, default [] (levels !! l)) <$> range).
Proof.
  intros Hk. induction range as [|l range IH]; intros sched Hs.
  - by injection Hs as <-.
  - cbn [scheduleLevels] in Hs. rewrite fmap_cons. cbn [concat].
    destruct (makeBatches_spec (default [] (levels !! l)) k Hk
                (length (default [] (levels !! l))) 0%Z)
      as (bs & Hbs & Hcat & _); [lia..|].
    rewrite drop_0 in Hcat.
    destruct (default [] (levels !! l)) as [|x xs] eqn:Hnodes.
    { by apply IH. }
    rewrite Hbs in Hs.
    destruct (scheduleLevels k levels range) as [rest|]; [|done].
    injection Hs as <-. rewrite fmap_app, concat_app, (IH rest eq_refl).
    rewrite <-list_fmap_compose.
    replace (snd ∘ pair l <$> bs) with bs; [by rewrite Hcat|].
    clear. induction bs as [|b bs IHb]; [done|].
    rewrite fmap_cons. cbn. by rewrite <-IHb.
Qed.

Lemma concat_levels_cons {A} (f : nat → list A) (x : A) (lv : nat) :
  ∀ n a,
    concat ((λ l, if decide (lv = l) then x :: f l else f l) <$> seq a n)
    ≡ₚ (if decide (a ≤ lv < a + n) then [x] else [])
       ++ concat (f <$> seq a n).
Proof.
  induction n as [|n IH]; intros a.
  - cbn. destruct (decide (a ≤ lv < a + 0)); [lia|done].
  - cbn [seq]. rewrite !fmap_cons. cbn [concat]. rewrite IH.
    destruct (decide (lv = a)) as [->|Hne].
    + destruct (decide (S a ≤ a < S a + n)); [lia|].
      destruct (decide (a ≤ a < a + S n)); [done|lia].
    + destruct (decide (S a ≤ lv < S a + n)),
               (decide (a ≤ lv < a + S n)); try lia.
      * cbn [app]. by rewrite Permutation_middle.
      * done.
Qed.

Lemma atLevel_partition (dag : list DAGNode.t) n :
  (∀ x, x ∈ dag → DAGNode.level x < n) →
  concat ((λ l, atLevel l dag) <$> seq 0 n) ≡ₚ dag.
Proof.
  induction dag as [|x dag IH]; intros Hlt.
  - unfold atLevel. clear. generalize 0. induction n as [|n IH]; intros a.
    + done.
    + cbn. apply IH.
  - assert (concat ((λ l, atLevel l (x :: dag)) <$> seq 0 n)
            = concat ((λ l, if decide (DAGNode.level x = l)
                            then x :: atLevel l dag else atLevel l dag)
                        <$> seq 0 n)) as ->.
    { reflexivity. }
    rewrite concat_levels_cons, IH.
    + specialize (Hlt x ltac:(by left)).
      destruct (decide (0 ≤ DAGNode.level x < 0 + n)); [done|lia].
    + intros y Hy. apply Hlt. by right.
Qed.

(** The chunks of the plan, put end to end, are the nodes of the list,
    each one once. *)
Lemma schedule_partition dag (k : Z) sched :
  (1 ≤ k)%Z → schedule dag k = Some sched →
  concat (snd <$> sched) ≡ₚ dag.
Proof.
  intros Hk Hs. unfold schedule in Hs.
  destruct (levelRange_seq (groupByLevel dag)) as (n & Hrange & Hdom).
  rewrite Hrange in Hs.
  rewrite (scheduleLevels_concat k _ ltac:(lia) _ _ Hs).
  assert ((λ l, default [] (groupByLevel dag !! l)) <$> seq 0 n
          = (λ l, atLevel l dag) <$> seq 0 n) as ->.
  { apply list_fmap_ext. intros _ l _. apply groupByLevel_lookup. }
  apply atLevel_partition. intros x Hx. by apply Hdom, groupByLevel_dom.
Qed.

Lemma runLevels_diverges env dryRun (k : Z) levels : (k ≤ 0)%Z → ∀ n a w,
  (∃ l, a ≤ l < a + n ∧ default [] (levels !! l) ≠ []) →
  runLevels env dryRun k levels (seq a n) w = None.
Proof.
  intros Hk. induction n as [|n IH]; intros a w (l & Hl & Hne); [lia|].
  cbn [seq runLevels].
  destruct (default [] (levels !! a)) as [|x xs] eqn:Hnodes.
  - apply IH. exists l. split; [|done].
    destruct (decide (l = a)) as [->|]; [by rewrite Hnodes in Hne|lia].
  - rewrite makeBatches_diverges; [done|done|]. cbn [length]. lia.
Qed.

End Coverage.

Section SchedulerProperties.

(** X1: on an acyclic list of issues with pairwise distinct numbers, run
    with a concurrency of 1 or more, a node is scheduled after each of its
    dependencies that names a node of the run: the chunk of the dependency
    comes earlier in the plan, and whenever a chunk that holds the node is
    launched, the pipeline of the dependency has already ended. *)
Theorem executeDAG_dependencies_first issues dag (k : Z) dryRun env w n m :
  NoDup (Issue.number <$> issues) → acyclic issues →
  buildDAG issues = Some dag → (1 ≤ k)%Z →
  n ∈ dag → m ∈ dag → DAGNode.id m ∈ DAGNode.dependencies n →
  ∃ sched r w' tr,
    schedule dag k = Some sched ∧
    executeDAG dag k dryRun env w = Some (r, w') ∧
    trace w' = trace w ++ tr ∧
    (∀ i j l b l' b', sched !! i = Some (l, b) → n ∈ b →
                      sched !! j = Some (l', b') → m ∈ b' → j < i) ∧
    (∀ p q l b, tr = p ++ Launch l b :: q → n ∈ b →
                ∃ ok, Settled m ok ∈ p).
Proof.
  intros Hnd Hacyc Hbuild Hk Hn Hm Hdep.
  assert (DAGNode.level m < DAGNode.level n) as Hlevel.
  { destruct (buildDAG_levels issues dag Hnd Hacyc Hbuild) as [Hids Hlev].
    rewrite (Hlev n Hn).
    destruct (DAGNode.dependencies n) as [|d deps] eqn:Hd.
    { by apply elem_of_nil in Hdep. }
    rewrite <-(levelOf_unique dag m Hids Hm).
    assert (levelOf dag (DAGNode.id m)
            ≤ max_list (levelOf dag <$> d :: deps)); [|lia].
    apply max_list_elem_of_le, list_elem_of_fmap. eauto. }
  destruct (schedule_spec dag k Hk) as (sched & Hs & Hsorted & _).
  assert (∀ i j l b l' b', sched !! i = Some (l, b) → n ∈ b →
            sched !! j = Some (l', b') → m ∈ b' → j < i) as Horder.
  { intros i j l b l' b' Hi Hnb Hj Hmb.
    destruct (schedule_chunk_nodes dag k sched l b n Hk Hs) as [_ Hl];
      [by eapply list_elem_of_lookup_2|done|].
    destruct (schedule_chunk_nodes dag k sched l' b' m Hk Hs) as [_ Hl'];
      [by eapply list_elem_of_lookup_2|done|].
    eapply schedule_lower_level_first; [done..|lia]. }
  pose proof Hs as Hs'. unfold schedule in Hs'. unfold executeDAG.
  destruct (runLevels_spec env dryRun k _ _ w sched Hs')
    as (r & w' & Hrun & _ & Htr & _).
  exists sched, r, w',
    (concat (batchEvents env dryRun <$> launched env dryRun sched)).
  split_and!; [done..|].
  intros p q l b Hsplit Hnb.
  apply launch_position in Hsplit as (i & Hi & ->).
  pose proof (launched_prefix env dryRun sched) as Hpre.
  pose proof (prefix_lookup_Some _ _ _ _ Hi Hpre) as Hi'.
  destruct (schedule_covers dag k sched m Hk Hs Hm) as (j & b' & Hj & Hmb).
  pose proof (Horder i j l b _ b' Hi' Hnb Hj Hmb) as Hji.
  exists (negb (throws (pipeline env dryRun m))).
  apply (settled_in_events env dryRun _ j (DAGNode.level m) b'); [|done].
  rewrite lookup_take_lt by done.
  rewrite (prefix_lookup_lt _ sched j); [done| |done].
  apply lookup_lt_Some in Hi. lia.
Qed.

Lemma executeDAG_dependencies_first_witness :
  ∃ sched r w' tr,
    schedule [DAGNode.mk "issue-1" 1 (lit "task") [] 0;
              DAGNode.mk "issue-2" 2 (lit "task") ["issue-1"] 1;
              DAGNode.mk "issue-3" 3 (lit "task") ["issue-1"; "issue-2"] 2]
      2 = Some sched ∧
    executeDAG [DAGNode.mk "issue-1" 1 (lit "task") [] 0;
                DAGNode.mk "issue-2" 2 (lit "task") ["issue-1"] 1;
                DAGNode.mk "issue-3" 3 (lit "task") ["issue-1"; "issue-2"] 2]
      2 false okEnv world0 = Some (r, w') ∧
    trace w' = trace world0 ++ tr ∧
    (∀ i j l b l' b', sched !! i = Some (l, b) →
       DAGNode.mk "issue-3" 3 (lit "task") ["issue-1"; "issue-2"] 2 ∈ b →
       sched !! j = Some (l', b') →
       DAGNode.mk "issue-2" 2 (lit "task") ["issue-1"] 1 ∈ b' → j < i) ∧
    (∀ p q l b, tr = p ++ Launch l b :: q →
       DAGNode.mk "issue-3" 3 (lit "task") ["issue-1"; "issue-2"] 2 ∈ b →
       ∃ ok, Settled (DAGNode.mk "issue-2" 2 (lit "task") ["issue-1"] 1) ok
             ∈ p).
Proof.
  apply (executeDAG_dependencies_first chainIssues).
  - compute_done.
  - apply (decreasesAlongEdges_acyclic
             (rankOf [("issue-1", 0); ("issue-2", 1); ("issue-3", 2)])).
    by vm_compute.
  - by vm_compute.
  - lia.
  - apply list_elem_of_lookup. by exists 2.
  - apply list_elem_of_lookup. by exists 1.
  - cbn. apply elem_of_cons. right. apply elem_of_cons. by left.
Defined.

(** X2: for a concurrency of 1 or more and any list of nodes, the chunks
    of the plan hold every node of the list exactly once; a run launches a
    prefix of the plan, so no pipeline is started twice, and a run that does
    not throw has started the pipeline of every node exactly once. *)
Theorem executeDAG_runs_every_node_once dag (k : Z) dryRun env w :
  (1 ≤ k)%Z →
  ∃ sched r w' tr,
    schedule dag k = Some sched ∧
    executeDAG dag k dryRun env w = Some (r, w') ∧
    trace w' = trace w ++ tr ∧
    concat (snd <$> sched) ≡ₚ dag ∧
    (∃ rest, concat (snd <$> launches tr) ++ rest ≡ₚ dag) ∧
    (throws r = false → concat (snd <$> launches tr) ≡ₚ dag).
Proof.
  intros Hk.
  destruct (schedule_spec dag k Hk) as (sched & Hs & _ & _).
  pose proof (schedule_partition dag k sched Hk Hs) as Hperm.
  pose proof Hs as Hs'. unfold schedule in Hs'. unfold executeDAG.
  destruct (runLevels_spec env dryRun k _ _ w sched Hs')
    as (r & w' & Hrun & Hr & Htr & _).
  exists sched, r, w',
    (concat (batchEvents env dryRun <$> launched env dryRun sched)).
  rewrite launches_events. split_and!; [done..| |].
  - destruct (launched_prefix env dryRun sched) as [rest Hrest].
    exists (concat (snd <$> rest)).
    by rewrite <-concat_app, <-fmap_app, <-Hrest.
  - intros Hok. rewrite Hr in Hok. by rewrite launched_all.
Qed.

Lemma executeDAG_runs_every_node_once_witness :
  ∃ sched r w' tr,
    schedule [nodeF; nodeC; nodeD; nodeE] 2 = Some sched ∧
    executeDAG [nodeF; nodeC; nodeD; nodeE] 2 false okEnv world0
    = Some (r, w') ∧
    trace w' = trace world0 ++ tr ∧
    concat (snd <$> sched) ≡ₚ [nodeF; nodeC; nodeD; nodeE] ∧
    (∃ rest, concat (snd <$> launches tr) ++ rest
             ≡ₚ [nodeF; nodeC; nodeD; nodeE]) ∧
    (throws r = false →
     concat (snd <$> launches tr) ≡ₚ [nodeF; nodeC; nodeD; nodeE]).
Proof.
  apply (executeDAG_runs_every_node_once [nodeF; nodeC; nodeD; nodeE] 2
           false okEnv world0).
  lia.
Defined.

(** X3: with a concurrency of 0 or less, [executeDAG] on a list of nodes
    that is not empty never launches anything: the loop that cuts the first
    level that has nodes into batches does not end, whatever the number of
    turns it is given.  On the empty list [executeDAG] returns at once, for
    every concurrency. *)
Theorem executeDAG_nonpositive_concurrency dag (k : Z) dryRun env w :
  (k ≤ 0)%Z →
  (∀ k', executeDAG [] k' dryRun env w = Some (Returned (), w)) ∧
  (dag ≠ [] →
   executeDAG dag k dryRun env w = None ∧
   ∃ l, atLevel l dag ≠ [] ∧
        ∀ fuel, makeBatches fuel (atLevel l dag) k 0 = None).
Proof.
  intros Hk. split; [done|]. intros Hne.
  destruct dag as [|x dag]; [done|].
  assert (x ∈ atLevel (DAGNode.level x) (x :: dag)) as Hx.
  { unfold atLevel. apply list_elem_of_filter. split; [done|by left]. }
  split.
  - unfold executeDAG.
    destruct (levelRange_seq (groupByLevel (x :: dag))) as (n & -> & Hdom).
    apply runLevels_diverges; [done|].
    exists (DAGNode.level x). split.
    + split; [lia|]. apply Hdom, groupByLevel_dom. by left.
    + rewrite groupByLevel_lookup. intros Hnil. rewrite Hnil in Hx.
      by apply elem_of_nil in Hx.
  - exists (DAGNode.level x). split.
    + intros Hnil. rewrite Hnil in Hx. by apply elem_of_nil in Hx.
    + intros fuel. apply makeBatches_diverges; [done|].
      destruct (atLevel _ _); [by apply elem_of_nil in Hx|cbn; lia].
Qed.

Lemma executeDAG_nonpositive_concurrency_witness :
  (∀ k', executeDAG [] k' false okEnv world0 = Some (Returned (), world0)) ∧
  ([nodeC; nodeD] ≠ [] →
   executeDAG [nodeC; nodeD] 0 false okEnv world0 = None ∧
   ∃ l, atLevel l [nodeC; nodeD] ≠ [] ∧
        ∀ fuel, makeBatches fuel (atLevel l [nodeC; nodeD]) 0 0 = None).
Proof.
  apply (executeDAG_nonpositive_concurrency [nodeC; nodeD] 0 false okEnv
           world0).
  lia.
Defined.

End SchedulerProperties.

Section MissingDependencies.

Lemma max_list_fmap_filter {A} (f : A → nat) (P : A → Prop)
    `{!∀ x, Decision (P x)} (l : list A) :
  (∀ x, x ∈ l → ¬ P x → f x = 0) →
  max_list (f <$> l) = max_list (f <$> filter P l).
Proof.
  induction l as [|x l IH]; intros H0; [done|].
  rewrite fmap_cons, filter_cons. cbn [max_list].
  rewrite IH by (intros y Hy; apply H0; by right).
  destruct (decide (P x)) as [|Hx]; [done|].
  rewrite (H0 x) by (done || by left). done.
Qed.

(** X4: on an acyclic list of issues with pairwise distinct numbers, a
    dependency that names no issue of the run counts as level 0: the level
    of a node that has dependencies is 1 + the largest level among those
    of its dependencies that name a node of the run, and 1 when none of
    them does. *)
Theorem buildDAG_missing_dependencies issues dag n :
  NoDup (Issue.number <$> issues) → acyclic issues →
  buildDAG issues = Some dag → n ∈ dag → DAGNode.dependencies n ≠ [] →
  DAGNode.level n
  = 1 + max_list (levelOf dag
                    <$> filter (λ d, d ∈ DAGNode.id <$> dag)
                          (DAGNode.dependencies n)) ∧
  ((∀ d, d ∈ DAGNode.dependencies n → d ∉ DAGNode.id <$> dag) →
   DAGNode.level n = 1).
Proof.
  intros Hnd Hacyc Hbuild Hn Hdeps.
  destruct (buildDAG_levels issues dag Hnd Hacyc Hbuild) as [_ Hlev].
  specialize (Hlev n Hn).
  assert (DAGNode.level n
          = 1 + max_list (levelOf dag <$> DAGNode.dependencies n)) as Heq.
  { destruct (DAGNode.dependencies n); [done|lia]. }
  rewrite (max_list_fmap_filter _ (λ d, d ∈ DAGNode.id <$> dag)) in Heq.
  2:{ intros d _ Hd. by apply levelOf_absent. }
  split; [done|]. intros Hnone. rewrite Heq.
  assert (filter (λ d, d ∈ DAGNode.id <$> dag) (DAGNode.dependencies n)
          = []) as ->; [|done].
  clear -Hnone. induction (DAGNode.dependencies n) as [|d deps IH]; [done|].
  rewrite filter_cons. destruct (decide (d ∈ DAGNode.id <$> dag)) as [Hd|_].
  - exfalso. apply (Hnone d); [by left|done].
  - apply IH. intros d' Hd'. apply Hnone. by right.
Qed.

Lemma buildDAG_missing_dependencies_witness :
  ∃ dag n,
    buildDAG [simpleIssue 5 "depends: #9 depends: #7"; simpleIssue 7 ""]
    = Some dag ∧ n ∈ dag ∧ DAGNode.number n = 5%N ∧
    DAGNode.level n
    = 1 + max_list (levelOf dag
                      <$> filter (λ d, d ∈ DAGNode.id <$> dag)
                            (DAGNode.dependencies n)) ∧
    ((∀ d, d ∈ DAGNode.dependencies n → d ∉ DAGNode.id <$> dag) →
     DAGNode.level n = 1).
Proof.
  eexists _, (DAGNode.mk "issue-5" 5 (lit "task") ["issue-9"; "issue-7"] 1).
  assert (Hbuild :
            buildDAG [simpleIssue 5 "depends: #9 depends: #7";
                      simpleIssue 7 ""]
            = Some [DAGNode.mk "issue-7" 7 (lit "task") [] 0;
                    DAGNode.mk "issue-5" 5 (lit "task")
                      ["issue-9"; "issue-7"] 1]) by (by vm_compute).
  assert (Hin : DAGNode.mk "issue-5" 5 (lit "task") ["issue-9"; "issue-7"] 1
                ∈ [DAGNode.mk "issue-7" 7 (lit "task") [] 0;
                   DAGNode.mk "issue-5" 5 (lit "task")
                     ["issue-9"; "issue-7"] 1]).
  { apply list_elem_of_lookup. by exists 1. }
  split; [exact Hbuild|]. split; [exact Hin|]. split; [done|].
  apply (buildDAG_missing_dependencies
           [simpleIssue 5 "depends: #9 depends: #7"; simpleIssue 7 ""]).
  - compute_done.
  - apply (decreasesAlongEdges_acyclic
             (rankOf [("issue-7", 0); ("issue-5", 1)])).
    by vm_compute.
  - exact Hbuild.
  - exact Hin.
  - done.
Defined.

End MissingDependencies.

(* ===================================================================== *)
(** * Part IV: further properties of executeIssue *)
(* ===================================================================== *)

Section Calls.

Ltac destruct_stage :=
  match goal with
  | |- context [match issueAddLabels ?e with _ => _ end] =>
      destruct (issueAddLabels e) as [[]|?] eqn:?
  | |- context [match generateCode ?e with _ => _ end] =>
      destruct (generateCode e) as [?|?] eqn:?
  | |- context [success ?r] => destruct (success r) eqn:?
  | |- context [match writeFiles ?e with _ => _ end] =>
      destruct (writeFiles e) as [[]|?] eqn:?
  | |- context [ReviewAgent.passed ?r] =>
      destruct (ReviewAgent.passed r) eqn:?
  | |- context [match createPR ?e with _ => _ end] =>
      destruct (createPR e) as [?|?] eqn:?
  | |- context [prSuccess ?r] => destruct (prSuccess r) eqn:?
  | |- context [match prNumber ?r with _ => _ end] =>
      destruct (prNumber r) as [?|] eqn:?
  | |- context [(?n =? 0)%N] => destruct (N.eqb_spec n 0)
  end; cbn [negb app mbind Outcome_bind].

Ltac pick_call := repeat (first [by left | right]).

Ltac calls_crush :=
  repeat match goal with
         | H : _ ∧ _ |- _ => destruct H
         | H : ∃ _, _ |- _ => destruct H
         | H : _ ∨ _ |- _ => destruct H
         | H : False |- _ => destruct H
         end;
  simplify_eq;
  first [ done
        | congruence
        | by pick_call
        | split_and?; first [done | by eexists | by pick_call] ].


(** X6: when [executeIssue] is not a dry run, the calls of its [try] block
    are an initial part of: add the labels, generate, write the files,
    review, create the pull request, label it.  The pull request is created
    exactly when every earlier stage has returned and the review has
    passed, and it is labelled exactly when, besides, its creation
    succeeded with a number that is not 0; a run that does not throw has
    created it. *)
Theorem executeIssue_calls_in_order env :
  (∃ n, tryBlockCalls false env
        `prefix_of` [CallAddLabels; CallGenerateCode; CallWriteFiles;
                     CallReview; CallCreatePR; CallLabelPR n]) ∧
  (CallCreatePR ∈ tryBlockCalls false env ↔
   issueAddLabels env = Returned () ∧
   (∃ r, generateCode env = Returned r ∧ success r = true) ∧
   writeFiles env = Returned () ∧
   ReviewAgent.passed (ReviewAgent.review (reviewEnv env)) = true) ∧
  (∀ n, CallLabelPR n ∈ tryBlockCalls false env ↔
        CallCreatePR ∈ tryBlockCalls false env ∧
        ∃ pr, createPR env = Returned pr ∧ prSuccess pr = true ∧
              prNumber pr = Some n ∧ n ≠ 0%N) ∧
  (∀ res, tryBlock false env = Returned res →
          CallCreatePR ∈ tryBlockCalls false env).
Proof.
  split_and!.
  - unfold tryBlockCalls. cbn [app]. repeat destruct_stage.
    all: try (exists 0%N; by eexists).
    eexists. by exists [].
  - unfold tryBlockCalls. cbn [app]. repeat destruct_stage.
    all: rewrite ?elem_of_cons, ?elem_of_nil.
    all: split; intros H; calls_crush.
  - intros n. unfold tryBlockCalls. cbn [app]. repeat destruct_stage.
    all: rewrite ?elem_of_cons, ?elem_of_nil.
    all: split; intros H; calls_crush.
  - intros res. unfold tryBlock, tryBlockCalls. cbn [app].
    cbn [mbind Outcome_bind]. repeat destruct_stage.
    all: rewrite ?elem_of_cons, ?elem_of_nil.
    all: intros H; calls_crush.
Qed.

End Calls.

Section LogRecords.

Variable env : N → PipelineEnv.
Variable dryRun : bool.

Local Abbreviation fetchedP := (λ n : DAGNode.t, fetched env n = true).

Lemma runNode_log_length node w :
  length (executionLog (snd (runNode env dryRun node w)))
  = length (executionLog w) + length (filter fetchedP [node]).
Proof.
  unfold runNode, fetched. rewrite filter_cons, filter_nil.
  destruct (fetchIssue (env (DAGNode.number node))) as [issue|m].
  - destruct (executeIssue_log issue dryRun (env (DAGNode.number node)) w)
      as (status & Hlog & _).
    destruct (executeIssue _ _ _ _) as [r w1]. cbn [fst snd] in *.
    cbn [executionLog throws negb]. rewrite Hlog, length_app.
    by destruct (decide (true = true)).
  - cbn [snd executionLog throws negb].
    destruct (decide (false = true)); [done|]. cbn. lia.
Qed.

Lemma settleAll_log_length batch : ∀ w,
  length (executionLog (snd (settleAll env dryRun batch w)))
  = length (executionLog w) + length (filter fetchedP batch).
Proof.
  induction batch as [|node batch IH]; intros w; [cbn; lia|].
  cbn [settleAll]. pose proof (runNode_log_length node w) as Hn.
  destruct (runNode env dryRun node w) as [r w1]. cbn [snd] in Hn.
  specialize (IH w1).
  destruct (settleAll env dryRun batch w1) as [rs w2]. cbn [snd] in *.
  rewrite IH, Hn. change (node :: batch) with ([node] ++ batch).
  rewrite filter_app, length_app. lia.
Qed.

Lemma runBatches_log_length level batches : ∀ w,
  length (executionLog (snd (runBatches env dryRun level batches w)))
  = length (executionLog w)
    + length (filter fetchedP
                (concat (snd <$> launched env dryRun
                                   (pair level <$> batches)))).
Proof.
  induction batches as [|batch batches IH]; intros w; [cbn; lia|].
  rewrite fmap_cons. cbn [runBatches launched].
  destruct (runBatch_spec env dryRun level batch w) as (Hr & _).
  assert (length (executionLog (snd (runBatch env dryRun level batch w)))
          = length (executionLog w) + length (filter fetchedP batch))
    as Hlen.
  { unfold runBatch. by rewrite settleAll_log_length. }
  destruct (runBatch env dryRun level batch w) as [r w1].
  cbn [fst snd] in *. rewrite <-Hr.
  destruct r as [[]|m]; cbn [throws snd].
  - rewrite IH, Hlen, fmap_cons. cbn [concat snd].
    rewrite filter_app, length_app. lia.
  - cbn [fmap list_fmap concat snd]. by rewrite app_nil_r.
Qed.

Lemma runLevels_log_length (k : Z) levels range : ∀ w sched r w',
  scheduleLevels k levels range = Some sched →
  runLevels env dryRun k levels range w = Some (r, w') →
  length (executionLog w')
  = length (executionLog w)
    + length (filter fetchedP
                (concat (snd <$> launched env dryRun sched))).
Proof.
  induction range as [|level range IH]; intros w sched r w' Hs Hrun.
  - injection Hs as <-. injection Hrun as _ <-. cbn. lia.
  - cbn [scheduleLevels runLevels] in *.
    destruct (default [] (levels !! level)) as [|n ns]; [by eapply IH|].
    destruct (makeBatches _ _ _ _) as [batches|]; [|done].
    destruct (scheduleLevels k levels range) as [rest|] eqn:Hrest; [|done].
    injection Hs as <-.
    destruct (runBatches_spec env dryRun level batches w) as (Hr & _).
    pose proof (runBatches_log_length level batches w) as Hlen.
    destruct (runBatches env dryRun level batches w) as [r1 w1].
    cbn [fst snd] in *. rewrite launched_app, <-Hr.
    destruct r1 as [[]|m]; cbn [throws].
    + rewrite (IH w1 rest r w' eq_refl Hrun), Hlen.
      rewrite (launched_all env dryRun (pair level <$> batches)) by done.
      rewrite fmap_app, concat_app, filter_app, length_app. lia.
    + injection Hrun as _ <-. done.
Qed.

End LogRecords.



(* ===================================================================== *)
(** * Part V: further properties of the review *)
(* ===================================================================== *)

Section ReviewProperties.

Import ReviewAgent.

Lemma review_issues env :
  issues (review env)
  = fst (fst (checkTypeScript env)) ++ fst (fst (fst (checkESLint env)))
    ++ fst (fst (checkSecurity env)) ∧
  summaryErrors (review env)
  = length (filter (λ i, severity i = error) (issues (review env))) ∧
  summaryWarnings (review env)
  = length (filter (λ i, severity i = warning) (issues (review env))) ∧
  summaryInfo (review env)
  = length (filter (λ i, severity i = info) (issues (review env))) ∧
  eslintErrors (review env) = snd (fst (fst (checkESLint env))) ∧
  eslintWarnings (review env) = snd (fst (checkESLint env)) ∧
  vulnerabilities (review env) = snd (fst (checkSecurity env)).
Proof.
  unfold review.
  destruct (checkTypeScript env) as [[tsIssues tsErrors] tsScore].
  destruct (checkESLint env) as [[[lintIssues lintErrors] lintWarnings] es].
  destruct (checkSecurity env) as [[secIssues vulns] secScore].
  done.
Qed.

Lemma count_severity (sv : Severity) (l : list QualityIssue) :
  Forall (λ i, severity i = sv) l →
  ∀ sv', length (filter (λ i, severity i = sv') l)
         = if decide (sv = sv') then length l else 0.
Proof.
  induction 1 as [|i l Hi _ IH]; intros sv'.
  - by destruct (decide (sv = sv')).
  - rewrite filter_cons, Hi. specialize (IH sv').
    destruct (decide (sv = sv')); cbn [length]; by rewrite IH.
Qed.

Lemma severity_partition (l : list QualityIssue) :
  length (filter (λ i, severity i = error) l)
  + length (filter (λ i, severity i = warning) l)
  + length (filter (λ i, severity i = info) l) = length l.
Proof.
  induction l as [|i l IH]; [done|]. rewrite !filter_cons.
  destruct (severity i); repeat case_decide; try done; cbn [length]; lia.
Qed.

Lemma checkTypeScript_issues env :
  Forall (λ i, severity i = error) (fst (fst (checkTypeScript env))) ∧
  length (fst (fst (checkTypeScript env)))
  = match tsc env with Some out => length (errorLines out) | None => 0 end.
Proof.
  unfold checkTypeScript. destruct (tsc env) as [out|]; cbn [fst].
  - split; [|by rewrite length_fmap]. apply Forall_fmap, Forall_forall.
    by intros ? _.
  - done.
Qed.

Lemma checkESLint_issues env :
  let lintIssues := fst (fst (fst (checkESLint env))) in
  snd (fst (fst (checkESLint env)))
  = length (filter (λ i, severity i = error) lintIssues) ∧
  snd (fst (checkESLint env))
  = length (filter (λ i, severity i = warning) lintIssues) ∧
  length (filter (λ i, severity i = info) lintIssues) = 0.
Proof.
  assert (∀ l : list QualityIssue,
            Forall (λ i, severity i ≠ info) l →
            length (filter (λ i, severity i ≠ error) l)
            = length (filter (λ i, severity i = warning) l) ∧
            length (filter (λ i, severity i = info) l) = 0) as Hcount.
  { induction 1 as [|i l Hi _ [IH1 IH2]]; [done|].
    rewrite !filter_cons.
    destruct (severity i); repeat case_decide; try done; cbn [length];
      split; lia. }
  unfold checkESLint. destruct (eslint env) as [results|]; [|done].
  set (lintIssues := concat _).
  assert (Forall (λ i, severity i ≠ info) lintIssues) as Hsev.
  { unfold lintIssues. apply Forall_concat, Forall_fmap, Forall_forall.
    intros [f ms] _. cbn. apply Forall_fmap, Forall_forall. intros m _.
    unfold lintIssue. cbn. by destruct (lintSeverity m =? 2)%N. }
  destruct (Hcount lintIssues Hsev) as [Hw Hi].
  destruct (length (filter (λ i, severity i = error) lintIssues)) eqn:He,
           (length (filter (λ i, severity i ≠ error) lintIssues)) eqn:Hne;
    cbn [fst snd]; rewrite ?He; split_and!; try done; lia.
Qed.

Lemma scanFile_issues r :
  Forall (λ i, severity i = warning) (snd (scanFile r)) ∧
  length (snd (scanFile r)) ≤ fst (scanFile r).
Proof.
  unfold scanFile. destruct (snd r) as [counts|]; cbn [fst snd]; [|done].
  split.
  - apply Forall_fmap, Forall_forall. by intros ? _.
  - rewrite length_fmap.
    induction counts as [|[c m] counts IH]; [done|].
    rewrite filter_cons. cbn [fst].
    destruct (decide (c ≠ 0)); [|done]. cbn. lia.
Qed.

Lemma checkSecurity_issues env :
  Forall (λ i, severity i = warning) (fst (fst (checkSecurity env))) ∧
  length (fst (fst (checkSecurity env))) ≤ snd (fst (checkSecurity env)).
Proof.
  assert (Forall (λ i, severity i = warning)
            (concat (snd <$> (scanFile <$> securityReads env))) ∧
          length (concat (snd <$> (scanFile <$> securityReads env)))
          ≤ sum_list (fst <$> (scanFile <$> securityReads env))) as [H1 H2].
  { induction (securityReads env) as [|r rs [IH1 IH2]]; [done|].
    rewrite !fmap_cons. cbn [concat sum_list].
    destruct (scanFile_issues r) as [Hr1 Hr2]. split.
    - by apply Forall_app.
    - rewrite length_app.
      unfold id in *. lia. }
  unfold checkSecurity.
  destruct (sum_list _) eqn:Hsum; cbn [fst snd]; split; (done || lia).
Qed.

(** X8: in the result of a review every issue is an error or a warning,
    never an info: the three counts of the summary add up to the number of
    issues with the info count always 0; the errors are the compiler's
    error lines and the lint errors, the warnings the lint warnings and the
    security warnings, of which there are at most as many as
    vulnerabilities counted. *)
Theorem review_summary_counts env :
  summaryErrors (review env) + summaryWarnings (review env)
  + summaryInfo (review env) = length (issues (review env)) ∧
  summaryInfo (review env) = 0 ∧
  summaryErrors (review env)
  = match tsc env with Some out => length (errorLines out) | None => 0 end
    + eslintErrors (review env) ∧
  eslintWarnings (review env) ≤ summaryWarnings (review env) ∧
  summaryWarnings (review env)
  ≤ eslintWarnings (review env) + vulnerabilities (review env).
Proof.
  destruct (review_issues env) as (Hi & -> & -> & -> & -> & -> & ->).
  rewrite Hi. clear Hi.
  destruct (checkTypeScript_issues env) as [Hts Htslen].
  destruct (checkESLint_issues env) as (Hle & Hlw & Hli).
  destruct (checkSecurity_issues env) as [Hsec Hseclen].
  cbn zeta in *. rewrite !filter_app, !length_app.
  rewrite !(count_severity error _ Hts), !(count_severity warning _ Hsec).
  rewrite Hli, <-Hle, <-Hlw, <-Htslen.
  destruct (decide (error = error)); [|done].
  destruct (decide (error = warning)); [done|].
  destruct (decide (error = info)); [done|].
  destruct (decide (warning = error)); [done|].
  destruct (decide (warning = warning)); [|done].
  destruct (decide (warning = info)); [done|].
  pose proof (severity_partition (fst (fst (fst (checkESLint env)))))
    as Hlint.
  rewrite Hli in Hlint. lia.
Qed.

Lemma checkSecurity_readable env env' :
  securityReads env'
  = filter (λ r, is_Some (snd r)) (securityReads env) →
  checkSecurity env' = checkSecurity env.
Proof.
  intros Hreads.
  assert (sum_list (fst <$> (scanFile <$> securityReads env'))
          = sum_list (fst <$> (scanFile <$> securityReads env)) ∧
          concat (snd <$> (scanFile <$> securityReads env'))
          = concat (snd <$> (scanFile <$> securityReads env))) as [Hs Hc].
  { rewrite Hreads. clear.
    induction (securityReads env) as [|[f [counts|]] rs [IH1 IH2]]; [done|..].
    - rewrite filter_cons. cbn [snd].
      destruct (decide (is_Some (Some counts))) as [_|[]]; [|by eexists].
      rewrite !fmap_cons. cbn [sum_list sum_list_with concat].
      by rewrite IH1, IH2.
    - rewrite filter_cons. cbn [snd].
      destruct (decide (is_Some (@None (list (nat * jsstring)))))
        as [[? [=]]|_].
      rewrite !fmap_cons. cbn [sum_list sum_list_with concat].
      by rewrite IH1, IH2. }
  unfold checkSecurity. by rewrite Hs, Hc.
Qed.

Lemma checkComplexity_readable env env' :
  complexityReads env' = filter is_Some (complexityReads env) →
  checkComplexity env' = checkComplexity env.
Proof.
  intros Hreads.
  assert (omap id (complexityReads env') = omap id (complexityReads env))
    as Hread.
  { rewrite Hreads. clear.
    induction (complexityReads env) as [|[b|] bs IH]; [done|..].
    - rewrite filter_cons.
      destruct (decide (is_Some (Some b))) as [_|[]]; [|by eexists].
      cbn [omap list_omap id]. by rewrite <-IH.
    - rewrite filter_cons.
      destruct (decide (is_Some (@None Branches))) as [[? [=]]|_].
      done. }
  unfold checkComplexity, avgComplexity. by rewrite Hread.
Qed.


Lemma cleanTotals_true :
  forallb (λ c, (90 <=? Math_round (weighted 100 100 100 c))%Z)
    (seqZ 0 101) = true ∧
  Math_round (weighted 100 100 100 100) = 100%Z.
Proof. by vm_compute. Qed.

(** X10: the complexity check alone never fails a review: when the
    compiler, the linter and the security scan each give 100, the review
    passes with a total of at least 90, and of 100 when the complexity
    score is 100 too. *)
Theorem review_passes_on_clean_checks env :
  typeScriptScore (review env) = 100%Z →
  eslintScore (review env) = 100%Z →
  securityScore (review env) = 100%Z →
  passed (review env) = true ∧
  (90 ≤ score (review env) ≤ 100)%Z ∧
  (complexityScore (review env) = 100%Z → score (review env) = 100%Z).
Proof.
  intros Hts Hes Hsec.
  destruct (review_fields env) as (Hscore & Hpassed & _ & _ & _ & Hcx).
  pose proof (checkComplexity_range env) as Hrange. rewrite <-Hcx in Hrange.
  rewrite Hts, Hes, Hsec in Hscore.
  destruct cleanTotals_true as [Hall H100].
  assert (90 ≤ score (review env))%Z as Hlow.
  { rewrite Hscore. apply Z.leb_le.
    apply (forallb_elem _ _ _ Hall), elem_of_seqZ. lia. }
  assert (score (review env) ≤ 100)%Z as Hhigh.
  { rewrite Hscore. apply total_in_range; try done; compute_done. }
  split_and!.
  - rewrite Hpassed. apply Z.leb_le. unfold threshold. lia.
  - done.
  - done.
  - intros H. by rewrite Hscore, H.
Qed.

Lemma review_passes_on_clean_checks_witness :
  passed (review (mkEnv None None [] [Some (mkBranches 30 0 0 0 0)])) = true ∧
  (90 ≤ score (review (mkEnv None None [] [Some (mkBranches 30 0 0 0 0)]))
   ≤ 100)%Z ∧
  (complexityScore
     (review (mkEnv None None [] [Some (mkBranches 30 0 0 0 0)])) = 100%Z →
   score (review (mkEnv None None [] [Some (mkBranches 30 0 0 0 0)]))
   = 100%Z).
Proof.
  apply (review_passes_on_clean_checks
           (mkEnv None None [] [Some (mkBranches 30 0 0 0 0)]));
    by vm_compute.
Defined.

(** A binary64 value below 79.5 rounds to less than 80. *)
Lemma Math_round_below_threshold x :
  (x <? 79.5)%float = true → (Math_round x < 80)%Z.
Proof.
  intros Hlt. rewrite FloatAxioms.ltb_spec in Hlt.
  pose proof (Prim2SF_valid x) as Hvalid. unfold Math_round.
  change (Prim2SF 79.5) with (S754_finite false 5594315162124288 (-46))
    in Hlt.
  destruct (Prim2SF x) as [?|?| |s m e]; try done.
  apply valid_mantissa_bound in Hvalid.
  unfold SFltb, SFcompare in Hlt.
  destruct s.
  - (* x < 0 *)
    destruct (0 <=? e)%Z eqn:He.
    + apply Z.leb_le in He. rewrite Z.shiftl_mul_pow2 by done.
      assert (0 < 2 ^ e)%Z by (apply Z.pow_pos_nonneg; lia). nia.
    + apply Z.leb_gt in He.
      rewrite Z.shiftr_div_pow2, !Z.shiftl_mul_pow2 by lia.
      assert (0 < 2 ^ (- e))%Z as HP by (apply Z.pow_pos_nonneg; lia).
      assert (0 < 2 ^ (1 - e))%Z as HP' by (apply Z.pow_pos_nonneg; lia).
      apply Z.div_lt_upper_bound; [done|].
      replace (1 - e)%Z with (Z.succ (- e)) by lia.
      rewrite Z.pow_succ_r by lia. change (2 ^ 1)%Z with 2%Z. lia.
  - (* 0 < x < 79.5 *)
    assert (e < -46 ∨ e = -46 ∧ Z.pos m < 5594315162124288)%Z as Hcases.
    { destruct (Z.compare_spec e (-46)) as [Heq|Hlt'|Hgt'].
      - right. split; [done|].
        pose proof (Pos.compare_spec m 5594315162124288) as Hc.
        unfold Pos.compare in Hc.
        destruct Hc as [Hc|Hc|Hc]; [discriminate Hlt| |discriminate Hlt].
        by apply Pos2Z.pos_lt_pos.
      - left. lia.
      - discriminate Hlt. }
    assert (e < 0)%Z as He by lia.
    rewrite (proj2 (Z.leb_gt 0 e) He).
    rewrite Z.shiftr_div_pow2, !Z.shiftl_mul_pow2 by lia.
    replace (1 - e)%Z with (Z.succ (- e)) by lia.
    rewrite Z.pow_succ_r by lia.
    assert (2 ^ 46 ≤ 2 ^ (- e) ∧ (e < -46 → 2 ^ 47 ≤ 2 ^ (- e)))%Z
      as [HP HP'].
    { split; [|intros]; apply Z.pow_le_mono_r; lia. }
    assert (e = -46 → 2 ^ (- e) = 2 ^ 46)%Z as HP''.
    { by intros ->. }
    set (P := (2 ^ (- e))%Z) in *.
    change (2 ^ 1)%Z with 2%Z.
    change (2 ^ 53)%Z with 9007199254740992%Z in *.
    change (2 ^ 46)%Z with 70368744177664%Z in *.
    change (2 ^ 47)%Z with 140737488355328%Z in *.
    apply Z.div_lt_upper_bound; [lia|].
    destruct Hcases as [Hlow|[He46 Hm]].
    + specialize (HP' Hlow). lia.
    + specialize (HP'' He46). lia.
Qed.

(** The test over the quadruples of sub-scores: outside the scores 40,
    32 and 40 or more for the compiler, the linter and the security scan,
    every weighted sum is below 79.5. *)
Lemma failingTotals_true :
  forallb (λ t, let a := (toNumber t * 0.3)%float in
    forallb (λ e, let b := (a + toNumber e * 0.3)%float in
      forallb (λ s, let q := (b + toNumber s * 0.3)%float in
        if ((40 <=? t) && (32 <=? e) && (40 <=? s))%Z then true
        else forallb (λ c, (q + toNumber c * 0.1 <? 79.5)%float)
               (seqZ 0 101)) tens)
      (seqZ 0 101)) tens = true.
Proof. vm_compute. reflexivity. Qed.

Lemma passing_scores t e s c :
  t ∈ tens → (0 ≤ e ≤ 100)%Z → s ∈ tens → (0 ≤ c ≤ 100)%Z →
  (80 ≤ Math_round (weighted t e s c))%Z →
  (40 ≤ t ∧ 32 ≤ e ∧ 40 ≤ s)%Z.
Proof.
  intros Ht He Hs Hc Hpass.
  assert (e ∈ seqZ 0 101) as He' by (apply elem_of_seqZ; lia).
  assert (c ∈ seqZ 0 101) as Hc' by (apply elem_of_seqZ; lia).
  pose proof (forallb_elem _ tens t failingTotals_true Ht) as H1.
  cbv zeta in H1.
  pose proof (forallb_elem _ (seqZ 0 101) e H1 He') as H2.
  pose proof (forallb_elem _ tens s H2 Hs) as H3.
  cbv beta in H3.
  destruct ((40 <=? t) && (32 <=? e) && (40 <=? s))%Z eqn:Hok.
  - apply andb_true_iff in Hok as [[H40 H32]%andb_true_iff H40'].
    apply Z.leb_le in H40, H32, H40'. done.
  - pose proof (forallb_elem _ (seqZ 0 101) c H3 Hc') as H4.
    apply Math_round_below_threshold in H4. unfold weighted in Hpass. lia.
Qed.

(** X11: a review passes only if the compiler reports at most 6 errors,
    the security scan counts at most 6 vulnerabilities, and the lint
    errors and warnings, at 5 and 2 points each, cost at most 68 points. *)
Theorem review_pass_bounds_defects env :
  passed (review env) = true →
  typeScriptErrors (review env) ≤ 6 ∧
  vulnerabilities (review env) ≤ 6 ∧
  5 * eslintErrors (review env) + 2 * eslintWarnings (review env) ≤ 68.
Proof.
  intros Hpass.
  destruct (review_fields env) as (Hscore & Hp & Hts & Hes & Hsec & Hcx).
  pose proof (checkTypeScript_score _ _ _ _ Hts) as Ets.
  pose proof (checkESLint_score _ _ _ _ _ Hes) as Ees.
  pose proof (checkSecurity_score _ _ _ _ Hsec) as Esec.
  pose proof (checkComplexity_range env) as Rcx. rewrite <-Hcx in Rcx.
  rewrite Hp in Hpass. apply Z.leb_le in Hpass. unfold threshold in Hpass.
  rewrite Hscore in Hpass.
  apply passing_scores in Hpass; [lia| |lia| |lia].
  - rewrite Ets. apply max_tens.
  - rewrite Esec. apply max_tens.
Qed.

Lemma review_pass_bounds_defects_witness :
  typeScriptErrors (review (reviewEnvOf 6 3)) ≤ 6 ∧
  vulnerabilities (review (reviewEnvOf 6 3)) ≤ 6 ∧
  5 * eslintErrors (review (reviewEnvOf 6 3))
  + 2 * eslintWarnings (review (reviewEnvOf 6 3)) ≤ 68.
Proof.
  apply (review_pass_bounds_defects (reviewEnvOf 6 3)). by vm_compute.
Defined.

End ReviewProperties.

(* ===================================================================== *)
(** * Part VI: IssueAgent.analyzeIssue *)
(* ===================================================================== *)

Section AnalyzeIssue.

Import IssueAgent.

Variable toLowerCase : jsstring → jsstring.

Local Abbreviation hitP text :=
  (λ r : string * list jsstring, labelHit toLowerCase text r = true).

Lemma IssueSet_add_elem (s : list string) x y :
  y ∈ IssueAgent.Set_add s x ↔ y ∈ s ∨ y = x.
Proof.
  unfold IssueAgent.Set_add. destruct (decide (x ∈ s)) as [Hin|Hout].
  - split; [by left|]. by intros [?| ->].
  - rewrite elem_of_app, list_elem_of_singleton. done.
Qed.

Lemma IssueSet_add_NoDup (s : list string) x :
  NoDup s → NoDup (IssueAgent.Set_add s x).
Proof.
  intros Hs. unfold IssueAgent.Set_add. destruct (decide (x ∈ s)); [done|].
  apply NoDup_app. split_and!; [done| |apply NoDup_singleton].
  intros y Hy ->%list_elem_of_singleton. done.
Qed.

Lemma foldl_IssueSet_add_fresh (l : list string) : ∀ acc,
  NoDup (acc ++ l) → foldl IssueAgent.Set_add acc l = acc ++ l.
Proof.
  induction l as [|x l IH]; intros acc Hnd; [by rewrite app_nil_r|].
  cbn [foldl]. unfold IssueAgent.Set_add at 2.
  apply NoDup_app in Hnd as (Hacc & Hdisj & Hl).
  destruct (decide (x ∈ acc)) as [Hin|_].
  { exfalso. apply (Hdisj x Hin). by left. }
  rewrite IH; [by rewrite <-app_assoc|].
  rewrite <-app_assoc. apply NoDup_app. split_and!; [done| |done].
  intros y Hy. by apply Hdisj.
Qed.

Lemma scanLabels_spec text labels : ∀ recommended totalMatches matched,
  scanLabels toLowerCase text labels (recommended, totalMatches, matched)
  = (foldl IssueAgent.Set_add recommended
       (fst <$> filter (hitP text) labels),
     totalMatches + length (filter (hitP text) labels),
     matched || existsb (labelHit toLowerCase text) labels).
Proof.
  unfold scanLabels.
  induction labels as [|[label keywords] labels IH];
    intros recommended totalMatches matched.
  - cbn. by rewrite Nat.add_0_r, orb_false_r.
  - cbn [foldl existsb].
    assert (labelHit toLowerCase text (label, keywords)
            = keywordHit toLowerCase text keywords) as Hlh by done.
    destruct (keywordHit toLowerCase text keywords) eqn:Hhit.
    + rewrite filter_cons_True by done.
      rewrite IH, fmap_cons, Hlh. cbn [foldl fst length].
      rewrite orb_true_r. cbn [orb]. by rewrite Nat.add_succ_r.
    + rewrite filter_cons_False by (by rewrite Hlh).
      by rewrite IH, Hlh.
Qed.

Lemma scanRulesFrom_spec text rules : ∀ recommended totalMatches categories,
  scanRulesFrom toLowerCase text (recommended, totalMatches, categories)
    rules
  = (foldl IssueAgent.Set_add recommended
       (fst <$> filter (hitP text) (concat (snd <$> rules))),
     totalMatches + length (filter (hitP text) (concat (snd <$> rules))),
     categories
     + length (filter (λ c, existsb (labelHit toLowerCase text) (snd c)
                            = true) rules)).
Proof.
  unfold scanRulesFrom.
  induction rules as [|[category labels] rules IH];
    intros recommended totalMatches categories.
  - cbn. by rewrite !Nat.add_0_r.
  - cbn [foldl]. rewrite scanLabels_spec. cbn [orb].
    rewrite fmap_cons. cbn [concat snd].
    rewrite filter_app, fmap_app, foldl_app, length_app.
    destruct (existsb (labelHit toLowerCase text) labels) eqn:Hany.
    + rewrite filter_cons_True by done.
      rewrite IH. cbn [length]. f_equal; [|lia]. f_equal. lia.
    + rewrite filter_cons_False by (cbn [snd]; by rewrite Hany).
      rewrite IH. by rewrite Nat.add_assoc.
Qed.

Lemma allRules_NoDup : NoDup (fst <$> allRules).
Proof. apply (bool_decide_unpack _). by vm_compute. Qed.

Lemma filter_labels_NoDup text :
  NoDup (fst <$> filter (hitP text) allRules).
Proof.
  eapply sublist_NoDup; [exact allRules_NoDup|].
  apply fmap_sublist, sublist_filter.
Qed.

(** The closed form of the loops over the rules. *)
Lemma scanRules_spec text :
  scanRules toLowerCase text
  = (fst <$> filter (hitP text) allRules,
     length (filter (hitP text) allRules),
     length (filter (λ c, existsb (labelHit toLowerCase text) (snd c)
                           = true) labelRules)).
Proof.
  unfold scanRules. rewrite scanRulesFrom_spec. fold allRules.
  rewrite foldl_IssueSet_add_fresh by apply filter_labels_NoDup.
  done.
Qed.

Lemma labelMatched_elem text l :
  l ∈ fst <$> filter (hitP text) allRules
  ↔ labelMatched toLowerCase text l = true.
Proof.
  unfold labelMatched. rewrite existsb_exists, list_elem_of_fmap. split.
  - intros (r & -> & [Hhit Hin]%list_elem_of_filter).
    exists r. split; [by apply list_elem_of_In|].
    by rewrite String.eqb_refl, Hhit.
  - intros (r & Hin%list_elem_of_In & [Heq Hhit]%andb_true_iff).
    apply String.eqb_eq in Heq. exists r. split; [done|].
    by apply list_elem_of_filter.
Qed.

Lemma addDefault_elem p label (recommended : list string) l :
  l ∈ addDefault p label recommended
  ↔ l ∈ recommended
    ∨ (l = label ∧ existsb (String.prefix p) recommended = false).
Proof.
  unfold addDefault.
  destruct (existsb (String.prefix p) recommended).
  - split; [by left|]. by intros [?|[_ ?]].
  - rewrite IssueSet_add_elem. split.
    + intros [?|?]; [by left|by right].
    + intros [?|[? _]]; [by left|by right].
Qed.

Lemma addDefault_NoDup p label (recommended : list string) :
  NoDup recommended → NoDup (addDefault p label recommended).
Proof.
  intros Hnd. unfold addDefault.
  destruct (existsb _ _); [done|]. by apply IssueSet_add_NoDup.
Qed.

Lemma addDefault_exists q p label (recommended : list string) :
  existsb (String.prefix q) (addDefault p label recommended)
  = existsb (String.prefix q) recommended
    || (negb (existsb (String.prefix p) recommended)
        && String.prefix q label).
Proof.
  unfold addDefault.
  destruct (existsb (String.prefix p) recommended).
  - cbn [negb andb]. by rewrite orb_false_r.
  - cbn [negb andb]. unfold IssueAgent.Set_add.
    destruct (decide (label ∈ recommended)) as [Hin|_].
    + destruct (String.prefix q label) eqn:Hpre; [|by rewrite orb_false_r].
      rewrite orb_true_r. apply existsb_exists. exists label.
      split; [by apply list_elem_of_In|done].
    + rewrite existsb_app. cbn [existsb]. by rewrite orb_false_r.
Qed.

(** The labels of the table that begin with a given text. *)
Lemma existsb_prefix_matched text q (ls : list string) :
  forallb (λ r : string * list jsstring,
             Bool.eqb (String.prefix q (fst r)) (bool_decide (fst r ∈ ls)))
    allRules = true →
  existsb (String.prefix q) (fst <$> filter (hitP text) allRules)
  = existsb (labelMatched toLowerCase text) ls.
Proof.
  intros Htable. rewrite forallb_forall in Htable.
  apply eq_true_iff_eq. rewrite !existsb_exists. split.
  - intros (l & Hin%list_elem_of_In & Hpre).
    pose proof Hin as Hm. apply labelMatched_elem in Hm.
    apply list_elem_of_fmap in Hin as (r & -> & [_ Hr]%list_elem_of_filter).
    specialize (Htable r (proj1 (list_elem_of_In _ _) Hr)).
    rewrite Hpre in Htable. apply Bool.eqb_prop in Htable.
    symmetry in Htable. apply bool_decide_eq_true in Htable.
    exists (fst r). split; [by apply list_elem_of_In|done].
  - intros (l & Hin%list_elem_of_In & Hm).
    apply labelMatched_elem in Hm. exists l.
    split; [by apply list_elem_of_In|].
    apply list_elem_of_fmap in Hm as (r & -> & [_ Hr]%list_elem_of_filter).
    specialize (Htable r (proj1 (list_elem_of_In _ _) Hr)).
    apply Bool.eqb_prop in Htable. rewrite Htable.
    by apply bool_decide_eq_true.
Qed.

(** The labels after the three defaults: those of the table with a
    keyword in the text, then the defaults that apply. *)
Lemma defaults_recommended text :
  let r0 := fst <$> filter (hitP text) allRules in
  let r3 :=
    addDefault "🎯 phase:" "🎯 phase:planning"
      (addDefault "📥 state:" "📥 state:pending"
         (addDefault "📊 priority:" "📊 priority:P2-Medium" r0)) in
  NoDup r3 ∧
  ∀ l, l ∈ r3 ↔
    labelMatched toLowerCase text l = true
    ∨ (l = "📊 priority:P2-Medium"
       ∧ labelMatched toLowerCase text "📊 priority:P0-Critical" = false)
    ∨ l = "📥 state:pending"
    ∨ (l = "🎯 phase:planning"
       ∧ labelMatched toLowerCase text "🎯 phase:development" = false
       ∧ labelMatched toLowerCase text "🎯 phase:review" = false
       ∧ labelMatched toLowerCase text "🎯 phase:deployment" = false).
Proof.
  intros r0.
  set (r1 := addDefault "📊 priority:" "📊 priority:P2-Medium" r0).
  set (r2 := addDefault "📥 state:" "📥 state:pending" r1).
  intros r3. split.
  { do 3 apply addDefault_NoDup. apply filter_labels_NoDup. }
  assert (existsb (String.prefix "📊 priority:") r0
          = labelMatched toLowerCase text "📊 priority:P0-Critical"
            || labelMatched toLowerCase text "📊 priority:P2-Medium")
    as Hprio.
  { unfold r0.
    rewrite (existsb_prefix_matched text _
               ["📊 priority:P0-Critical"; "📊 priority:P2-Medium"])
      by (by vm_compute).
    cbn [existsb]. by rewrite orb_false_r. }
  assert (existsb (String.prefix "📥 state:") r1
          = labelMatched toLowerCase text "📥 state:pending") as Hstate.
  { unfold r1. rewrite addDefault_exists.
    change (String.prefix "📥 state:" "📊 priority:P2-Medium") with false.
    rewrite andb_false_r, orb_false_r. unfold r0.
    rewrite (existsb_prefix_matched text _ ["📥 state:pending"])
      by (by vm_compute).
    cbn [existsb]. by rewrite orb_false_r. }
  assert (existsb (String.prefix "🎯 phase:") r2
          = labelMatched toLowerCase text "🎯 phase:planning"
            || labelMatched toLowerCase text "🎯 phase:development"
            || labelMatched toLowerCase text "🎯 phase:review"
            || labelMatched toLowerCase text "🎯 phase:deployment")
    as Hphase.
  { unfold r2, r1. rewrite !addDefault_exists.
    change (String.prefix "🎯 phase:" "📥 state:pending") with false.
    change (String.prefix "🎯 phase:" "📊 priority:P2-Medium") with false.
    rewrite !andb_false_r, !orb_false_r. unfold r0.
    rewrite (existsb_prefix_matched text _
               ["🎯 phase:planning"; "🎯 phase:development";
                "🎯 phase:review"; "🎯 phase:deployment"])
      by (by vm_compute).
    cbn [existsb]. by rewrite orb_false_r, !orb_assoc. }
  intros l. unfold r3. rewrite addDefault_elem, Hphase.
  unfold r2. rewrite addDefault_elem, Hstate.
  unfold r1. rewrite addDefault_elem, Hprio.
  unfold r0. rewrite labelMatched_elem.
  destruct (labelMatched toLowerCase text "📊 priority:P0-Critical") eqn:E0,
    (labelMatched toLowerCase text "📊 priority:P2-Medium") eqn:E2,
    (labelMatched toLowerCase text "📥 state:pending") eqn:Ep,
    (labelMatched toLowerCase text "🎯 phase:planning") eqn:Epl,
    (labelMatched toLowerCase text "🎯 phase:development") eqn:Ed,
    (labelMatched toLowerCase text "🎯 phase:review") eqn:Er,
    (labelMatched toLowerCase text "🎯 phase:deployment") eqn:Edp;
    cbn [orb]; split; intros H;
    repeat match goal with
           | H : _ ∨ _ |- _ => destruct H
           | H : _ ∧ _ |- _ => destruct H
           end; subst; try discriminate; auto 10.
Qed.

(** The result of [analyzeIssue] is the list after the defaults, with the
    label of the code generator added when one of its three words occurs. *)
Lemma analyzeIssue_unfold issue :
  let text := textOf toLowerCase issue in
  recommendedLabels (analyzeIssue toLowerCase issue)
  = (let r3 :=
       addDefault "🎯 phase:" "🎯 phase:planning"
         (addDefault "📥 state:" "📥 state:pending"
            (addDefault "📊 priority:" "📊 priority:P2-Medium"
               (fst <$> filter (hitP text) allRules))) in
     if includes text (lit "implement") || includes text (lit "create")
        || includes text (lit "add")
     then IssueAgent.Set_add r3 "🤖 agent:codegen" else r3).
Proof.
  intros text. unfold analyzeIssue. fold text. by rewrite scanRules_spec.
Qed.

(** X12: the labels that [analyzeIssue] recommends, none of them twice,
    are exactly: the labels of the table one of whose keywords occurs in
    the lower-cased title and body; the default priority P2-Medium unless
    P0-Critical was matched; the state pending, always; the phase planning
    unless another phase was matched; and the label of the code generator
    when the text includes "implement", "create" or "add". *)
Theorem analyzeIssue_recommends issue :
  let text := textOf toLowerCase issue in
  let r := recommendedLabels (analyzeIssue toLowerCase issue) in
  NoDup r ∧
  ∀ l, l ∈ r ↔
    labelMatched toLowerCase text l = true
    ∨ (l = "📊 priority:P2-Medium"
       ∧ labelMatched toLowerCase text "📊 priority:P0-Critical" = false)
    ∨ l = "📥 state:pending"
    ∨ (l = "🎯 phase:planning"
       ∧ labelMatched toLowerCase text "🎯 phase:development" = false
       ∧ labelMatched toLowerCase text "🎯 phase:review" = false
       ∧ labelMatched toLowerCase text "🎯 phase:deployment" = false)
    ∨ (l = "🤖 agent:codegen"
       ∧ includes text (lit "implement") || includes text (lit "create")
         || includes text (lit "add") = true).
Proof.
  intros text r. unfold r. rewrite analyzeIssue_unfold. fold text.
  destruct (defaults_recommended text) as [Hnd Hr3]. cbv zeta in *.
  set (r3 := addDefault _ _ _) in *.
  destruct (includes text (lit "implement") || includes text (lit "create")
            || includes text (lit "add")).
  - split; [by apply IssueSet_add_NoDup|].
    intros l. rewrite IssueSet_add_elem, Hr3. split; intros H;
      repeat match goal with
             | H : _ ∨ _ |- _ => destruct H
             | H : _ ∧ _ |- _ => destruct H
             end; subst; auto 10.
  - split; [done|].
    intros l. rewrite Hr3. split; intros H;
      repeat match goal with
             | H : _ ∨ _ |- _ => destruct H
             | H : _ ∧ _ |- _ => destruct H
             end; subst; try discriminate; auto 10.
Qed.

(** X13: every analysis recommends at least three labels: the state
    pending, the priority P0-Critical or P2-Medium, and a phase.  The
    defaults are tested by the beginning of the label, emoji included, so a
    matched priority P1-High, P3-Low or P4-Trivial does not keep P2-Medium
    away, and a matched state in-progress, completed or blocked comes
    together with pending. *)
Theorem analyzeIssue_defaults issue :
  let text := textOf toLowerCase issue in
  let r := recommendedLabels (analyzeIssue toLowerCase issue) in
  "📥 state:pending" ∈ r ∧
  ("📊 priority:P0-Critical" ∈ r ∨ "📊 priority:P2-Medium" ∈ r) ∧
  (∃ l, l ∈ r ∧ String.prefix "🎯 phase:" l = true) ∧
  3 ≤ length r ∧
  (∀ l, l ∈ ["⚠️ priority:P1-High"; "📉 priority:P3-Low";
             "💡 priority:P4-Trivial"] →
        labelMatched toLowerCase text l = true →
        labelMatched toLowerCase text "📊 priority:P0-Critical" = false →
        l ∈ r ∧ "📊 priority:P2-Medium" ∈ r) ∧
  (∀ l, l ∈ ["🚧 state:in-progress"; "✅ state:completed";
             "❌ state:blocked"] →
        labelMatched toLowerCase text l = true →
        l ∈ r ∧ "📥 state:pending" ∈ r).
Proof.
  intros text r.
  assert (NoDup r ∧
          ∀ l, (labelMatched toLowerCase text l = true
                ∨ (l = "📊 priority:P2-Medium"
                   ∧ labelMatched toLowerCase text "📊 priority:P0-Critical"
                     = false)
                ∨ l = "📥 state:pending"
                ∨ (l = "🎯 phase:planning"
                   ∧ labelMatched toLowerCase text "🎯 phase:development"
                     = false
                   ∧ labelMatched toLowerCase text "🎯 phase:review" = false
                   ∧ labelMatched toLowerCase text "🎯 phase:deployment"
                     = false)) → l ∈ r) as [Hnd Hr].
  { unfold r. rewrite analyzeIssue_unfold. fold text.
    destruct (defaults_recommended text) as [Hnd3 Hr3]. cbv zeta in *.
    set (r3 := addDefault _ _ _) in *.
    destruct (includes text (lit "implement")
              || includes text (lit "create") || includes text (lit "add")).
    - split; [by apply IssueSet_add_NoDup|].
      intros l Hl. apply IssueSet_add_elem. left. by apply Hr3.
    - split; [done|]. intros l Hl. by apply Hr3. }
  assert ("📥 state:pending" ∈ r) as Hpending.
  { apply Hr. auto. }
  assert (∃ l, l ∈ ["📊 priority:P0-Critical"; "📊 priority:P2-Medium"]
               ∧ l ∈ r) as (lp & Hlp & Hlpr).
  { destruct (labelMatched toLowerCase text "📊 priority:P0-Critical")
      eqn:E0.
    - exists "📊 priority:P0-Critical". split; [by left|].
      apply Hr. by left.
    - exists "📊 priority:P2-Medium". split; [right; by left|].
      apply Hr. auto. }
  assert (∃ l, l ∈ ["🎯 phase:planning"; "🎯 phase:development";
                    "🎯 phase:review"; "🎯 phase:deployment"]
               ∧ l ∈ r) as (lph & Hlph & Hlphr).
  { destruct (labelMatched toLowerCase text "🎯 phase:development") eqn:Ed.
    { exists "🎯 phase:development". split; [right; by left|].
      apply Hr. by left. }
    destruct (labelMatched toLowerCase text "🎯 phase:review") eqn:Er.
    { exists "🎯 phase:review". split; [do 2 right; by left|].
      apply Hr. by left. }
    destruct (labelMatched toLowerCase text "🎯 phase:deployment") eqn:Edp.
    { exists "🎯 phase:deployment". split; [do 3 right; by left|].
      apply Hr. by left. }
    exists "🎯 phase:planning". split; [by left|]. apply Hr. auto 10. }
  split_and!.
  - done.
  - apply elem_of_cons in Hlp as [->|Hlp]; [by left|].
    apply list_elem_of_singleton in Hlp as ->. by right.
  - exists lph. split; [done|].
    repeat (apply elem_of_cons in Hlph as [->|Hlph]; [done|]).
    by apply elem_of_nil in Hlph.
  - assert (["📥 state:pending"; lp; lph] ⊆+ r) as Hsub.
    { apply NoDup_submseteq.
      - repeat (apply elem_of_cons in Hlp as [->|Hlp]);
          try (by apply elem_of_nil in Hlp);
          repeat (apply elem_of_cons in Hlph as [->|Hlph]);
          try (by apply elem_of_nil in Hlph);
          apply (bool_decide_unpack _); by vm_compute.
      - intros x Hx.
        repeat (apply elem_of_cons in Hx as [->|Hx]; [done|]).
        by apply elem_of_nil in Hx. }
    apply submseteq_length in Hsub. done.
  - intros l Hl Hm H0. split; apply Hr; auto.
  - intros l Hl Hm. split; apply Hr; auto.
Qed.

Lemma categories_le_labels text
    (rules : list (string * list (string * list jsstring))) :
  length (filter (λ c, existsb (labelHit toLowerCase text) (snd c) = true)
            rules)
  ≤ length (filter (hitP text) (concat (snd <$> rules))) ∧
  (length (filter (hitP text) (concat (snd <$> rules))) = 0 ↔
   length (filter (λ c, existsb (labelHit toLowerCase text) (snd c) = true)
             rules) = 0).
Proof.
  induction rules as [|[category labels] rules [IH1 IH2]]; [done|].
  rewrite fmap_cons. cbn [concat snd]. rewrite filter_app, length_app.
  destruct (existsb (labelHit toLowerCase text) labels) eqn:Hany.
  - rewrite filter_cons_True by done. cbn [length].
    assert (1 ≤ length (filter (hitP text) labels)) as Hone.
    { apply existsb_exists in Hany as (r & Hin%list_elem_of_In & Hhit).
      assert (r ∈ filter (hitP text) labels) as Hr
          by (by apply list_elem_of_filter).
      destruct (filter (hitP text) labels); [by apply elem_of_nil in Hr|].
      cbn. lia. }
    split; [lia|]. split; lia.
  - rewrite filter_cons_False by (cbn [snd]; by rewrite Hany).
    assert (filter (hitP text) labels = []) as ->; [|done].
    clear -Hany. induction labels as [|r labels IH]; [done|].
    cbn [existsb] in Hany. apply orb_false_iff in Hany as [Hr Hrest].
    rewrite filter_cons_False by (by rewrite Hr). by apply IH.
Qed.

Lemma confidence_values (n : nat) :
  n ≤ 37 →
  Math_min 1 (toNumber (Z.of_nat n) / 10)
  = (if decide (n < 10) then (toNumber (Z.of_nat n) / 10)%float
     else 1%float) ∧
  (0 <=? Math_min 1 (toNumber (Z.of_nat n) / 10))%float = true ∧
  (Math_min 1 (toNumber (Z.of_nat n) / 10) <=? 1)%float = true.
Proof.
  intros Hn.
  do 38 (destruct n as [|n]; [by vm_compute|]). lia.
Qed.

(** X14: [analyzeIssue] counts one match for each label of the table
    that has a keyword in the text and one for each category that has such
    a label: at most 31 and 6, with as many labels as categories at least,
    and none of the one without the other.  The confidence is a tenth of
    their sum up to 1: it lies between 0 and 1 and is 1 as soon as the sum
    reaches 10. *)
Theorem analyzeIssue_counts issue :
  let text := textOf toLowerCase issue in
  let total :=
    length (filter (λ r, labelHit toLowerCase text r = true) allRules) in
  let categories :=
    length (filter (λ c, existsb (labelHit toLowerCase text) (snd c) = true)
              labelRules) in
  reasoning (analyzeIssue toLowerCase issue)
  = "Matched " +:+ pretty total +:+ " keywords across "
    +:+ pretty categories +:+ " categories" ∧
  categories ≤ total ∧ total ≤ 31 ∧ categories ≤ 6 ∧
  (total = 0 ↔ categories = 0) ∧
  confidence (analyzeIssue toLowerCase issue)
  = (if decide (total + categories < 10)
     then (toNumber (Z.of_nat (total + categories)) / 10)%float
     else 1%float) ∧
  (0 <=? confidence (analyzeIssue toLowerCase issue))%float = true ∧
  (confidence (analyzeIssue toLowerCase issue) <=? 1)%float = true.
Proof.
  intros text total categories.
  unfold analyzeIssue. fold text. rewrite scanRules_spec.
  fold total categories. cbn [reasoning confidence].
  destruct (categories_le_labels text labelRules) as [Hle Hzero].
  fold allRules in Hle, Hzero. fold total categories in Hle, Hzero.
  assert (total ≤ 31) as Htotal.
  { unfold total. etrans; [apply length_filter|]. done. }
  assert (categories ≤ 6) as Hcat.
  { unfold categories. etrans; [apply length_filter|]. done. }
  destruct (confidence_values (total + categories)) as (Hc & H0 & H1);
    [lia|].
  unfold confidenceOf. split_and!; done.
Qed.

End AnalyzeIssue.

(** A title and a body in ASCII: "pr" is found in "priority", the
    priority P1-High comes with the default P2-Medium, and "add" brings the
    label of the code generator. *)
Example analyzeIssue_example :
  IssueAgent.recommendedLabels
    (IssueAgent.analyzeIssue IssueAgent.asciiLower
       (Issue.mk 1 (lit "Add login API") (lit "High priority, in progress")
          [] []))
  = ["✨ type:feature"; "⚠️ priority:P1-High"; "🚧 state:in-progress";
     "🤖 agent:pr"; "🔌 api"; "📊 priority:P2-Medium"; "📥 state:pending";
     "🎯 phase:planning"; "🤖 agent:codegen"] ∧
  IssueAgent.reasoning
    (IssueAgent.analyzeIssue IssueAgent.asciiLower
       (Issue.mk 1 (lit "Add login API") (lit "High priority, in progress")
          [] []))
  = "Matched 5 keywords across 5 categories".
Proof. by vm_compute. Qed.

(* ===================================================================== *)
(** * Part VII: extractKnowledgeFromYAML *)
(* ===================================================================== *)

Section KnowledgeProperties.

Import Knowledge.

(** Induction on values, with the property at hand for the items of an
    array and for the values of the properties of an object. *)
Lemma Value_nested_ind (P : Value → Prop) :
  P VNull → (∀ b, P (VBool b)) → (∀ x, P (VNum x)) → (∀ s, P (VStr s)) →
  (∀ items, Forall P items → P (VArr items)) →
  (∀ props, Forall (λ kv, P (snd kv)) props → P (VObj props)) →
  ∀ v, P v.
Proof.
  intros Hnull Hbool Hnum Hstr Harr Hobj.
  fix IH 1. intros [|b|x|s|items|props].
  - exact Hnull.
  - apply Hbool.
  - apply Hnum.
  - apply Hstr.
  - apply Harr. induction items as [|item items IHitems]; constructor.
    + apply IH.
    + exact IHitems.
  - apply Hobj. induction props as [|[k v] props IHprops]; constructor.
    + apply IH.
    + exact IHprops.
Qed.

Lemma extract_object props :
  extractKnowledgeFromYAML (VObj props)
  = match extractChildren props with
    | Threw m => Threw m
    | Returned nested =>
        Returned ((if knowledgeTest props then [VObj props] else [])
                  ++ nested)
    end.
Proof.
  cbn [extractKnowledgeFromYAML].
  assert (∀ ps,
            (fix children (ps : list (jsstring * Value))
                 : Outcome (list Value) :=
               match ps with
               | [] => Returned []
               | (_, v) :: ps' =>
                   if isObjectType v then
                     match extractKnowledgeFromYAML v with
                     | Threw m => Threw m
                     | Returned entries =>
                         match children ps' with
                         | Threw m => Threw m
                         | Returned rest => Returned (entries ++ rest)
                         end
                     end
                   else children ps'
               end) ps = extractChildren ps) as ->; [|done].
  induction ps as [|[k v] ps IH]; [done|]. cbn [extractChildren].
  by rewrite IH.
Qed.

Lemma meetsNull_object props :
  meetsNull (VObj props) = existsb (λ kv, meetsNull (snd kv)) props.
Proof.
  cbn [meetsNull]. induction props as [|[k v] props IH]; [done|].
  cbn [existsb snd]. by rewrite IH.
Qed.

Lemma extractItems_throws items :
  throws (extractItems items)
  = existsb (λ item, match item with VNull => true | _ => false end) items.
Proof.
  induction items as [|item items IH]; [done|].
  cbn [extractItems existsb]. rewrite <-IH.
  destruct item; cbn [itemTest orb]; try done;
    by destruct (extractItems items).
Qed.

Lemma extractItems_returns items :
  Forall (λ item, item ≠ VNull) items →
  extractItems items = Returned (filter (λ v, isEntry v = true) items).
Proof.
  induction 1 as [|item items Hitem _ IH]; [done|].
  cbn [extractItems]. rewrite IH, filter_cons.
  destruct item as [|b|x|s|its|props]; cbn [itemTest isEntry]; try done;
    try (by case_decide).
  destruct (knowledgeTest props); by case_decide.
Qed.

(** Whether the search throws. *)
Lemma extract_throws v : throws (extractKnowledgeFromYAML v) = meetsNull v.
Proof.
  induction v as [|b|x|s|items _|props IH] using Value_nested_ind;
    try done.
  - cbn [extractKnowledgeFromYAML meetsNull]. apply extractItems_throws.
  - rewrite extract_object, meetsNull_object.
    assert (throws (extractChildren props)
            = existsb (λ kv, meetsNull (snd kv)) props) as <-.
    { induction IH as [|[k v] props Hv _ IHprops]; [done|].
      cbn [extractChildren existsb snd] in *. rewrite <-IHprops, <-Hv.
      destruct (isObjectType v) eqn:Hobj.
      - destruct (extractKnowledgeFromYAML v); cbn [throws orb]; [|done].
        by destruct (extractChildren props).
      - destruct v; try done. }
    by destruct (extractChildren props).
Qed.

Lemma extractItems_Returned items es :
  extractItems items = Returned es →
  es = filter (λ v, isEntry v = true) items.
Proof.
  intros Hes. pose proof (extractItems_throws items) as Hthrows.
  rewrite Hes in Hthrows. cbn [throws] in Hthrows. symmetry in Hthrows.
  assert (Forall (λ item, item ≠ VNull) items) as Hnn.
  { apply Forall_forall. intros item Hin ->.
    assert (existsb (λ item, match item with VNull => true | _ => false end)
              items = true) as Htrue; [|congruence].
    apply existsb_exists. exists VNull.
    split; [by apply list_elem_of_In|done]. }
  rewrite (extractItems_returns items Hnn) in Hes. by injection Hes.
Qed.

Lemma foundIn_isEntry v e : foundIn v e → isEntry e = true.
Proof. induction 1; done. Qed.

(** What the search returns. *)
Lemma extract_found v : ∀ es,
  extractKnowledgeFromYAML v = Returned es → ∀ e, e ∈ es ↔ foundIn v e.
Proof.
  induction v as [|b|x|s|items _|props IH] using Value_nested_ind;
    intros es Hes e.
  - done.
  - injection Hes as <-. split; [by intros ?%elem_of_nil|inversion 1].
  - injection Hes as <-. split; [by intros ?%elem_of_nil|inversion 1].
  - injection Hes as <-. split; [by intros ?%elem_of_nil|inversion 1].
  - cbn [extractKnowledgeFromYAML] in Hes.
    apply extractItems_Returned in Hes as ->.
    rewrite list_elem_of_filter. split.
    + intros [He Hin]. by constructor.
    + inversion 1; subst. done.
  - rewrite extract_object in Hes.
    destruct (extractChildren props) as [nested|m] eqn:Hch; [|done].
    injection Hes as <-.
    assert (∀ e, e ∈ nested ↔
                 ∃ k v, (k, v) ∈ props ∧ isObjectType v = true ∧ foundIn v e)
      as Hnested.
    { clear -IH Hch. revert nested Hch.
      induction IH as [|[k v] props Hv _ IHprops]; intros nested Hch e.
      - injection Hch as <-. split; [by intros ?%elem_of_nil|].
        by intros (? & ? & ?%elem_of_nil & _).
      - cbn [extractChildren snd] in *.
        destruct (isObjectType v) eqn:Hobj.
        + destruct (extractKnowledgeFromYAML v) as [entries|] eqn:Hev;
            [|done].
          destruct (extractChildren props) as [rest|] eqn:Hrest; [|done].
          injection Hch as <-.
          rewrite elem_of_app, (Hv entries eq_refl e),
            (IHprops rest eq_refl e).
          split.
          * intros [Hf|(k' & v' & Hin & Ho & Hf)].
            -- exists k, v. split; [by left|done].
            -- exists k', v'. split; [by right|done].
          * intros (k' & v' & Hin & Ho & Hf).
            apply elem_of_cons in Hin as [[= -> ->]|Hin]; [by left|].
            right. eauto.
        + rewrite (IHprops nested Hch e). split.
          * intros (k' & v' & Hin & Ho & Hf).
            exists k', v'. split; [by right|done].
          * intros (k' & v' & Hin & Ho & Hf).
            apply elem_of_cons in Hin as [[= -> ->]|Hin]; [congruence|].
            eauto. }
    rewrite elem_of_app, Hnested. split.
    + intros [Hown|(k & v & Hin & Ho & Hf)].
      * destruct (knowledgeTest props) eqn:Ht;
          [|by apply elem_of_nil in Hown].
        apply list_elem_of_singleton in Hown as ->. by constructor.
      * by eapply found_child.
    + inversion 1 as [|? Ht|? k v ? Hin Ho Hf]; subst.
      * left. rewrite Ht. by left.
      * right. eauto.
Qed.

(** X15: [extractKnowledgeFromYAML] throws a TypeError exactly when it
    meets a null where it reads a property: the content itself (an empty
    file), an item of an array that it searches, or the value of a key of
    an object that it searches.  In particular an object with a key
    without a value cannot be loaded. *)
Theorem extractKnowledge_throws_on_null :
  (∀ v, throws (extractKnowledgeFromYAML v) = meetsNull v) ∧
  extractKnowledgeFromYAML VNull = Threw (lit "TypeError") ∧
  (∀ items, VNull ∈ items →
            throws (extractKnowledgeFromYAML (VArr items)) = true) ∧
  (∀ props k, (k, VNull) ∈ props →
              throws (extractKnowledgeFromYAML (VObj props)) = true) ∧
  (∀ props k v, (k, v) ∈ props →
                throws (extractKnowledgeFromYAML v) = true →
                throws (extractKnowledgeFromYAML (VObj props)) = true).
Proof.
  split_and!.
  - exact extract_throws.
  - done.
  - intros items Hin. rewrite extract_throws. cbn [meetsNull].
    apply existsb_exists. exists VNull.
    split; [by apply list_elem_of_In|done].
  - intros props k Hin. rewrite extract_throws, meetsNull_object.
    apply existsb_exists. exists (k, VNull).
    split; [by apply list_elem_of_In|done].
  - intros props k v Hin Hv. rewrite extract_throws in Hv.
    rewrite extract_throws, meetsNull_object.
    apply existsb_exists. exists (k, v).
    split; [by apply list_elem_of_In|done].
Qed.

(** X16: when [extractKnowledgeFromYAML] returns, its entries are exactly
    the values found where it looks: the items of a top-level array or of
    an array under a key that pass the test, an object that passes the test,
    and what is found below the keys of an object whose value is an array
    or an object.  The items of an array are tested and never searched:
    from an array without null the result is the items that pass the test,
    in order.  Every entry is an object that passes the test, and a
    boolean, a number or a string gives no entry. *)
Theorem extractKnowledge_entries :
  (∀ v es, extractKnowledgeFromYAML v = Returned es →
           (∀ e, e ∈ es ↔ foundIn v e) ∧
           Forall (λ e, isEntry e = true) es) ∧
  (∀ items, Forall (λ item, item ≠ VNull) items →
            extractKnowledgeFromYAML (VArr items)
            = Returned (filter (λ v, isEntry v = true) items)) ∧
  (∀ v, isObjectType v = false → extractKnowledgeFromYAML v = Returned []) ∧
  extractKnowledgeFromYAML (VArr [entryA; VStr (lit "x"); entryB])
  = Returned [entryA; entryB] ∧
  extractKnowledgeFromYAML (VObj [(lit "a", entryB); (lit "b", VNum 1)])
  = Returned [entryB; VObj [(lit "summary", VStr (lit "inner"))]].
Proof.
  split_and!.
  - intros v es Hes. pose proof (extract_found v es Hes) as Hfound.
    split; [done|]. apply Forall_forall. intros e He.
    apply Hfound in He. by eapply foundIn_isEntry.
  - intros items Hnn. by apply extractItems_returns.
  - by intros [| | | | |].
  - by vm_compute.
  - by vm_compute.
Qed.

End KnowledgeProperties.

(* ===================================================================== *)
(** * Part VIII: PRAgent.createPR *)
(* ===================================================================== *)

Section CreatePR.

Lemma attempt_Threw env m :
  PRAgent.attempt env = Threw m ↔ PRAgent.failsWith env m.
Proof.
  split.
  - unfold PRAgent.attempt. intros H.
    destruct (PRAgent.createBranch env) eqn:Hb; cbn [negb] in H.
    2:{ injection H as <-. unfold PRAgent.createBranch in Hb.
        destruct (PRAgent.checkout env) eqn:Hc; [done|].
        destruct (PRAgent.checkoutNew env) eqn:Hn; [done|].
        by eapply PRAgent.branch_fails. }
    destruct (PRAgent.stageFiles env) as [[]|ms] eqn:Hs; cbn in H.
    2:{ injection H as <-. unfold PRAgent.stageFiles in Hs.
        destruct (PRAgent.add env) as [[]|ma] eqn:Ha; [done|].
        injection Hs as <-. by apply PRAgent.stage_fails. }
    assert (PRAgent.add env = Returned ()) as Ha.
    { unfold PRAgent.stageFiles in Hs.
      by destruct (PRAgent.add env) as [[]|]. }
    destruct (PRAgent.commit env) as [[]|mc] eqn:Hc; cbn in H.
    2:{ injection H as <-. unfold PRAgent.commit in Hc.
        destruct (PRAgent.commitCmd env) as [[]|mc'] eqn:Hcc; [done|].
        destruct (IssueAgent.includes mc' _) eqn:Hinc; [done|].
        injection Hc as <-. by apply PRAgent.commit_fails. }
    destruct (PRAgent.push env) as [[]|mp] eqn:Hp; cbn in H.
    2:{ injection H as <-. unfold PRAgent.push in Hp.
        destruct (PRAgent.pushCmd env) as [[]|m1] eqn:Hp1; [done|].
        destruct (PRAgent.pushUpstream env) as [[]|m2] eqn:Hp2; [done|].
        injection Hp as <-. by eapply PRAgent.push_fails. }
    by apply PRAgent.api_fails.
  - unfold PRAgent.attempt.
    destruct 1 as [m1 m2 Hc Hn|m Hb Ha|m Hb Ha Hc Hinc
                  |m1 m2 Hb Ha Hc Hp1 Hp2|m Hb Ha Hc Hp Hapi].
    + unfold PRAgent.createBranch. by rewrite Hc, Hn.
    + rewrite Hb. unfold PRAgent.stageFiles. by rewrite Ha.
    + rewrite Hb. unfold PRAgent.stageFiles, PRAgent.commit.
      by rewrite Ha, Hc, Hinc.
    + rewrite Hb. unfold PRAgent.stageFiles, PRAgent.push.
      by rewrite Ha, Hc, Hp1, Hp2.
    + rewrite Hb. unfold PRAgent.stageFiles. by rewrite Ha, Hc, Hp.
Qed.

(** X17: [createPR] never throws: it answers with [success] false and
    the message of the first step that fails: no branch could be checked
    out or created, the staging, the commit (unless there is nothing to
    commit), the push (only when the push with [-u] fails too, whose
    message is the one kept), or the call to the API.  It succeeds exactly
    when there is no such step, and then it gives the number and the
    address that the API returned. *)
Theorem createPR_reports_first_failure env :
  (∀ m, PRAgent.error (PRAgent.createPR env) = Some m
        ↔ PRAgent.failsWith env m) ∧
  (PRAgent.success (PRAgent.createPR env) = false
   ↔ ∃ m, PRAgent.failsWith env m) ∧
  (PRAgent.success (PRAgent.createPR env) = true ↔
   PRAgent.createBranch env = true ∧ PRAgent.add env = Returned () ∧
   PRAgent.commit env = Returned () ∧ PRAgent.push env = Returned () ∧
   ∃ n u, PRAgent.pullsCreate env = Returned (n, u) ∧
          PRAgent.number (PRAgent.createPR env) = Some n ∧
          PRAgent.url (PRAgent.createPR env) = Some u) ∧
  (∀ m, PRAgent.commitCmd env = Threw m →
        IssueAgent.includes m (lit "nothing to commit") = true →
        PRAgent.commit env = Returned ()) ∧
  (∀ m, PRAgent.pushCmd env = Threw m →
        PRAgent.pushUpstream env = Returned () →
        PRAgent.push env = Returned ()).
Proof.
  split_and!.
  - intros m. rewrite <-attempt_Threw. unfold PRAgent.createPR.
    destruct (PRAgent.attempt env) as [[n u]|m']; cbn [PRAgent.error];
      [done|].
    split; congruence.
  - unfold PRAgent.createPR.
    destruct (PRAgent.attempt env) as [[n u]|m'] eqn:Ha;
      cbn [PRAgent.success].
    + split; [done|]. intros [m Hm%attempt_Threw]. congruence.
    + split; [|done]. intros _. exists m'. by apply attempt_Threw.
  - unfold PRAgent.createPR, PRAgent.attempt.
    destruct (PRAgent.createBranch env); cbn [negb PRAgent.success];
      [|split; [done|]; by intros [? _]].
    unfold PRAgent.stageFiles.
    destruct (PRAgent.add env) as [[]|?]; cbn;
      [|split; [done|]; by intros (_ & ? & _)].
    destruct (PRAgent.commit env) as [[]|?]; cbn;
      [|split; [done|]; by intros (_ & _ & ? & _)].
    destruct (PRAgent.push env) as [[]|?]; cbn;
      [|split; [done|]; by intros (_ & _ & _ & ? & _)].
    destruct (PRAgent.pullsCreate env) as [[n u]|?]; cbn.
    + split; [|done]. intros _. split_and!; try done. by exists n, u.
    + split; [done|]. by intros (_ & _ & _ & _ & ? & ? & ? & _).
  - intros m Hc Hinc. unfold PRAgent.commit. by rewrite Hc, Hinc.
  - intros m Hp Hu. unfold PRAgent.push. by rewrite Hp, Hu.
Qed.

(** X18: a failure of [createPR] reaches the log of the executor: when the
    stages before the publication have passed, a run that is not a dry run
    throws "PR creation failed: " followed by the message of the step of
    [createPR] that failed, and [executeIssue] records that message. *)
Theorem executeIssue_reports_createPR_failure penv genv issue w m :
  createPR penv = Returned (PRAgent.toPRResult (PRAgent.createPR genv)) →
  issueAddLabels penv = Returned () →
  (∃ r, generateCode penv = Returned r ∧ success r = true) →
  writeFiles penv = Returned () →
  ReviewAgent.passed (ReviewAgent.review (reviewEnv penv)) = true →
  PRAgent.failsWith genv m →
  tryBlock false penv = Threw (lit "PR creation failed: " ++ m) ∧
  fst (executeIssue issue false penv w)
  = Threw (lit "PR creation failed: " ++ m) ∧
  executionLog (snd (executeIssue issue false penv w))
  = executionLog w
    ++ [mkLogEntry (Issue.number issue) (Issue.title issue) (elapsed penv)
          (LogFailed (lit "PR creation failed: " ++ m))].
Proof.
  intros Hpr Hl (r & Hg & Hs) Hw Hp Hm.
  assert (stageThrows false penv (lit "PR creation failed: " ++ m)) as Hst.
  { assert (PRAgent.toPRResult (PRAgent.createPR genv)
            = mkPRResult false None m) as Hres.
    { apply attempt_Threw in Hm. unfold PRAgent.createPR. by rewrite Hm. }
    rewrite Hres in Hpr.
    by apply (publish_fails false penv r (mkPRResult false None m)). }
  split; [by apply tryBlock_Threw|].
  by rewrite (executeIssue_Threw false issue penv w _ Hst).
Qed.

Lemma executeIssue_reports_createPR_failure_witness :
  tryBlock false PRAgent.pushRefusedEnv
  = Threw (lit "PR creation failed: " ++ lit "Failed to push: denied") ∧
  fst (executeIssue (simpleIssue 1 "") false PRAgent.pushRefusedEnv world0)
  = Threw (lit "PR creation failed: " ++ lit "Failed to push: denied") ∧
  executionLog
    (snd (executeIssue (simpleIssue 1 "") false PRAgent.pushRefusedEnv
            world0))
  = executionLog world0
    ++ [mkLogEntry (Issue.number (simpleIssue 1 ""))
          (Issue.title (simpleIssue 1 ""))
          (elapsed PRAgent.pushRefusedEnv)
          (LogFailed (lit "PR creation failed: "
                      ++ lit "Failed to push: denied"))].
Proof.
  apply (executeIssue_reports_createPR_failure PRAgent.pushRefusedEnv
           PRAgent.pushRefused).
  - done.
  - done.
  - eexists. split; [done|]. done.
  - done.
  - by vm_compute.
  - apply (PRAgent.push_fails PRAgent.pushRefused (lit "rejected")
             (lit "denied")); by vm_compute.
Defined.

End CreatePR.

(* ===================================================================== *)
(** * Part IX: CodeGenAgent *)
(* ===================================================================== *)

Section CodeGen.

(** X19: the agent that [executeIssue] makes, [new CodeGenAgent(key)],
    always generates with the Task tool, whatever the key and the
    environment: [useTaskTool] defaults to true.  The API is called only by
    an agent made with [useTaskTool] false, without [USE_TASK_TOOL=true]
    and with a key that is not empty, the mock only by such an agent
    without a key.  Of the three, only the call of the API has its errors
    turned into a result; the Task tool's are thrown, and its result never
    has an [error]. *)
Theorem generateCode_dispatch apiKey flag task mock api :
  CodeGenAgent.generateCode (CodeGenAgent.executorAgent apiKey flag)
    task mock api
  = CodeGenAgent.generateWithTaskTool task ∧
  (∀ arg,
     CodeGenAgent.generateCode (CodeGenAgent.constructor apiKey arg flag)
       task mock api
     = if bool_decide (arg = Some false ∧ flag ≠ Some (lit "true"))
       then match apiKey with
            | Some (_ :: _) =>
                match api with
                | Returned files =>
                    Returned
                      (CodeGenAgent.mkResult true files
                         (lit "Generated " ++ lit (pretty (length files))
                          ++ lit " file(s) using Claude Sonnet 4") None)
                | Threw message =>
                    Returned
                      (CodeGenAgent.mkResult false []
                         (lit "Code generation failed") (Some message))
                end
            | _ => Returned mock
            end
       else CodeGenAgent.generateWithTaskTool task) ∧
  (∀ m, task = Threw m → CodeGenAgent.generateWithTaskTool task = Threw m) ∧
  (∀ r, CodeGenAgent.generateWithTaskTool task = Returned r →
        CodeGenAgent.error r = None).
Proof.
  split_and!.
  - done.
  - intros arg. unfold CodeGenAgent.generateCode, CodeGenAgent.constructor.
    cbn [CodeGenAgent.useTaskTool CodeGenAgent.enabled
         CodeGenAgent.anthropic].
    destruct arg as [[|]|]; cbn [default orb].
    + case_bool_decide as H; [|done]. by destruct H.
    + destruct (bool_decide (flag = Some (lit "true"))) eqn:Hflag.
      * apply bool_decide_eq_true in Hflag.
        case_bool_decide as H; [|done]. by destruct H.
      * apply bool_decide_eq_false in Hflag.
        case_bool_decide as H; [|by destruct H].
        destruct apiKey as [[|c key]|]; cbn; try done.
    + case_bool_decide as H; [|done]. by destruct H.
  - by intros m ->.
  - intros r. unfold CodeGenAgent.generateWithTaskTool.
    destruct task as [tr|m]; cbn; [|done]. by intros [= <-].
Qed.



End CodeGen.

(* ===================================================================== *)
(** * Part X: levels and references on any input *)
(* ===================================================================== *)

Section LevelBound.

Variable nodes0 : list DAGNode.t.
Local Abbreviation M := (mkNodeMap nodes0).
Local Abbreviation ids := (DAGNode.id <$> nodes0).

Lemma elem_of_alter_level l i (nodes : list DAGNode.t) n :
  n ∈ alter (DAGNode.set_level l) i nodes →
  n ∈ nodes ∨ DAGNode.level n = l.
Proof.
  intros (j & Hj)%list_elem_of_lookup.
  destruct (decide (i = j)) as [->|Hne].
  - rewrite list_lookup_alter_eq in Hj.
    destruct (nodes !! j) as [m|]; [|done]. injection Hj as <-. by right.
  - rewrite list_lookup_alter_ne in Hj by done.
    left. by eapply list_elem_of_lookup_2.
Qed.

Lemma levelsBounded_write k i l st :
  levelsBounded ids k st →
  l + k + unvisited ids (visited st) ≤ length ids →
  levelsBounded ids k (writeLevel i l st).
Proof.
  intros [H0 Hn] Hl. split; [done|]. cbn [writeLevel visited nodes].
  intros n [Hin| ->]%elem_of_alter_level; [by apply Hn|done].
Qed.

Lemma levelsBounded_weaken k k' st visited' :
  levelsBounded ids k st →
  k' + unvisited ids visited' ≤ k + unvisited ids (visited st) →
  levelsBounded ids k' (mkLevelState visited' (nodes st)).
Proof.
  intros [H0 Hn] Hle. split; cbn [visited nodes]; [lia|].
  intros n Hin. specialize (Hn n Hin). lia.
Qed.

Lemma max_list_bound (ls : list nat) b :
  (∀ l, l ∈ ls → l ≤ b) → max_list ls ≤ b.
Proof.
  induction ls as [|l ls IH]; intros H; simpl; [lia|].
  apply Nat.max_lub.
  - apply H, elem_of_cons. by left.
  - apply IH. intros l' Hl'. apply H, elem_of_cons. by right.
Qed.

Lemma mapLevels_bounded fuel k deps : ∀ st ls st',
  (∀ a st l st',
     calculateLevel M fuel a st = Some (l, st') →
     skeleton (nodes st) = nodes0 → levelsBounded ids k st →
     levelsBounded ids k st' ∧
     l + k + unvisited ids (visited st') ≤ length ids) →
  mapLevels (calculateLevel M fuel) deps st = Some (ls, st') →
  skeleton (nodes st) = nodes0 → levelsBounded ids k st →
  levelsBounded ids k st' ∧
  ∀ l, l ∈ ls → l + k + unvisited ids (visited st') ≤ length ids.
Proof.
  induction deps as [|d deps IH]; intros st ls st' Hf H Hsk HK.
  - injection H as <- <-. split; [done|]. by intros ? ?%elem_of_nil.
  - simpl in H.
    destruct (calculateLevel M fuel d st) as [[l st1]|] eqn:E1; [|done].
    destruct (mapLevels _ deps st1) as [[ls' st2]|] eqn:E2; [|done].
    injection H as <- <-.
    destruct (Hf _ _ _ _ E1 Hsk HK) as [HK1 Hl1].
    apply calculateLevel_post in E1 as (Hsk1 & _); [|done].
    pose proof E2 as E2'.
    apply (mapLevels_post nodes0 _ _ _ _ _
             (calculateLevel_post nodes0 fuel)) in E2'
      as (_ & Hv2 & _); [|done].
    destruct (IH _ _ _ Hf E2 Hsk1 HK1) as [HK2 Hl2].
    split; [done|].
    intros l' [->|Hin]%elem_of_cons; [|by apply Hl2].
    pose proof (unvisited_mono ids _ _ Hv2). lia.
Qed.

Lemma calculateLevel_bounded fuel : ∀ k a st l st',
  calculateLevel M fuel a st = Some (l, st') →
  skeleton (nodes st) = nodes0 → levelsBounded ids k st →
  levelsBounded ids k st' ∧
  l + k + unvisited ids (visited st') ≤ length ids.
Proof.
  induction fuel as [|fuel IH]; intros k a st l st' H Hsk HK; [done|].
  rewrite calculateLevel_S in H. cbv zeta in H.
  destruct (decide (a ∈ visited st)) as [Hin|Hnot].
  { injection H as <- <-. split; [done|].
    destruct (getNode M (nodes st) a) as [[i node]|] eqn:Hget.
    - destruct (getNode_Some _ _ _ _ _ Hsk Hget) as (_ & Hi & _).
      apply HK. by eapply list_elem_of_lookup_2.
    - destruct HK as [H0 _]. lia. }
  assert (unvisited ids ({[a]} ∪ visited st) ≤ unvisited ids (visited st))
    as Hmono by (apply unvisited_mono; set_solver).
  destruct (getNode M (nodes st) a) as [[i node]|] eqn:Hget.
  2:{ injection H as <- <-.
      assert (levelsBounded ids k
                (mkLevelState ({[a]} ∪ visited st) (nodes st))) as HK1.
      { apply (levelsBounded_weaken k k st); [done|lia]. }
      split; [done|]. destruct HK1 as [H0 _]. cbn [visited] in *. lia. }
  destruct (getNode_Some _ _ _ _ _ Hsk Hget) as (HM & Hi & Hid & Hin).
  pose proof (unvisited_visit _ _ _ Hin Hnot) as Hlt.
  destruct (DAGNode.dependencies node) as [|d deps] eqn:Hdeps.
  { injection H as <- <-.
    assert (levelsBounded ids k
              (mkLevelState ({[a]} ∪ visited st) (nodes st))) as HK1.
    { apply (levelsBounded_weaken k k st); [done|lia]. }
    split.
    - apply levelsBounded_write; [done|].
      destruct HK1 as [H0 _]. cbn [visited] in *. lia.
    - destruct HK1 as [H0 _]. cbn [writeLevel visited] in *. lia. }
  destruct (mapLevels _ (d :: deps) _) as [[ls st2]|] eqn:Emap; [|done].
  injection H as <- <-.
  apply (mapLevels_bounded fuel (S k)) in Emap as [HK2 Hls];
    [|by apply IH|done|by apply (levelsBounded_weaken k (S k) st); [|lia]].
  assert (max_list ls + S k + unvisited ids (visited st2) ≤ length ids)
    as Hmax.
  { destruct HK2 as [H0 _].
    assert (max_list ls ≤ length ids - S k - unvisited ids (visited st2)).
    { apply max_list_bound. intros l Hl. specialize (Hls l Hl). lia. }
    lia. }
  assert (levelsBounded ids k st2) as HK2'.
  { destruct HK2 as [H0 Hn]. split; [lia|].
    intros n Hn'. specialize (Hn n Hn'). lia. }
  split.
  - apply levelsBounded_write; [done|]. lia.
  - cbn [writeLevel visited]. lia.
Qed.

Lemma calculateAll_bounded fuel idl : ∀ st st',
  calculateAll M fuel idl st = Some st' →
  skeleton (nodes st) = nodes0 → levelsBounded ids 0 st →
  levelsBounded ids 0 st'.
Proof.
  induction idl as [|a idl IH]; intros st st' H Hsk HK.
  - by injection H as <-.
  - simpl in H.
    destruct (calculateLevel M fuel a st) as [[l st1]|] eqn:E; [|done].
    destruct (calculateLevel_bounded _ _ _ _ _ _ E Hsk HK) as [HK1 _].
    apply calculateLevel_post in E as (Hsk1 & _); [|done].
    by apply (IH st1).
Qed.

End LevelBound.

Lemma leveledNodes_bounded fuel issues pre :
  leveledNodes fuel issues = Some pre →
  ∀ n, n ∈ pre → DAGNode.level n ≤ length issues.
Proof.
  unfold leveledNodes.
  destruct (calculateAll _ fuel _ _) as [st|] eqn:E; [|done].
  intros [= <-] n Hn.
  apply calculateAll_bounded in E as [_ HK].
  - specialize (HK n Hn). rewrite !length_fmap in HK. lia.
  - apply skeleton_newNode.
  - split; cbn [visited nodes].
    + unfold unvisited. simpl. apply length_filter.
    + intros m (issue & -> & _)%list_elem_of_fmap. simpl.
      unfold unvisited. apply length_filter.
Qed.

Lemma groupByLevel_keys dag : ∀ (m : gmap nat (list DAGNode.t)) l,
  l ∈ dom (foldl (λ levels node,
                    <[DAGNode.level node :=
                        default [] (levels !! DAGNode.level node) ++ [node]]>
                      levels) m dag) →
  l ∈ dom m ∨ ∃ n, n ∈ dag ∧ DAGNode.level n = l.
Proof.
  induction dag as [|n dag IH]; intros m l Hl; [by left|].
  cbn [foldl] in Hl. apply IH in Hl as [Hl|(n' & Hn' & <-)].
  - apply dom_insert, elem_of_union in Hl as [->%elem_of_singleton|Hl].
    + right. exists n. split; [|done]. apply elem_of_cons. by left.
    + by left.
  - right. exists n'. split; [|done]. apply elem_of_cons. by right.
Qed.

(** X21: whatever the references between the issues are (cycles,
    references to issues that are not in the list, an issue given twice),
    buildDAG returns a node list in which no level is larger than the
    number of issues, so the level loop of executeDAG makes at most that
    many turns plus one. *)
Theorem buildDAG_levels_bounded (issues : list Issue.t) :
  ∃ dag, buildDAG issues = Some dag ∧
         (∀ n, n ∈ dag → DAGNode.level n ≤ length issues) ∧
         length (levelRange (groupByLevel dag)) ≤ S (length issues).
Proof.
  destruct (leveledNodes_total (S (length issues)) issues)
    as (pre & Hpre & Hsk); [lia|].
  exists (sortByLevel pre). unfold buildDAG, buildDAG_fuel.
  rewrite Hpre. split; [done|].
  assert (∀ n, n ∈ sortByLevel pre → DAGNode.level n ≤ length issues) as Hb.
  { intros n Hn. rewrite (sortByLevel_perm pre) in Hn.
    by eapply leveledNodes_bounded. }
  split; [done|].
  unfold levelRange.
  destruct (elements (dom (groupByLevel (sortByLevel pre)))) as [|k ks] eqn:E;
    [simpl; lia|].
  rewrite length_seq. apply le_n_S, max_list_bound.
  intros l Hl. rewrite <-E in Hl. apply elem_of_elements in Hl.
  apply groupByLevel_keys in Hl as [Hl|(n & Hn & <-)].
  - by rewrite dom_empty in Hl.
  - by apply Hb.
Qed.

Section PrintParse.

Local Open Scope N_scope.

Lemma pretty_N_char_code (r : N) :
  r < 10 → Ascii.N_of_ascii (pretty_N_char r) = 48 + r.
Proof.
  intros Hr.
  assert (r = 0 ∨ r = 1 ∨ r = 2 ∨ r = 3 ∨ r = 4 ∨ r = 5 ∨ r = 6 ∨ r = 7
          ∨ r = 8 ∨ r = 9) as H by lia.
  repeat (destruct H as [->|H]; [reflexivity|]). by subst.
Qed.

Lemma lit_String c s : lit (String c s) = Ascii.N_of_ascii c :: lit s.
Proof. reflexivity. Qed.

(** Reading the digits that [pretty] puts before [s], then [s]. *)
Lemma parseInt10_pretty_go (x : N) : ∀ s,
  parseInt10 (lit (pretty_N_go x s))
  = foldl (λ acc d, acc * 10 + (d - 48)) x (lit s).
Proof.
  induction (N.lt_wf_0 x) as [x _ IH]; intros s.
  destruct (decide (0 < x)) as [Hx|Hx].
  - rewrite pretty_N_go_step by done.
    rewrite IH by (by apply N.div_lt).
    rewrite lit_String. cbn [foldl].
    rewrite pretty_N_char_code by (by apply N.mod_lt).
    f_equal. pose proof (N.div_mod x 10 ltac:(done)) as Hdm.
    revert Hdm. generalize (x / 10) (x mod 10). clear. intros q r Hdm. lia.
  - assert (x = 0) as -> by lia. by rewrite pretty_N_go_0.
Qed.

Lemma digits_pretty_go (x : N) : ∀ s,
  Forall (λ c, is_digit c = true) (lit s) →
  Forall (λ c, is_digit c = true) (lit (pretty_N_go x s)).
Proof.
  induction (N.lt_wf_0 x) as [x _ IH]; intros s Hs.
  destruct (decide (0 < x)) as [Hx|Hx].
  - rewrite pretty_N_go_step by done.
    apply IH; [by apply N.div_lt|].
    rewrite lit_String. constructor; [|done].
    rewrite pretty_N_char_code by (by apply N.mod_lt).
    pose proof (N.mod_lt x 10 ltac:(done)) as Hr. revert Hr.
    generalize (x mod 10). clear. intros r Hr.
    unfold is_digit. apply andb_true_iff. split; apply N.leb_le; lia.
  - assert (x = 0) as -> by lia. by rewrite pretty_N_go_0.
Qed.

Lemma nonempty_pretty_go (x : N) : ∀ s,
  lit s ≠ [] → lit (pretty_N_go x s) ≠ [].
Proof.
  induction (N.lt_wf_0 x) as [x _ IH]; intros s Hs.
  destruct (decide (0 < x)) as [Hx|Hx].
  - rewrite pretty_N_go_step by done.
    apply IH; [by apply N.div_lt|]. by rewrite lit_String.
  - assert (x = 0) as -> by lia. by rewrite pretty_N_go_0.
Qed.

(** The decimal numeral that a template string prints for a number is a
    run of digits that [parseInt] reads back as the number. *)
Lemma parseInt10_pretty (m : N) :
  lit (pretty m) ≠ [] ∧
  Forall (λ c, is_digit c = true) (lit (pretty m)) ∧
  parseInt10 (lit (pretty m)) = m.
Proof.
  unfold pretty, pretty_N. destruct (decide (m = 0)) as [->|Hm].
  - split_and!; [done| |done]. by repeat constructor.
  - split_and!.
    + rewrite pretty_N_go_step by lia.
      apply nonempty_pretty_go. by rewrite lit_String.
    + apply digits_pretty_go. constructor.
    + by rewrite parseInt10_pretty_go.
Qed.

End PrintParse.

Lemma parseDependencies_depends body i n :
  depends_occurrence body i n → n ∈ parseDependencies body.
Proof.
  intros (ds & len & H & ->)%depends_occurrence_at.
  unfold parseDependencies. apply Set_from_elem, elem_of_app. right.
  apply list_elem_of_fmap. exists ds. split; [done|].
  apply depends_matchAll_elem. eauto.
Qed.

(** X22: a reference written as [depends:] (in any case), white space,
    [#] and the number of an issue as a template string prints it resolves
    to that issue: with any text before it and no digit after the numeral,
    the id of that issue's node is among the dependencies of the node
    built for the issue that holds the reference. *)
Theorem newNode_reference_resolves (a b : Issue.t)
    (pre kw ws rest : jsstring) :
  Issue.body a
  = pre ++ kw ++ ws ++ lit "#" ++ lit (pretty (Issue.number b)) ++ rest →
  ci_equal kw (lit "depends:") →
  Forall (λ c, is_space c = true) ws →
  match rest with c :: _ => is_digit c = false | [] => True end →
  DAGNode.id (newNode b) ∈ DAGNode.dependencies (newNode a).
Proof.
  intros Hbody Hkw Hws Hrest.
  cbn [newNode DAGNode.id DAGNode.dependencies].
  apply list_elem_of_fmap_2.
  destruct (parseInt10_pretty (Issue.number b)) as (Hne & Hds & Hval).
  apply (parseDependencies_depends _ (length pre)).
  exists kw, ws, (lit (pretty (Issue.number b))), rest.
  split_and!; try done.
  rewrite Hbody. by rewrite drop_app_length.
Qed.

Lemma newNode_reference_resolves_witness :
  DAGNode.id (newNode (simpleIssue 12 "no references"))
  ∈ DAGNode.dependencies
      (newNode (simpleIssue 7 "Needs the schema. Depends:  #12, then #3")).
Proof.
  apply (newNode_reference_resolves _ _ (lit "Needs the schema. ")
           (lit "Depends:") (lit "  ") (lit ", then #3")).
  - reflexivity.
  - reflexivity.
  - by repeat constructor.
  - reflexivity.
Defined.

(* ===================================================================== *)
(** * Part XI: IssueAgent on GitHub *)
(* ===================================================================== *)

Section IssueAgentApiProperties.

Import IssueAgentApi.

Variable answer : list Request → Request → Response.

Lemma removeLabel_sent n l s :
  sent (removeLabel answer n l s) = sent s ++ [IssuesRemoveLabel n l].
Proof.
  unfold removeLabel, request.
  destruct (answer (sent s) (IssuesRemoveLabel n l)) as [?|e]; simpl;
    [done|].
  by destruct (IssueAgent.includes _ _).
Qed.

Lemma removeExisting_sent n labels : ∀ s,
  sent (removeExisting answer n labels s)
  = sent s ++ (IssuesRemoveLabel n <$> filter (λ l, l ≠ "") labels).
Proof.
  unfold removeExisting.
  induction labels as [|l labels IH]; intros s; simpl.
  - by rewrite app_nil_r.
  - rewrite IH. destruct (decide (l = "")) as [->|Hl].
    + by rewrite filter_cons_False by (by intros ?).
    + rewrite filter_cons_True by done.
      rewrite removeLabel_sent, <-app_assoc. done.
Qed.

(** X23: updateLabels first asks for the issue; when that fails it throws
    the error and sends nothing else.  Otherwise it sends one removal for
    each label of the issue whose name is not empty, in their order, then
    the one request that adds the new labels, and it throws exactly when
    that last request fails, with its error: no answer to a removal
    changes what is sent or how the call ends, and when the addition fails
    the removals have already been sent. *)
Theorem updateLabels_requests (n : N) (new : list string) (s : Session) :
  match answer (sent s) (IssuesGet n) with
  | Failure e =>
      updateLabels answer n new s
      = (Rejected e,
         mkSession (sent s ++ [IssuesGet n])
           (console s ++ [ErrFailedToUpdateLabels (message e)]))
  | Success labels =>
      let removals :=
        IssuesRemoveLabel n <$> filter (λ l, l ≠ "") (labelName <$> labels) in
      let h := sent s ++ IssuesGet n :: removals in
      sent (updateLabels answer n new s).2 = h ++ [IssuesAddLabels n new] ∧
      (updateLabels answer n new s).1
      = match answer h (IssuesAddLabels n new) with
        | Success _ => Resolved
        | Failure e => Rejected e
        end ∧
      last (console (updateLabels answer n new s).2)
      = Some (match answer h (IssuesAddLabels n new) with
              | Success _ => LogUpdatedLabels n
              | Failure e => ErrFailedToUpdateLabels (message e)
              end)
  end.
Proof.
  unfold updateLabels, request.
  destruct (answer (sent s) (IssuesGet n)) as [labels|e]; [|done].
  cbv zeta.
  set (s2 := removeExisting answer n (labelName <$> labels) _).
  assert (sent s2
          = sent s ++ IssuesGet n
              :: (IssuesRemoveLabel n <$>
                    filter (λ l, l ≠ "") (labelName <$> labels))) as Hs2.
  { unfold s2. rewrite removeExisting_sent. cbn [sent].
    by rewrite <-app_assoc. }
  clearbody s2. unfold addLabels, request. rewrite Hs2.
  destruct (answer _ (IssuesAddLabels n new)) as [?|e]; cbn;
    by rewrite last_snoc.
Qed.

(** The requests of one turn of the loop of ensureLabelsExist. *)
Lemma ensureLabel_sent l s :
  (sent (ensureLabel answer l s) = sent s ++ [IssuesGetLabel l] ∧
   ∀ e, answer (sent s) (IssuesGetLabel l) = Failure e →
        status e ≠ Some 404%N) ∨
  (sent (ensureLabel answer l s)
   = sent s ++ [IssuesGetLabel l;
                IssuesCreateLabel l (getLabelColor l)
                  (getLabelDescription l)] ∧
   ∃ e, answer (sent s) (IssuesGetLabel l) = Failure e ∧
        status e = Some 404%N).
Proof.
  unfold ensureLabel, request.
  destruct (answer (sent s) (IssuesGetLabel l)) as [?|e]; cbn.
  - left. split; [done|]. by intros e [=].
  - destruct (decide (status e = Some 404%N)) as [He|He].
    + right. split; [|by eauto]. cbn.
      destruct (answer _ (IssuesCreateLabel _ _ _)); cbn;
        by rewrite <-app_assoc.
    + left. split; [done|]. by intros e' [= <-].
Qed.

Lemma ensureLabelsFrom_trace labels : ∀ s,
  ∃ new, sent (ensureLabelsFrom answer labels s) = sent s ++ new ∧
         ensureTrace answer (sent s) labels new.
Proof.
  unfold ensureLabelsFrom.
  induction labels as [|l labels IH]; intros s; cbn [foldl].
  { exists []. rewrite app_nil_r. split; [done|].
    split_and!; try done; by intros ? ?%elem_of_nil. }
  destruct (IH (ensureLabel answer l s)) as (new & -> & Hg & Hc & H4 & Hk).
  destruct (ensureLabel_sent l s) as [[Hs Hno]|[Hs (e & He & Hst)]];
    rewrite Hs in *; clear Hs.
  - exists (IssuesGetLabel l :: new). rewrite <-app_assoc.
    split; [done|]. split_and!.
    + rewrite filter_cons_True by done. by rewrite Hg.
    + intros [|i] name c d Hi; [done|]. cbn in Hi.
      destruct (Hc _ _ _ _ Hi) as (j & e & -> & Hj & Ha & ? & ? & ?).
      exists (S j), e. split_and!; try done.
      cbn [take]. by rewrite <-app_assoc in Ha.
    + intros [|j] name e Hj Ha Hst.
      * injection Hj as <-. cbn in Ha. rewrite app_nil_r in Ha.
        by destruct (Hno e Ha).
      * cbn in Hj. cbn [take] in Ha. apply (H4 j name e Hj); [|done].
        by rewrite <-app_assoc.
    + intros r [->|Hr]%elem_of_cons; [done|by apply Hk].
  - exists (IssuesGetLabel l
            :: IssuesCreateLabel l (getLabelColor l) (getLabelDescription l)
            :: new).
    rewrite <-app_assoc. split; [done|]. split_and!.
    + rewrite filter_cons_True by done.
      rewrite filter_cons_False by (by intros ?). by rewrite Hg.
    + intros [|[|i]] name c d Hi; [done| |].
      * injection Hi as <- <- <-. exists 0, e. cbn.
        rewrite app_nil_r. done.
      * cbn in Hi.
        destruct (Hc _ _ _ _ Hi) as (j & e' & -> & Hj & Ha & ? & ? & ?).
        exists (S (S j)), e'. split_and!; try done.
        cbn [take]. by rewrite <-app_assoc in Ha.
    + intros [|[|j]] name e' Hj Ha Hst'.
      * by injection Hj as <-.
      * done.
      * cbn in Hj. cbn [take] in Ha. apply (H4 j name e' Hj); [|done].
        by rewrite <-app_assoc.
    + intros r [->|[->|Hr]%elem_of_cons]%elem_of_cons; [done..|by apply Hk].
Qed.

Lemma allLabels_eq : allLabels = fst <$> IssueAgent.allRules.
Proof. by vm_compute. Qed.

(** X24: ensureLabelsExist asks for each of the 31 labels of the rules
    once, in the order of the rules, and sends nothing but these requests
    and requests that create a label.  A label is created exactly when the
    request for it failed with the status 404: the creation is the next
    request, with the colour and the description of that label.  Any
    other failure, of a request for a label or of a creation, is passed
    over, and the last line on the console is the one of completion. *)
Theorem ensureLabelsExist_requests (s : Session) :
  ∃ new,
    sent (ensureLabelsExist answer s) = sent s ++ new ∧
    filter isGetLabel new = IssuesGetLabel <$> allLabels ∧
    NoDup allLabels ∧ length allLabels = 31 ∧
    (∀ i name c d,
       new !! i = Some (IssuesCreateLabel name c d) →
       ∃ j e, i = S j ∧ new !! j = Some (IssuesGetLabel name) ∧
              answer (sent s ++ take j new) (IssuesGetLabel name)
              = Failure e ∧
              status e = Some 404%N ∧
              c = getLabelColor name ∧ d = getLabelDescription name) ∧
    (∀ j name e,
       new !! j = Some (IssuesGetLabel name) →
       answer (sent s ++ take j new) (IssuesGetLabel name) = Failure e →
       status e = Some 404%N →
       new !! S j = Some (IssuesCreateLabel name (getLabelColor name)
                            (getLabelDescription name))) ∧
    (∀ r, r ∈ new →
          match r with
          | IssuesGetLabel _ | IssuesCreateLabel _ _ _ => True
          | _ => False
          end) ∧
    last (console (ensureLabelsExist answer s)) = Some LogSetupCompleted.
Proof.
  unfold ensureLabelsExist. cbv zeta.
  destruct (ensureLabelsFrom_trace allLabels
              (say (LogEnsuring (length allLabels)) s))
    as (new & Hsent & Hg & Hc & H4 & Hk).
  exists new. cbn [say sent console] in *.
  split; [exact Hsent|]. split; [exact Hg|].
  split; [rewrite allLabels_eq; apply allRules_NoDup|].
  split; [by vm_compute|].
  split; [exact Hc|]. split; [exact H4|]. split; [exact Hk|].
  by rewrite last_snoc.
Qed.

End IssueAgentApiProperties.

(* ===================================================================== *)
(** * Part XII: the files read from the answer of the API *)
(* ===================================================================== *)

Section ExtractFiles.

Import CodeGenResponse.

(** ** The matchers on a text of a known shape *)

Lemma lit_then_app {R} pat (k : jsstring → option R) s :
  lit_then pat k (pat ++ s) = k s.
Proof.
  induction pat as [|p pat IH]; [done|]. cbn. by rewrite N.eqb_refl.
Qed.

Lemma lit_then_head {R} pat (k : jsstring → option R) s :
  match pat, s with
  | p :: _, c :: _ => c ≠ p
  | _ :: _, [] => True
  | [], _ => False
  end → lit_then pat k s = None.
Proof.
  destruct pat as [|p pat]; [done|]. destruct s as [|c s]; [done|].
  intros Hne. cbn. by rewrite (proj2 (N.eqb_neq c p)).
Qed.

Lemma star_then_run {R} p (k : jsstring → option R) a s r :
  Forall (λ c, p c = true) a → stops p s → k s = Some r →
  star_then p k (a ++ s) = Some r.
Proof.
  intros Ha Hs Hk. induction Ha as [|c a Hc _ IH].
  - destruct s as [|c s]; [done|]. cbn in *. by rewrite Hs.
  - cbn. by rewrite Hc, IH.
Qed.

Lemma lazy_plus_then_run {R} p (k : jsstring → jsstring → option R) a :
  ∀ acc s r,
  a ≠ [] → Forall (λ c, p c = true) a →
  (∀ a1 a2, a = a1 ++ a2 → a1 ≠ [] → a2 ≠ [] →
            k (acc ++ a1) (a2 ++ s) = None) →
  k (acc ++ a) s = Some r →
  lazy_plus_then p k acc (a ++ s) = Some r.
Proof.
  induction a as [|c a IH]; intros acc s r Hne Ha Hfail Hk; [done|].
  apply Forall_cons in Ha as [Hc Ha]. cbn. rewrite Hc.
  destruct a as [|c' a].
  - cbn in *. by rewrite Hk.
  - rewrite (Hfail [c] (c' :: a)) by done.
    apply IH; [done|done| |by rewrite <-app_assoc].
    intros a1 a2 Ha12 Hn1 Hn2. rewrite <-app_assoc.
    apply (Hfail (c :: a1) a2); [by rewrite Ha12|done|done].
Qed.

(** ** What a successful match has read *)

Lemma lit_then_Some {R} pat (k : jsstring → option R) : ∀ s r,
  lit_then pat k s = Some r → ∃ s', s = pat ++ s' ∧ k s' = Some r.
Proof.
  induction pat as [|p pat IH]; intros s r H; [by exists s|].
  destruct s as [|c s]; [done|]. cbn in H.
  destruct (N.eqb_spec c p) as [->|]; [|done].
  destruct (IH _ _ H) as (s' & -> & Hk). by exists s'.
Qed.

Lemma star_then_Some {R} p (k : jsstring → option R) : ∀ s r,
  star_then p k s = Some r → ∃ a s', s = a ++ s' ∧ k s' = Some r.
Proof.
  induction s as [|c s IH]; intros r H; [by exists [], []|].
  cbn in H. destruct (p c); [|by exists [], (c :: s)].
  destruct (star_then p k s) as [r'|] eqn:E; [|by exists [], (c :: s)].
  injection H as <-. destruct (IH _ eq_refl) as (a & s' & -> & Hk).
  by exists (c :: a), s'.
Qed.

Lemma lazy_plus_then_Some {R} p (k : jsstring → jsstring → option R) :
  ∀ s acc r,
  lazy_plus_then p k acc s = Some r →
  ∃ a s', s = a ++ s' ∧ k (acc ++ a) s' = Some r.
Proof.
  induction s as [|c s IH]; intros acc r H; [done|].
  cbn in H. destruct (p c); [|done].
  destruct (k (acc ++ [c]) s) as [r'|] eqn:E.
  - injection H as <-. by exists [c], s.
  - destruct (IH _ _ H) as (a & s' & -> & Hk).
    exists (c :: a), s'. split; [done|]. by rewrite <-app_assoc in Hk.
Qed.

(** ** [match] with and without the [g] flag *)

Lemma matchAll_skip {G} (m : Pattern G) a : ∀ s,
  matchAll m (length a) (a ++ s) = matchAll m 0 s.
Proof. induction a as [|c a IH]; intros s; [done|]. apply IH. Qed.

Lemma matchAll_found {G} (m : Pattern G) blk rest g :
  blk ≠ [] → m (blk ++ rest) = Some (g, rest) →
  matchAll m 0 (blk ++ rest) = blk :: matchAll m 0 rest.
Proof.
  intros Hne Hm. destruct blk as [|c blk]; [done|].
  change ((c :: blk) ++ rest) with (c :: (blk ++ rest)) in *.
  cbn [matchAll]. rewrite Hm.
  replace (length (c :: blk ++ rest) - length rest)
    with (S (length blk)) by (cbn; rewrite length_app; lia).
  cbn [take]. rewrite take_app_length. f_equal.
  replace (S (length blk) - 1) with (length blk) by lia.
  apply matchAll_skip.
Qed.

Lemma matchAll_none {G} (m : Pattern G) : ∀ s,
  (∀ i, m (drop i s) = None) → matchAll m 0 s = [].
Proof.
  induction s as [|c s IH]; intros H; cbn [matchAll];
    pose proof (H 0) as H0; cbn [drop] in H0; rewrite H0; [done|].
  apply IH. intros i. apply (H (S i)).
Qed.

(** ** The first pattern on the text of a file *)

Lemma oneLine_inv x :
  oneLine x → x ≠ [] ∧ Forall (λ c, is_dot c = true) x ∧
              (∀ s, stops is_space (x ++ s)) ∧
              ∀ a1 a2, x = a1 ++ a2 → a2 ≠ [] →
                       ∃ c a2', a2 = c :: a2' ∧ c ≠ 93%N.
Proof.
  intros [Hhead Hall]. destruct x as [|c x]; [done|]. split_and!.
  - done.
  - eapply Forall_impl; [done|]. by intros ? [? _].
  - done.
  - intros a1 [|c' a2] Heq Hne; [done|]. exists c', a2. split; [done|].
    rewrite Heq in Hall. apply Forall_app in Hall as [_ Hall].
    by apply Forall_cons in Hall as [[_ ?] _].
Qed.

Lemma fileBlock_blockText f lang tail :
  oneLine (path f) → oneLine (description f) →
  Forall (λ c, is_word c = true) lang →
  content f ≠ [] → noBacktick (content f) →
  fileBlock (blockText f lang ++ tail)
  = Some ((path f, description f, content f), tail).
Proof.
  intros (Hp0 & Hp1 & Hp2 & Hp3)%oneLine_inv
         (Hd0 & Hd1 & Hd2 & Hd3)%oneLine_inv Hlang Hc0 Hc.
  unfold fileBlock, blockText. rewrite <-!app_assoc.
  rewrite lit_then_app.
  apply star_then_run; [by repeat constructor|apply Hp2|].
  apply lazy_plus_then_run; [done|done| |].
  { intros a1 a2 Heq _ Hne.
    destruct (Hp3 a1 a2 Heq Hne) as (c & a2' & -> & Hc93).
    by apply lit_then_head. }
  cbn [app]. rewrite lit_then_app.
  apply star_then_run; [by repeat constructor|done|].
  rewrite lit_then_app.
  apply star_then_run; [by repeat constructor|apply Hd2|].
  apply lazy_plus_then_run; [done|done| |].
  { intros a1 a2 Heq _ Hne.
    destruct (Hd3 a1 a2 Heq Hne) as (c & a2' & -> & Hc93).
    by apply lit_then_head. }
  cbn [app]. rewrite lit_then_app.
  apply star_then_run; [by repeat constructor|done|].
  rewrite lit_then_app.
  apply star_then_run; [by repeat constructor|done|].
  rewrite lit_then_app.
  apply star_then_run; [done|done|].
  rewrite lit_then_app.
  apply lazy_plus_then_run; [done|by apply Forall_true| |].
  { intros a1 [|c a2] Heq _ Hne; [done|].
    apply lit_then_head. cbn.
    unfold noBacktick in Hc. rewrite Heq in Hc.
    apply Forall_app in Hc as [_ Hc]. by apply Forall_cons in Hc as [? _]. }
  cbn [app]. by rewrite lit_then_app.
Qed.

Lemma exec_head {G} (m : Pattern G) s g rest :
  m s = Some (g, rest) → exec m s = Some g.
Proof. intros H. destruct s; cbn; by rewrite H. Qed.

Lemma matchAll_blocksText fs :
  Forall readable fs →
  matchAll fileBlock 0 (blocksText fs) = (λ e, blockText e.1 e.2) <$> fs.
Proof.
  unfold blocksText.
  induction 1 as [|[f lang] fs (Hp & Hd & Hlang & Hc0 & Hc) _ IH]; [done|].
  cbn [fmap list_fmap concat fst snd] in *. rewrite <-app_assoc.
  rewrite (matchAll_found _ _ _ (path f, description f, content f)).
  - f_equal. rewrite <-IH. done.
  - done.
  - by apply fileBlock_blockText.
Qed.

Lemma fileBlockFile_blockText f lang :
  readable (f, lang) → fileBlockFile (blockText f lang) = [trimmed f].
Proof.
  intros (Hp & Hd & Hlang & Hc0 & Hc). unfold fileBlockFile.
  rewrite (exec_head _ _ (path f, description f, content f) []); [done|].
  rewrite <-(app_nil_r (blockText f lang)).
  by apply fileBlock_blockText.
Qed.

(** X25: a response made of file texts in the form of the first pattern
    ([FILE: path], [DESCRIPTION: text], [CONTENT] and the code between
    two fences), one after the other, is read back as these files, in
    their order, each field with the white space at its ends removed:
    this holds when the path and the description are on one line, do not
    begin with white space and hold no closing bracket, and the code is
    not empty and holds no backtick. *)
Theorem extractFiles_reads_file_blocks (fs : list (GeneratedFile * jsstring)) :
  Forall readable fs →
  extractFilesFromResponse (blocksText fs) = trimmed ∘ fst <$> fs.
Proof.
  intros Hfs. unfold extractFilesFromResponse.
  rewrite (matchAll_blocksText fs Hfs).
  destruct fs as [|e fs]; [done|].
  cbn [fmap list_fmap]. clear -Hfs.
  change (concat (fileBlockFile <$> ((λ e, blockText e.1 e.2) <$> e :: fs))
          = trimmed ∘ fst <$> e :: fs).
  induction Hfs as [|[f lang] fs' Hr _ IH]; [done|].
  cbn [fmap list_fmap concat fst snd compose].
  rewrite (fileBlockFile_blockText f lang Hr). cbn [app]. f_equal. apply IH.
Qed.

Lemma extractFiles_reads_file_blocks_witness :
  extractFilesFromResponse (blocksText twoFiles) = fst <$> twoFiles.
Proof.
  apply (extractFiles_reads_file_blocks twoFiles).
  repeat constructor; cbn; try done; by apply (bool_decide_unpack _).
Defined.

(** ** The format of the prompt *)

Lemma backticks_app a b : backticks (a ++ b) = backticks a + backticks b.
Proof. unfold backticks. by rewrite filter_app, length_app. Qed.

Lemma backticks_drop i s : backticks (drop i s) ≤ backticks s.
Proof.
  rewrite <-(take_drop i s) at 2. rewrite backticks_app. lia.
Qed.

Lemma noBacktick_backticks s : noBacktick s → backticks s = 0.
Proof.
  unfold backticks. induction 1 as [|c s Hc _ IH]; [done|].
  by rewrite filter_cons_False.
Qed.

(** A match of the first pattern begins with a bracket and reads two
    fences. *)
Lemma fileBlock_Some s r :
  fileBlock s = Some r → 6 ≤ backticks s ∧ head s = Some 91%N.
Proof.
  unfold fileBlock. intros H.
  apply lit_then_Some in H as (s1 & -> & H).
  split; [|done].
  apply star_then_Some in H as (? & ? & -> & H).
  apply lazy_plus_then_Some in H as (? & ? & -> & H).
  apply lit_then_Some in H as (? & -> & H).
  apply star_then_Some in H as (? & ? & -> & H).
  apply lit_then_Some in H as (? & -> & H).
  apply star_then_Some in H as (? & ? & -> & H).
  apply lazy_plus_then_Some in H as (? & ? & -> & H).
  apply lit_then_Some in H as (? & -> & H).
  apply star_then_Some in H as (? & ? & -> & H).
  apply lit_then_Some in H as (? & -> & H).
  apply star_then_Some in H as (? & ? & -> & H).
  apply lit_then_Some in H as (? & -> & H).
  apply star_then_Some in H as (? & ? & -> & H).
  apply lit_then_Some in H as (? & -> & H).
  apply lazy_plus_then_Some in H as (? & ? & -> & H).
  apply lit_then_Some in H as (? & -> & H).
  rewrite !backticks_app.
  change (backticks (lit "```")) with 3. lia.
Qed.

Lemma promptFormat_inner p d code :
  promptFormat p d code
  = lit "```" ++ lit "filepath" ++ nl ++ promptInner p d code ++ lit "```".
Proof. unfold promptFormat, promptInner. by rewrite <-!app_assoc. Qed.

Lemma promptInner_noBacktick p d code :
  noBacktick p → noBacktick d → noBacktick code →
  noBacktick (promptInner p d code) ∧ promptInner p d code ≠ [].
Proof.
  intros Hp Hd Hc. split; [|done]. unfold promptInner, noBacktick.
  repeat (apply Forall_app; split); try done; by repeat constructor.
Qed.

Lemma fileBlock_promptFormat p d code i :
  noBacktick p → noBacktick d → noBacktick code →
  fileBlock (drop i (promptFormat p d code)) = None.
Proof.
  intros Hp Hd Hc.
  destruct (fileBlock _) as [r|] eqn:E; [|done]. exfalso.
  apply fileBlock_Some in E as [E6 Ehd].
  destruct (promptInner_noBacktick p d code Hp Hd Hc) as [Hin _].
  set (t := lit "``filepath" ++ nl ++ promptInner p d code ++ lit "```").
  assert (promptFormat p d code = 96%N :: t) as Ht.
  { by rewrite promptFormat_inner. }
  assert (backticks t = 5) as H5.
  { unfold t. rewrite !backticks_app.
    by rewrite (noBacktick_backticks _ Hin). }
  rewrite Ht in E6, Ehd. destruct i as [|i]; [done|].
  change (6 ≤ backticks (drop i t)) in E6.
  pose proof (backticks_drop i t). lia.
Qed.

Lemma codeBlock_promptFormat p d code :
  noBacktick p → noBacktick d → noBacktick code →
  codeBlock (promptFormat p d code)
  = Some ((Some (lit "filepath"), promptInner p d code), []).
Proof.
  intros Hp Hd Hc.
  destruct (promptInner_noBacktick p d code Hp Hd Hc) as [Hin Hne].
  rewrite promptFormat_inner. unfold codeBlock.
  rewrite lit_then_app. unfold opt_plus_then.
  assert (∀ R (k : jsstring → jsstring → option R) s r,
            k (lit "filepath") (nl ++ s) = Some r →
            plus_then is_word k [] (lit "filepath" ++ nl ++ s) = Some r)
    as Hplus.
  { intros R k s r Hk. cbn. cbn in Hk. by rewrite Hk. }
  erewrite Hplus; [done|].
  rewrite lit_then_app.
  rewrite <-(app_nil_r (lit "```")).
  apply lazy_plus_then_run; [done|by apply Forall_true| |].
  - intros a1 [|c a2] Heq _ Hn2; [done|].
    apply lit_then_head. cbn.
    unfold noBacktick in Hin. rewrite Heq in Hin.
    apply Forall_app in Hin as [_ Hin]. by apply Forall_cons in Hin as [? _].
  - cbn [app]. by rewrite lit_then_app.
Qed.

(** X26: the prompt shows the model one format for a file, with the
    header lines inside the fence, and a response in that very format is
    not read as a file block: whatever path, description and code it
    holds (without backticks), the first pattern matches nowhere, the
    fallback takes the whole block as code, and the one file that comes
    out is named [generated/file-1.filepath] and holds the header lines in
    its content; the path that the response names is not used. *)
Theorem extractFiles_prompt_format
    (repository issueTitle issueBody : jsstring) (issueNumber : N)
    (filePath description code : jsstring) :
  noBacktick filePath → noBacktick description → noBacktick code →
  (∃ before after,
     buildPrompt repository issueNumber issueTitle issueBody
     = before
       ++ promptFormat (lit "path/to/file.ts")
            (lit "Brief description of what this file does")
            (lit "// Your code here")
       ++ after) ∧
  extractFilesFromResponse (promptFormat filePath description code)
  = [mkFile (lit "generated/file-1.filepath")
       (trim (promptInner filePath description code))
       (lit "Generated code block 1")].
Proof.
  intros Hp Hd Hc. split.
  - exists (promptHead repository issueNumber issueTitle issueBody),
      promptTail. reflexivity.
  - unfold extractFilesFromResponse.
    rewrite matchAll_none
      by (intros i; by apply fileBlock_promptFormat).
    rewrite <-(app_nil_r (promptFormat _ _ _)).
    erewrite matchAll_found;
      [|by rewrite promptFormat_inner
       |rewrite app_nil_r; by apply codeBlock_promptFormat].
    cbn [matchAll imap concat app]. rewrite app_nil_r.
    unfold codeBlockFile.
    erewrite exec_head by (by apply codeBlock_promptFormat).
    reflexivity.
Qed.

Lemma extractFiles_prompt_format_witness :
  (∃ before after,
     buildPrompt (lit "owner/repo") 22 (lit "Add a parser") (lit "Details")
     = before
       ++ promptFormat (lit "path/to/file.ts")
            (lit "Brief description of what this file does")
            (lit "// Your code here")
       ++ after) ∧
  extractFilesFromResponse
    (promptFormat (lit "path/to/file.ts")
       (lit "Brief description of what this file does")
       (lit "// Your code here"))
  = [mkFile (lit "generated/file-1.filepath")
       (trim (promptInner (lit "path/to/file.ts")
                (lit "Brief description of what this file does")
                (lit "// Your code here")))
       (lit "Generated code block 1")].
Proof.
  apply extractFiles_prompt_format; by repeat constructor.
Defined.

End ExtractFiles.
